(** * mail_deduplicate.deduplicate: duplicate-set resolution and orchestration

    A shallow embedding of [src/mail_deduplicate/deduplicate.py]: the
    statistics counters ([collections.Counter]), [DuplicateSet] with its
    difference checks and candidate selection, and [Deduplicate] with source
    registration, hashing, selection, removal and the consistency checks. *)

From Stdlib Require Import ZArith String Ascii List Lia DecimalString.
From stdpp Require Import base option list gmap strings.

Local Open Scope string_scope.
Local Open Scope Z_scope.
Local Open Scope list_scope.

(** ** [collections.Counter]

    A [Counter] is a dict from names to integers in which a missing key reads
    as 0. *)
Module Counter.

(** [c[k]]: [Counter.__missing__] gives 0. *)
Definition get (c : gmap string Z) (k : string) : Z := default 0 (c !! k).

(** [c[k] = n]. *)
Definition assign (c : gmap string Z) (k : string) (n : Z) : gmap string Z :=
  <[k := n]> c.

(** [c[k] += n]: read (0 when missing), add, store. *)
Definition incr (c : gmap string Z) (k : string) (n : Z) : gmap string Z :=
  <[k := get c k + n]> c.

(** [Counter._keep_positive]: drop the entries whose count is not positive. *)
Definition keep_positive (c : gmap string Z) : gmap string Z :=
  filter (λ kv, 0 < kv.2) c.

(** [c += other]:
    [for elem, count in other.items(): self[elem] += count], then
    [return self._keep_positive()]. *)
Definition iadd (c other : gmap string Z) : gmap string Z :=
  keep_positive (map_fold (λ k n acc, incr acc k n) c other).

End Counter.

(** ** [difflib.unified_diff]

    [DuplicateSet.diff] measures the text that Python's [difflib.unified_diff]
    produces.  This module embeds the part of [difflib] that call runs:
    [SequenceMatcher(None, a, b)] (no junk predicate, [autojunk] on),
    [find_longest_match], [get_matching_blocks], [get_opcodes],
    [get_grouped_opcodes(n)] and the formatting of [unified_diff].
    Sequences are lists of lines, indices are natural numbers. *)
Module Difflib.

Local Open Scope nat_scope.

(** [a[i1:i2]] for [0 <= i1], [0 <= i2]: empty when [i2 <= i1]. *)
Definition slice {A} (l : list A) (i1 i2 : nat) : list A :=
  take (i2 - i1) (drop i1 l).

(** [a[i] == b[j]], false where an index is out of range (the matcher only
    compares inside both sequences). *)
Definition same_at (a b : list string) (i j : nat) : bool :=
  match a !! i, b !! j with
  | Some x, Some y => String.eqb x y
  | _, _ => false
  end.

(** [__chain_b]: [b2j] maps each line of [b] to the increasing list of the
    indices where it occurs. With [isjunk = None] there is no junk; with
    [autojunk] and [len(b) >= 200], the lines occurring more than
    [len(b) // 100 + 1] times are deleted from [b2j]. *)
Definition index_b (b : list string) : gmap string (list nat) :=
  fold_left (λ b2j '(i, elt), <[elt := default [] (b2j !! elt) ++ [i]]> b2j)
            (imap (λ i elt, (i, elt)) b) ∅.

Definition chain_b (b : list string) : gmap string (list nat) :=
  let b2j := index_b b in
  let n := length b in
  if 200 <=? n then
    let ntest := n / 100 + 1 in
    filter (λ kv, ¬ (ntest < length kv.2)) b2j
  else b2j.

(** The state of the search in [find_longest_match]: the row [newj2len]
    being filled and the best block so far. *)
Record best := { besti : nat; bestj : nat; bestsize : nat }.

(** The inner loop [for j in b2j.get(a[i], nothing)]: skip [j < blo], stop at
    the first [j >= bhi]. [j2len.get(j-1, 0)] is 0 at [j = 0], as no key is
    negative. *)
Fixpoint scan_row (j2len : gmap nat nat) (i blo bhi : nat) (js : list nat)
    (newj2len : gmap nat nat) (bst : best) : gmap nat nat * best :=
  match js with
  | [] => (newj2len, bst)
  | j :: js' =>
      if j <? blo then scan_row j2len i blo bhi js' newj2len bst
      else if bhi <=? j then (newj2len, bst)
      else
        let k := match j with
                 | O => 0
                 | S j' => default 0 (j2len !! j')
                 end + 1 in
        let newj2len := <[j := k]> newj2len in
        let bst := if bestsize bst <? k
                   then {| besti := i + 1 - k; bestj := j + 1 - k; bestsize := k |}
                   else bst in
        scan_row j2len i blo bhi js' newj2len bst
  end.

(** The outer loop [for i in range(alo, ahi)]. *)
Definition scan_rows (a : list string) (b2j : gmap string (list nat))
    (alo ahi blo bhi : nat) : best :=
  snd (fold_left
         (λ '(j2len, bst) i,
            let js := match a !! i with
                      | Some elt => default [] (b2j !! elt)
                      | None => []
                      end in
            scan_row j2len i blo bhi js ∅ bst)
         (seq alo (ahi - alo))
         (∅, {| besti := alo; bestj := blo; bestsize := 0 |})).

(** [while besti > alo and bestj > blo and a[besti-1] == b[bestj-1]]:
    extend the block to the left. *)
Fixpoint extend_left (a b : list string) (alo blo : nat) (i j size : nat) : best :=
  match i, j with
  | S i', S j' =>
      if (alo <? i) && (blo <? j) && same_at a b i' j'
      then extend_left a b alo blo i' j' (S size)
      else {| besti := i; bestj := j; bestsize := size |}
  | _, _ => {| besti := i; bestj := j; bestsize := size |}
  end.

(** [while besti+bestsize < ahi and bestj+bestsize < bhi and
    a[besti+bestsize] == b[bestj+bestsize]]: extend to the right. [room] is
    [ahi - (besti + bestsize)], the number of iterations left at most. *)
Fixpoint extend_right (a b : list string) (ahi bhi : nat) (i j : nat)
    (room size : nat) : nat :=
  match room with
  | O => size
  | S room' =>
      if (i + size <? ahi) && (j + size <? bhi) && same_at a b (i + size) (j + size)
      then extend_right a b ahi bhi i j room' (S size)
      else size
  end.

(** [find_longest_match(alo, ahi, blo, bhi)]; the two loops over junk never
    run since [bjunk] is empty. *)
Definition find_longest_match (a b : list string) (b2j : gmap string (list nat))
    (alo ahi blo bhi : nat) : nat * nat * nat :=
  let bst := scan_rows a b2j alo ahi blo bhi in
  let bst := extend_left a b alo blo (besti bst) (bestj bst) (bestsize bst) in
  let size := extend_right a b ahi bhi (besti bst) (bestj bst)
                (ahi - (besti bst + bestsize bst)) (bestsize bst) in
  (besti bst, bestj bst, size).

(** The work list of [get_matching_blocks]: [queue.pop()] takes the window
    pushed last, so the head of the list is the top of the stack. The loop
    runs once per window; [fuel] bounds the number of iterations and [None]
    means it ran out. *)
Fixpoint matching_loop (a b : list string) (b2j : gmap string (list nat))
    (fuel : nat) (queue : list (nat * nat * nat * nat))
    (blocks : list (nat * nat * nat)) : option (list (nat * nat * nat)) :=
  match queue with
  | [] => Some blocks
  | (alo, ahi, blo, bhi) :: queue' =>
      match fuel with
      | O => None
      | S fuel' =>
          let '(i, j, k) := find_longest_match a b b2j alo ahi blo bhi in
          if k =? 0 then matching_loop a b b2j fuel' queue' blocks
          else
            let blocks := blocks ++ [(i, j, k)] in
            let queue1 := if (alo <? i) && (blo <? j)
                          then (alo, i, blo, j) :: queue' else queue' in
            let queue2 := if (i + k <? ahi) && (j + k <? bhi)
                          then (i + k, ahi, j + k, bhi) :: queue1 else queue1 in
            matching_loop a b b2j fuel' queue2 blocks
      end
  end.

(** Tuple comparison [(i1, j1, k1) <= (i2, j2, k2)] and [list.sort]. *)
Definition block_leb (x y : nat * nat * nat) : bool :=
  let '(i1, j1, k1) := x in
  let '(i2, j2, k2) := y in
  (i1 <? i2) || ((i1 =? i2) && ((j1 <? j2) || ((j1 =? j2) && (k1 <=? k2)))).

Fixpoint insert_block (x : nat * nat * nat) (l : list (nat * nat * nat)) :=
  match l with
  | [] => [x]
  | y :: l' => if block_leb x y then x :: l else y :: insert_block x l'
  end.

Definition sort_blocks (l : list (nat * nat * nat)) : list (nat * nat * nat) :=
  fold_right insert_block [] l.

(** Collapsing adjacent blocks: the loop over the sorted blocks carries
    [(i1, j1, k1)]. *)
Fixpoint collapse (i1 j1 k1 : nat) (blocks : list (nat * nat * nat))
    : list (nat * nat * nat) :=
  match blocks with
  | [] => if k1 =? 0 then [] else [(i1, j1, k1)]
  | (i2, j2, k2) :: rest =>
      if (i1 + k1 =? i2) && (j1 + k1 =? j2) then collapse i1 j1 (k1 + k2) rest
      else (if k1 =? 0 then [] else [(i1, j1, k1)]) ++ collapse i2 j2 k2 rest
  end.

(** [get_matching_blocks]: run the work list from the whole of both sequences
    ([2 * len(a) + 1] iterations are enough, see [matching_loop_terminates]),
    sort the blocks, merge the adjacent ones and append the sentinel
    [(la, lb, 0)]. *)
Definition get_matching_blocks (a b : list string) : list (nat * nat * nat) :=
  let la := length a in
  let lb := length b in
  let blocks := default [] (matching_loop a b (chain_b b) (2 * la + 1) [(0, la, 0, lb)] []) in
  collapse 0 0 0 (sort_blocks blocks) ++ [(la, lb, 0)].

Inductive tag := Replace | Delete | Insert | Equal.

#[global] Instance tag_eq_dec : EqDecision tag.
Proof. solve_decision. Defined.

Definition opcode : Type := tag * nat * nat * nat * nat.

(** [get_opcodes]: the loop over the matching blocks carries [(i, j)]. *)
Fixpoint opcodes_from (i j : nat) (blocks : list (nat * nat * nat)) : list opcode :=
  match blocks with
  | [] => []
  | (ai, bj, size) :: rest =>
      let change :=
        if (i <? ai) && (j <? bj) then [(Replace, i, ai, j, bj)]
        else if i <? ai then [(Delete, i, ai, j, bj)]
        else if j <? bj then [(Insert, i, ai, j, bj)]
        else [] in
      let same :=
        if size =? 0 then [] else [(Equal, ai, ai + size, bj, bj + size)] in
      change ++ same ++ opcodes_from (ai + size) (bj + size) rest
  end.

Definition get_opcodes (a b : list string) : list opcode :=
  opcodes_from 0 0 (get_matching_blocks a b).

Definition is_equal (t : tag) : bool :=
  match t with Equal => true | _ => false end.

(** [codes[0] = tag, max(i1, i2-n), i2, max(j1, j2-n), j2] when the first
    opcode is [equal]. *)
Definition trim_first (n : nat) (codes : list opcode) : list opcode :=
  match codes with
  | (Equal, i1, i2, j1, j2) :: rest =>
      (Equal, Nat.max i1 (i2 - n), i2, Nat.max j1 (j2 - n), j2) :: rest
  | _ => codes
  end.

(** [codes[-1] = tag, i1, min(i2, i1+n), j1, min(j2, j1+n)] when the last
    opcode is [equal]. *)
Fixpoint trim_last (n : nat) (codes : list opcode) : list opcode :=
  match codes with
  | [] => []
  | [(Equal, i1, i2, j1, j2)] =>
      [(Equal, i1, Nat.min i2 (i1 + n), j1, Nat.min j2 (j1 + n))]
  | c :: rest => c :: trim_last n rest
  end.

(** The grouping loop: [group] is the group being built; a long [equal]
    closes it and opens the next one. *)
Fixpoint group_loop (n : nat) (codes : list opcode) (group : list opcode)
    : list (list opcode) :=
  match codes with
  | [] =>
      match group with
      | [] => []
      | [(Equal, _, _, _, _)] => []
      | _ => [group]
      end
  | (t, i1, i2, j1, j2) :: rest =>
      if is_equal t && (n + n <? i2 - i1) then
        (group ++ [(t, i1, Nat.min i2 (i1 + n), j1, Nat.min j2 (j1 + n))])
          :: group_loop n rest [(t, Nat.max i1 (i2 - n), i2, Nat.max j1 (j2 - n), j2)]
      else group_loop n rest (group ++ [(t, i1, i2, j1, j2)])
  end.

Definition grouped (n : nat) (codes : list opcode) : list (list opcode) :=
  let codes := match codes with [] => [(Equal, 0, 1, 0, 1)] | _ => codes end in
  group_loop n (trim_last n (trim_first n codes)) [].

Definition get_grouped_opcodes (a b : list string) (n : nat) : list (list opcode) :=
  grouped n (get_opcodes a b).

(** ['{}'.format(n)] for a non-negative integer. *)
Definition format_nat (n : nat) : string :=
  NilZero.string_of_uint (Nat.to_uint n).

(** [_format_range_unified(start, stop)]. *)
Definition format_range_unified (start stop : nat) : string :=
  let beginning := start + 1 in
  let length := stop - start in
  if length =? 1 then format_nat beginning
  else
    let beginning := if length =? 0 then beginning - 1 else beginning in
    String.append (format_nat beginning) (String.append "," (format_nat length)).

(** The lines of one opcode: [' ' + line] for [equal], ['-' + line] for the
    lines of [a] under [replace] and [delete], ['+' + line] for the lines of
    [b] under [replace] and [insert]. *)
Definition opcode_lines (a b : list string) (c : opcode) : list string :=
  let '(t, i1, i2, j1, j2) := c in
  match t with
  | Equal => map (String.append " ") (slice a i1 i2)
  | Replace => map (String.append "-") (slice a i1 i2)
                 ++ map (String.append "+") (slice b j1 j2)
  | Delete => map (String.append "-") (slice a i1 i2)
  | Insert => map (String.append "+") (slice b j1 j2)
  end.

(** The hunk of one group: the ['@@ -{} +{} @@'] line built from the first
    and last opcode of the group, then the lines of its opcodes. *)
Definition group_lines (a b : list string) (lineterm : string) (group : list opcode)
    : list string :=
  match group, last group with
  | (_, f1, _, f3, _) :: _, Some (_, _, l2, _, l4) =>
      String.concat "" ["@@ -"; format_range_unified f1 l2; " +";
                        format_range_unified f3 l4; " @@"; lineterm]
        :: flat_map (opcode_lines a b) group
  | _, _ => []
  end.

(** ['\t{}'.format(date) if date else '']. *)
Definition format_date (date : string) : string :=
  match date with
  | EmptyString => ""
  | _ => String.append (String "009"%char "") date
  end.

(** [unified_diff(a, b, fromfile, tofile, fromfiledate, tofiledate, n,
    lineterm)]: the two file lines once before the first group, then one hunk
    per group. *)
Definition unified_diff (a b : list string)
    (fromfile tofile fromfiledate tofiledate : string) (n : nat) (lineterm : string)
    : list string :=
  match get_grouped_opcodes a b n with
  | [] => []
  | groups =>
      String.concat "" ["--- "; fromfile; format_date fromfiledate; lineterm]
        :: String.concat "" ["+++ "; tofile; format_date tofiledate; lineterm]
        :: flat_map (group_lines a b lineterm) groups
  end.

(** The block of [k] lines at [i] in [a] is the block at [j] in [b]. *)
Definition block_matches (a b : list string) (i j k : nat) : Prop :=
  ∀ t, t < k → ∃ x, a !! (i + t) = Some x ∧ b !! (j + t) = Some x.

(** A matching block inside the window [a[alo:ahi]], [b[blo:bhi]]. *)
Definition block_in_window (a b : list string) (alo ahi blo bhi i j k : nat) : Prop :=
  alo ≤ i ∧ i + k ≤ ahi ∧ blo ≤ j ∧ j + k ≤ bhi ∧ block_matches a b i j k.

(** What a row [j2len] of [find_longest_match] holds before row [i]: the
    lengths of blocks that end just before row [i]. *)
Definition row_ok (a b : list string) (alo blo bhi i : nat) (j2len : gmap nat nat) : Prop :=
  ∀ j k, j2len !! j = Some k →
    1 ≤ k ∧ alo + k ≤ i ∧ blo + k ≤ j + 1 ∧ j < bhi
    ∧ block_matches a b (i - k) (j + 1 - k) k.

(** Windows and blocks as rectangles [(alo, ahi, blo, bhi)]: one lies before
    another when it ends, in [a] and in [b], where the other starts or
    earlier; two are apart when one is before the other. *)
Definition block_rect (x : nat * nat * nat) : nat * nat * nat * nat :=
  let '(i, j, k) := x in (i, i + k, j, j + k).

Definition before (x y : nat * nat * nat * nat) : Prop :=
  let '(_, xahi, _, xbhi) := x in
  let '(yalo, _, yblo, _) := y in
  xahi ≤ yalo ∧ xbhi ≤ yblo.

Definition apart (x y : nat * nat * nat * nat) : Prop := before x y ∨ before y x.

Definition inside (x w : nat * nat * nat * nat) : Prop :=
  let '(xalo, xahi, xblo, xbhi) := x in
  let '(walo, wahi, wblo, wbhi) := w in
  walo ≤ xalo ∧ xahi ≤ wahi ∧ wblo ≤ xblo ∧ xbhi ≤ wbhi.

Fixpoint all_apart (l : list (nat * nat * nat * nat)) : Prop :=
  match l with
  | [] => True
  | x :: l' => Forall (apart x) l' ∧ all_apart l'
  end.

Fixpoint ascending (l : list (nat * nat * nat * nat)) : Prop :=
  match l with
  | [] => True
  | x :: l' => Forall (before x) l' ∧ ascending l'
  end.

(** The bound on the iterations of [matching_loop] left with a work list. *)
Definition queue_measure (queue : list (nat * nat * nat * nat)) : nat :=
  foldr (λ '(alo, ahi, blo, bhi) n, 2 * (ahi - alo) + 1 + n) 0 queue.

(** Blocks that match, each starting at or after the end of the one before,
    from [(i0, j0)] on. *)
Fixpoint chained (a b : list string) (i0 j0 : nat) (blocks : list (nat * nat * nat))
    : Prop :=
  match blocks with
  | [] => True
  | (i, j, k) :: rest =>
      i0 ≤ i ∧ j0 ≤ j ∧ block_matches a b i j k ∧ chained a b (i + k) (j + k) rest
  end.

(** Opcodes that cover [a] from [i] and [b] from [j] to their ends, one after
    the other, the [equal] ones over equal lines. *)
Fixpoint tiles (a b : list string) (i j : nat) (ops : list opcode) : Prop :=
  match ops with
  | [] => i = length a ∧ j = length b
  | (t, i1, i2, j1, j2) :: rest =>
      i1 = i ∧ j1 = j ∧ i ≤ i2 ∧ j ≤ j2
      ∧ match t with
        | Equal => i2 - i = j2 - j ∧ block_matches a b i j (i2 - i)
        | Delete => j2 = j
        | Insert => i2 = i
        | Replace => True
        end
      ∧ tiles a b i2 j2 rest
  end.

(** A list of indices that grows strictly. *)
Definition increasing (js : list nat) : Prop :=
  ∀ p q x y, p < q → js !! p = Some x → js !! q = Some y → x < y.

(** The line at [m] is a key of [b2j]. *)
Definition is_key (a : list string) (b2j : gmap string (list nat)) (m : nat) : bool :=
  match a !! m with
  | Some elt => match b2j !! elt with Some _ => true | None => false end
  | None => false
  end.

(** The number of lines that are keys of [b2j] and follow each other up to
    the line at [m], included; [run_before] counts up to the line before. *)
Fixpoint key_run (a : list string) (b2j : gmap string (list nat)) (m : nat) : nat :=
  match m with
  | O => if is_key a b2j 0 then 1 else 0
  | S m' => if is_key a b2j m then S (key_run a b2j m') else 0
  end.

Definition run_before (a : list string) (b2j : gmap string (list nat)) (m : nat) : nat :=
  match m with
  | O => 0
  | S m' => key_run a b2j m'
  end.

End Difflib.

(** ** Unified diffs without context

    What a unified diff with no context line says, and what applying it
    does: the notion the output of [unified_diff(..., n=0)] is compared
    with. *)
Module UnifiedDiff.

Local Open Scope nat_scope.

(** A line of the body of a hunk: a line removed from the old file or a line
    added to the new one. *)
Inductive edit :=
  | Remove (line : string)
  | Add (line : string).

(** A hunk: where it starts in the old and in the new file (counting lines
    from 0), how many lines it covers in each, and its body. *)
Record hunk := {
  old_start : nat;
  old_len : nat;
  new_start : nat;
  new_len : nat;
  body : list edit;
}.

Definition is_remove (e : edit) : bool :=
  match e with Remove _ => true | Add _ => false end.

Definition removed (es : list edit) : nat := length (filter is_remove es).
Definition added (es : list edit) : nat := length (filter (λ e, negb (is_remove e)) es).

(** The edits of a diff, hunk after hunk, and the line of an edit. *)
Definition all_edits (hunks : list hunk) : list edit := flat_map body hunks.

Definition edit_line (e : edit) : string :=
  match e with Remove line | Add line => line end.

Definition render_edit (e : edit) : string :=
  match e with
  | Remove line => String.append "-" line
  | Add line => String.append "+" line
  end.

(** The text of a hunk: the ['@@ -start,len +start,len @@'] line in the
    format of [difflib], then the body. *)
Definition render_hunk (h : hunk) : list string :=
  String.concat ""
    ["@@ -"; Difflib.format_range_unified (old_start h) (old_start h + old_len h);
     " +"; Difflib.format_range_unified (new_start h) (new_start h + new_len h);
     " @@"; String "010"%char ""]
    :: map render_edit (body h).

(** The text of a diff between files named [a] and [b]: nothing when there
    is no hunk. *)
Definition render (hunks : list hunk) : list string :=
  match hunks with
  | [] => []
  | _ => String.append "--- a" (String "010"%char "")
           :: String.append "+++ b" (String "010"%char "")
           :: flat_map render_hunk hunks
  end.

(** Applying the body of a hunk at the head of the old lines: the lines
    added and the old lines left, [None] when a removed line is not there. *)
Fixpoint apply_body (es : list edit) (old : list string)
    : option (list string * list string) :=
  match es with
  | [] => Some ([], old)
  | Remove line :: es' =>
      match old with
      | x :: old' => if String.eqb x line then apply_body es' old' else None
      | [] => None
      end
  | Add line :: es' =>
      '(new, rest) ← apply_body es' old;
      Some (line :: new, rest)
  end.

(** Applying hunks in order. [old] holds the old lines from line [pos] on,
    and [npos] lines of the new file are already written. The lines before a
    hunk are copied; the hunk has to start where it says, in both files, and
    to cover the lines it says. *)
Fixpoint patch_from (pos npos : nat) (old : list string) (hunks : list hunk)
    : option (list string) :=
  match hunks with
  | [] => Some old
  | h :: hunks' =>
      let skip := old_start h - pos in
      if (pos <=? old_start h) && (skip <=? length old)
         && (npos + skip =? new_start h)
         && (removed (body h) =? old_len h) && (added (body h) =? new_len h)
      then
        '(new, rest) ← apply_body (body h) (drop skip old);
        tail ← patch_from (old_start h + old_len h) (new_start h + new_len h) rest hunks';
        Some (take skip old ++ new ++ tail)
      else None
  end.

Definition patch (old : list string) (hunks : list hunk) : option (list string) :=
  patch_from 0 0 old hunks.

(** A diff between [old] and [new]: applying it to [old] gives [new]. *)
Definition valid (old new : list string) (hunks : list hunk) : Prop :=
  patch old hunks = Some new.

(** The length of the text of a diff: its number of characters, which is
    what [len] gives for a [str]. *)
Definition size (hunks : list hunk) : nat :=
  String.length (String.concat "" (render hunks)).

(** The number of bytes of a text.  A character of a [str] is a code point;
    a character here stands for the code point of the same number, below 256.
    UTF-8, the encoding of [str.encode()], writes a code point below 128 (an
    ASCII character) in one byte and the others below 256 in two. *)
Definition utf8_bytes (c : ascii) : nat :=
  if nat_of_ascii c <? 128 then 1 else 2.

Fixpoint utf8_length (s : string) : nat :=
  match s with
  | EmptyString => 0
  | String c s' => utf8_bytes c + utf8_length s'
  end.

(** The byte length of the text of a diff. *)
Definition byte_size (hunks : list hunk) : nat :=
  utf8_length (String.concat "" (render hunks)).

(** A text of ASCII characters only. *)
Definition ascii_only (s : string) : bool :=
  forallb (λ c, nat_of_ascii c <? 128) (list_ascii_of_string s).

(** The hunk a group of opcodes of [difflib] stands for: it starts at the
    first opcode and ends at the last one; [replace] and [delete] remove the
    lines of [a], [replace] and [insert] add the lines of [b]. *)
Definition opcode_edits (a b : list string) (c : Difflib.opcode) : list edit :=
  let '(t, i1, i2, j1, j2) := c in
  match t with
  | Difflib.Equal => []
  | Difflib.Replace => map Remove (Difflib.slice a i1 i2) ++ map Add (Difflib.slice b j1 j2)
  | Difflib.Delete => map Remove (Difflib.slice a i1 i2)
  | Difflib.Insert => map Add (Difflib.slice b j1 j2)
  end.

Definition group_hunk (a b : list string) (group : list Difflib.opcode) : hunk :=
  match group, last group with
  | (_, f1, _, f3, _) :: _, Some (_, _, l2, _, l4) =>
      {| old_start := f1; old_len := l2 - f1; new_start := f3; new_len := l4 - f3;
         body := flat_map (opcode_edits a b) group |}
  | _, _ =>
      {| old_start := 0; old_len := 0; new_start := 0; new_len := 0; body := [] |}
  end.

(** The hunks of the diff that [difflib] computes between [a] and [b]. *)
Definition hunks (a b : list string) : list hunk :=
  map (group_hunk a b) (Difflib.get_grouped_opcodes a b 0).

(** Where the hunk of the group being built starts: at its first opcode, or
    at the current position when the group is still empty. *)
Definition group_start (group : list Difflib.opcode) (i j : nat) : nat * nat :=
  match group with
  | [] => (i, j)
  | (_, gi, _, gj, _) :: _ => (gi, gj)
  end.

(** The group being built while the opcodes up to [(i, j)] have been read:
    it ends at [(i, j)], and its edits turn the lines of [a] it covers into
    the lines of [b] it covers. *)
Definition pending (a b : list string) (group : list Difflib.opcode) (i j : nat) : Prop :=
  i ≤ length a ∧ j ≤ length b
  ∧ match group with
    | [] => True
    | (_, gi, _, gj, _) :: _ =>
        gi ≤ i ∧ gj ≤ j
        ∧ (∃ t x y, last group = Some (t, x, i, y, j))
        ∧ apply_body (flat_map (opcode_edits a b) group) (drop gi a)
          = Some (Difflib.slice b gj j, drop i a)
        ∧ removed (flat_map (opcode_edits a b) group) = i - gi
        ∧ added (flat_map (opcode_edits a b) group) = j - gj
    end.

(** A group without context: its [equal] opcodes cover no line. *)
Definition no_context (group : list Difflib.opcode) : Prop :=
  Forall (λ '(t, i1, i2, j1, j2), t = Difflib.Equal → i2 - i1 = 0) group.

End UnifiedDiff.

(** ** Configuration and mails *)

(** The options of the global configuration that this module reads.
    Thresholds are integers; [strategy] is the name of the selection strategy,
    absent ([None]) or empty when none is configured. *)
Record Config := {
  size_threshold : Z;
  content_threshold : Z;
  strategy : option string;
  dry_run : bool;
  show_diff : bool;
  input_format : option string;
  force_unlock : bool;
}.

(** [not self.conf.strategy]: [None] and the empty string are false. *)
Definition strategy_name (conf : Config) : option string :=
  match strategy conf with
  | Some (String c s) => Some (String c s)
  | _ => None
  end.

(** The exceptions that cross this module. [ValueError], [KeyError] and
    [AssertionError] are raised by the code below; the ones raised by the
    collaborators (path resolution, the mailbox backend) carry the name of
    their class. *)
Inductive exception :=
  | ValueError (message : string)
  | KeyError
  | AssertionError
  | Raised (class_name : string).

Definition class_name_of (e : exception) : string :=
  match e with
  | ValueError _ => "ValueError"
  | KeyError => "KeyError"
  | AssertionError => "AssertionError"
  | Raised c => c
  end.

(** A mail as this module sees it: the origin attached by [hash_all]
    ([source_path], [mail_id]) and the properties it reads. [hash_key] is
    [None] when computing it raises [TooFewHeaders]; [body_lines] is [None]
    when decoding the body raises [UnicodeDecodeError]. *)
Module Mail.

Record t := {
  source_path : string;
  mail_id : string;
  hash_key : option string;
  size : Z;
  body_lines : option (list string);
}.

#[global] Instance eq_dec : EqDecision t.
Proof. solve_decision. Defined.

(** The identifier [(source_path, mail_id)] that selections are made of. *)
Definition uid (m : t) : string * string := (source_path m, mail_id m).

End Mail.

Definition newline : string := String "010"%char "".

(** ** [DuplicateSet] *)
Module DuplicateSet.

(** A duplicate set: the hash its mails share and the frozen pool. The pool
    is a [frozenset]; it is listed here in the order the set is iterated. The
    set's [stats] counter starts empty and is returned by
    [select_candidates]. *)
Record t := {
  hash_key : string;
  pool : list Mail.t;
}.

(** What [check_differences] raises. *)
Inductive raised :=
  | UnicodeDecodeError
  | SizeDiffAboveThreshold
  | ContentDiffAboveThreshold.

(** The [logger.debug] record written at each comparison:
    "... differs by ... bytes in size." and
    "... differs by ... bytes in content.". *)
Inductive log_record :=
  | DiffersInSize (mail_a mail_b : Mail.t) (size_difference : Z)
  | DiffersInContent (mail_a mail_b : Mail.t) (content_difference : Z).

(** [itertools.combinations(pool, 2)]. *)
Fixpoint combinations2 {A} (l : list A) : list (A * A) :=
  match l with
  | [] => []
  | x :: rest => map (pair x) rest ++ combinations2 rest
  end.

(** [len(self.pool)]. *)
Definition size (ds : t) : Z := Z.of_nat (length (pool ds)).

(** [max(...)] and [min(...)] of a sequence of integers: [None] stands for
    the [ValueError] raised on an empty sequence. *)
Definition max_of (l : list Z) : option Z :=
  match l with
  | [] => None
  | x :: rest => Some (fold_left Z.max rest x)
  end.

Definition min_of (l : list Z) : option Z :=
  match l with
  | [] => None
  | x :: rest => Some (fold_left Z.min rest x)
  end.

(** [biggest_size] and [smallest_size]:
    [max(map(attrgetter("size"), self.pool))] and the same with [min]. *)
Definition biggest_size (ds : t) : option Z := max_of (map Mail.size (pool ds)).

Definition smallest_size (ds : t) : option Z := min_of (map Mail.size (pool ds)).

(** [diff]: the length of the joined unified diff of the two normalized
    bodies, with no context line; [None] when reading a body raises
    [UnicodeDecodeError]. *)
Definition diff (mail_a mail_b : Mail.t) : option Z :=
  a ← Mail.body_lines mail_a;
  b ← Mail.body_lines mail_b;
  Some (Z.of_nat (String.length (String.concat ""
          (Difflib.unified_diff a b "a" "b" "" "" 0 newline)))).

Section WithConf.

Variable conf : Config.

(** [apply_strategy(name, duplicates)], from the [strategy] module: the
    identifiers the named strategy selects in a duplicate set. *)
Variable apply_strategy : string → t → list (string * string).

(** The body of the loop of [check_differences] for one pair: the log
    written and [Some] of what was raised, [None] when the body ends. *)
Definition check_pair (mail_a mail_b : Mail.t) : list log_record * option raised :=
  let size_difference := Z.abs (Mail.size mail_a - Mail.size mail_b) in
  let size_log :=
    if size_threshold conf >? -1
    then [DiffersInSize mail_a mail_b size_difference] else [] in
  if (size_threshold conf >? -1) && (size_difference >? size_threshold conf)
  then (size_log, Some SizeDiffAboveThreshold)
  else if content_threshold conf >? -1 then
    match diff mail_a mail_b with
    | None => (size_log, Some UnicodeDecodeError)
    | Some content_difference =>
        let log := size_log ++ [DiffersInContent mail_a mail_b content_difference] in
        if content_difference >? content_threshold conf
        then (log, Some ContentDiffAboveThreshold)
        else (log, None)
    end
  else (size_log, None).

(** The loop over the pairs: an exception ends it. *)
Fixpoint check_pairs (pairs : list (Mail.t * Mail.t)) : list log_record * option raised :=
  match pairs with
  | [] => ([], None)
  | (mail_a, mail_b) :: rest =>
      match check_pair mail_a mail_b with
      | (log, Some r) => (log, Some r)
      | (log, None) => let '(log', r) := check_pairs rest in (log ++ log', r)
      end
  end.

(** [check_differences]: returns at once when both thresholds are negative,
    otherwise compares every pair of the pool. *)
Definition check_differences (ds : t) : list log_record * option raised :=
  if (size_threshold conf <? 0) && (content_threshold conf <? 0)
  then ([], None)
  else check_pairs (combinations2 (pool ds)).

(** [select_candidates]: the candidates returned ([None] for a bare
    [return]) and the set's [stats] counter, which starts empty. *)
Definition select_candidates (ds : t) : option (list (string * string)) * gmap string Z :=
  let stats : gmap string Z := ∅ in
  if size ds =? 1 then
    let stats := Counter.incr stats "mail_unique" (size ds) in
    let stats := Counter.incr stats "mail_discarded" (size ds) in
    let stats := Counter.incr stats "set_ignored" 1 in
    (None, stats)
  else
    let stats := Counter.incr stats "mail_duplicates" (size ds) in
    match snd (check_differences ds) with
    | Some UnicodeDecodeError =>
        let stats := Counter.incr stats "mail_discarded" (size ds) in
        let stats := Counter.incr stats "set_rejected_encoding" 1 in
        (None, stats)
    | Some SizeDiffAboveThreshold =>
        let stats := Counter.incr stats "mail_discarded" (size ds) in
        let stats := Counter.incr stats "set_rejected_size" 1 in
        (None, stats)
    | Some ContentDiffAboveThreshold =>
        let stats := Counter.incr stats "mail_discarded" (size ds) in
        let stats := Counter.incr stats "set_rejected_content" 1 in
        (None, stats)
    | None =>
        match strategy_name conf with
        | None =>
            let stats := Counter.incr stats "mail_discarded" (size ds) in
            let stats := Counter.incr stats "set_skipped" 1 in
            (None, stats)
        | Some name =>
            let selected_uids := apply_strategy name ds in
            let candidate_count := Z.of_nat (length selected_uids) in
            if candidate_count =? size ds then
              let stats := Counter.incr stats "mail_discarded" candidate_count in
              let stats := Counter.incr stats "set_skipped" 1 in
              (None, stats)
            else
              let stats := Counter.incr stats "mail_selected" candidate_count in
              let stats := Counter.incr stats "mail_discarded" (size ds - candidate_count) in
              let stats := Counter.incr stats "set_deduplicated" 1 in
              (Some selected_uids, stats)
        end
    end.

End WithConf.

End DuplicateSet.

(** ** Insertion-ordered dicts and sets

    [Deduplicate.sources] and [Deduplicate.mails] are dicts iterated in
    insertion order, so they are association lists here; the sets of mails are
    lists without repetition. *)
Fixpoint dict_get {V} (k : string) (d : list (string * V)) : option V :=
  match d with
  | [] => None
  | (k', v) :: rest => if String.eqb k k' then Some v else dict_get k rest
  end.

(** [d[k] = v]: replaces the value of an existing key in place, appends a new
    key. *)
Fixpoint dict_set {V} (k : string) (v : V) (d : list (string * V)) : list (string * V) :=
  match d with
  | [] => [(k, v)]
  | (k', v') :: rest =>
      if String.eqb k k' then (k', v) :: rest else (k', v') :: dict_set k v rest
  end.

(** [s.add(x)]. *)
Definition set_add {A} `{EqDecision A} (x : A) (s : list A) : list A :=
  if decide (x ∈ s) then s else s ++ [x].

(** [boltons.iterutils.unique]: the elements in order, each kept at its first
    occurrence only. *)
Fixpoint unique_iter {A} `{EqDecision A} (seen src : list A) : list A :=
  match src with
  | [] => []
  | x :: rest =>
      if decide (x ∈ seen) then unique_iter seen rest
      else x :: unique_iter (x :: seen) rest
  end.

Definition unique {A} `{EqDecision A} (src : list A) : list A := unique_iter [] src.

(** ** [Deduplicate] *)
Module Deduplicate.

(** The state of a [Deduplicate] object over mailboxes of type [Box]. *)
Record t {Box : Type} := {
  sources : list (string * Box);
  mails : list (string * list Mail.t);
  selection : list (string * string);
  stats : gmap string Z;
}.
Arguments t : clear implicits.

(** The [logger] records of [remove_selection]: "Deleting ... in-place...",
    "DRY RUN: Skip deletion of ..." and "... deleted.". *)
Inductive log_record :=
  | Deleting (box_path mail_id : string)
  | DryRunSkip (box_path mail_id : string)
  | Deleted (box_path mail_id : string).

Section WithCollaborators.

(** The collaborators: path resolution, the mailbox backend and the
    selection strategies. *)
Context {Box : Type}.

(** [Path(source_path).resolve(strict=True)]: the absolute path with the
    symlinks resolved, or the exception raised (the path does not exist). *)
Variable resolve : string → exception + string.

(** [open_box(source_path, input_format, force_unlock)]. *)
Variable open_box : string → option string → bool → exception + Box.

(** [box.iteritems()]: the mails of a box under their keys; [len(box)] is
    their number. *)
Variable items : Box → list (string * Mail.t).

(** [box.remove(mail_id)]: the box after the removal, or the exception
    raised. *)
Variable remove : Box → string → exception + Box.

(** [box.close()]. *)
Variable close : Box → Box.

Variable apply_strategy : string → DuplicateSet.t → list (string * string).

Variable conf : Config.

(** [Deduplicate(conf)]. *)
Definition init : t Box := {|
  sources := [];
  mails := [];
  selection := [];
  stats := list_to_map
    [("mail_found", 0); ("mail_rejected", 0); ("mail_retained", 0);
     ("mail_unique", 0); ("mail_duplicates", 0); ("mail_discarded", 0);
     ("mail_selected", 0); ("mail_copied", 0); ("mail_moved", 0);
     ("mail_deleted", 0); ("set_total", 0); ("set_ignored", 0);
     ("set_skipped", 0); ("set_rejected_encoding", 0);
     ("set_rejected_size", 0); ("set_rejected_content", 0);
     ("set_deduplicated", 0)];
|}.

Definition with_stats (f : gmap string Z → gmap string Z) (d : t Box) : t Box :=
  {| sources := sources d; mails := mails d; selection := selection d;
     stats := f (stats d) |}.

(** [add_source]: the exception raised, if any, and the state left. *)
Definition add_source (source_path : string) (d : t Box) : option exception * t Box :=
  match resolve source_path with
  | inl e => (Some e, d)
  | inr source_path =>
      match dict_get source_path (sources d) with
      | Some _ => (Some (ValueError (String.append source_path " already added.")), d)
      | None =>
          match open_box source_path (input_format conf) (force_unlock conf) with
          | inl e => (Some e, d)
          | inr box =>
              let d := {| sources := dict_set source_path box (sources d);
                          mails := mails d; selection := selection d;
                          stats := stats d |} in
              let mail_found := Z.of_nat (length (items box)) in
              (None, with_stats (λ s, Counter.incr s "mail_found" mail_found) d)
          end
      end
  end.

(** The body of the loops of [hash_all] for one mail of one box. *)
Definition hash_one (source_path : string) (d : t Box) (item : string * Mail.t) : t Box :=
  let '(mail_id, mail) := item in
  let mail := {| Mail.source_path := source_path; Mail.mail_id := mail_id;
                 Mail.hash_key := Mail.hash_key mail; Mail.size := Mail.size mail;
                 Mail.body_lines := Mail.body_lines mail |} in
  match Mail.hash_key mail with
  | None => with_stats (λ s, Counter.incr s "mail_rejected" 1) d
  | Some mail_hash =>
      let bucket := default [] (dict_get mail_hash (mails d)) in
      {| sources := sources d;
         mails := dict_set mail_hash (set_add mail bucket) (mails d);
         selection := selection d;
         stats := Counter.incr (stats d) "mail_retained" 1 |}
  end.

(** [hash_all]: every mail of every source, in the order of the sources and
    of each box. *)
Definition hash_all (d : t Box) : t Box :=
  fold_left (λ d '(source_path, box), fold_left (hash_one source_path) (items box) d)
            (sources d) d.

(** [DuplicateSet(hash_key, mail_set, self.conf)] for an item
    [(hash_key, mail_set)] of [mails]. *)
Definition duplicate_set (bucket : string * list Mail.t) : DuplicateSet.t :=
  {| DuplicateSet.hash_key := fst bucket; DuplicateSet.pool := snd bucket |}.

(** The body of the loop of [select_all] for one hash bucket. *)
Definition select_one (d : t Box) (bucket : string * list Mail.t) : t Box :=
  let duplicates := duplicate_set bucket in
  let '(candidates, set_stats) :=
    DuplicateSet.select_candidates conf apply_strategy duplicates in
  let selection :=
    match candidates with
    | Some (c :: cs) => selection d ++ c :: cs
    | _ => selection d
    end in
  {| sources := sources d; mails := mails d; selection := selection;
     stats := Counter.iadd (stats d) set_stats |}.

(** [select_all]. *)
Definition select_all (d : t Box) : t Box :=
  let d := with_stats (λ s, Counter.assign s "set_total" (Z.of_nat (length (mails d)))) d in
  let d := fold_left select_one (mails d) d in
  {| sources := map (λ '(path, box), (path, close box)) (sources d);
     mails := mails d; selection := selection d; stats := stats d |}.

(** The loop of [remove_selection]: the exception raised, if any, the state
    left and the log written. *)
Fixpoint remove_loop (todo : list (string * string)) (d : t Box)
    : option exception * t Box * list log_record :=
  match todo with
  | [] => (None, d, [])
  | (box_path, mail_id) :: rest =>
      let d := with_stats (λ s, Counter.incr s "mail_deleted" 1) d in
      if dry_run conf then
        let '(r, d', log) := remove_loop rest d in
        (r, d', Deleting box_path mail_id :: DryRunSkip box_path mail_id :: log)
      else
        match dict_get box_path (sources d) with
        | None => (Some KeyError, d, [Deleting box_path mail_id])
        | Some box =>
            match remove box mail_id with
            | inl e => (Some e, d, [Deleting box_path mail_id])
            | inr box' =>
                let d := {| sources := dict_set box_path box' (sources d);
                            mails := mails d; selection := selection d;
                            stats := stats d |} in
                let '(r, d', log) := remove_loop rest d in
                (r, d', Deleting box_path mail_id :: Deleted box_path mail_id :: log)
            end
        end
  end.

(** [remove_selection]: the assertion, then the loop. *)
Definition remove_selection (d : t Box) : option exception * t Box * list log_record :=
  if decide (unique (selection d) = selection d)
  then remove_loop (selection d) d
  else (Some AssertionError, d, []).

(** [check_stats]: [Some AssertionError] when one of the assertions fails. *)
Definition check_stats (d : t Box) : option exception :=
  let s := Counter.get (stats d) in
  if (s "mail_found" >=? s "mail_rejected")
     && (s "mail_found" >=? s "mail_retained")
     && (s "mail_found" =? s "mail_rejected" + s "mail_retained")
     && (s "mail_retained" >=? s "mail_unique")
     && (s "mail_retained" >=? s "mail_duplicates")
     && (s "mail_retained" =? s "mail_unique" + s "mail_duplicates")
     && (s "mail_retained" =? s "mail_discarded" + s "mail_selected")
     && (s "mail_selected" =? s "mail_copied" + s "mail_moved" + s "mail_deleted")
     && (s "mail_retained" >=? s "mail_deleted")
     && ((s "mail_duplicates" =? 0) || (s "mail_duplicates" >? s "mail_deleted"))
     && (s "set_ignored" =? s "mail_unique")
     && (s "set_total" =? s "set_ignored" + s "set_rejected_encoding"
                          + s "set_rejected_size" + s "set_rejected_content"
                          + s "set_skipped" + s "set_deduplicated")
  then None else Some AssertionError.

(** Registering the sources one after the other; the first exception stops
    the run. *)
Fixpoint add_sources (paths : list string) (d : t Box) : option exception * t Box :=
  match paths with
  | [] => (None, d)
  | path :: rest =>
      match add_source path d with
      | (Some e, d) => (Some e, d)
      | (None, d) => add_sources rest d
      end
  end.

(** A run: register the sources, hash, select, and remove the selection when
    [removal] is set. *)
Definition run (paths : list string) (removal : bool) : option exception * t Box :=
  match add_sources paths init with
  | (Some e, d) => (Some e, d)
  | (None, d) =>
      let d := select_all (hash_all d) in
      if removal then fst (remove_selection d) else (None, d)
  end.

End WithCollaborators.

End Deduplicate.

(** ** Notions used in the statements *)

(** Two mails within the thresholds that are enabled: their sizes differ by
    at most [size_threshold], and their bodies can be read and differ by at
    most [content_threshold]. *)
Definition within_thresholds (conf : Config) (a b : Mail.t) : Prop :=
  (0 ≤ size_threshold conf →
   Z.abs (Mail.size a - Mail.size b) ≤ size_threshold conf)
  ∧ (0 ≤ content_threshold conf →
     ∃ d, DuplicateSet.diff a b = Some d ∧ d ≤ content_threshold conf).

(** What a pair of mails is rejected for: its sizes differ by more than an
    enabled [size_threshold]; or they do not, content is compared, and a body
    cannot be read, or the bodies differ by more than [content_threshold]. *)
Definition rejected_for (conf : Config) (r : DuplicateSet.raised) (a b : Mail.t) : Prop :=
  match r with
  | DuplicateSet.SizeDiffAboveThreshold =>
      0 ≤ size_threshold conf
      ∧ size_threshold conf < Z.abs (Mail.size a - Mail.size b)
  | DuplicateSet.UnicodeDecodeError =>
      (0 ≤ size_threshold conf →
       Z.abs (Mail.size a - Mail.size b) ≤ size_threshold conf)
      ∧ 0 ≤ content_threshold conf
      ∧ DuplicateSet.diff a b = None
  | DuplicateSet.ContentDiffAboveThreshold =>
      (0 ≤ size_threshold conf →
       Z.abs (Mail.size a - Mail.size b) ≤ size_threshold conf)
      ∧ 0 ≤ content_threshold conf
      ∧ ∃ d, DuplicateSet.diff a b = Some d ∧ content_threshold conf < d
  end.

(** A mail of a box with its origin attached, as [hash_all] stores it. *)
Definition with_origin (source_path mail_id : string) (mail : Mail.t) : Mail.t :=
  {| Mail.source_path := source_path; Mail.mail_id := mail_id;
     Mail.hash_key := Mail.hash_key mail; Mail.size := Mail.size mail;
     Mail.body_lines := Mail.body_lines mail |}.

(** The mail [m] is in the bucket of the hash [h]. *)
Definition grouped_under (mails : list (string * list Mail.t)) (h : string) (m : Mail.t)
    : Prop :=
  ∃ bucket, dict_get h mails = Some bucket ∧ m ∈ bucket.

(** The identifiers of the mails grouped, bucket after bucket. *)
Definition grouped_uids (mails : list (string * list Mail.t)) : list (string * string) :=
  flat_map (λ bucket, map Mail.uid (snd bucket)) mails.

(** The keys selected in the box registered under [path], in the order of
    the selection. *)
Definition selected_in (selection : list (string * string)) (path : string) : list string :=
  map snd (filter (λ u, fst u = path) selection).

(** Removing the keys [ids] from a box one after the other; the first
    exception stops. *)
Fixpoint remove_all {Box} (remove : Box → string → exception + Box)
    (box : Box) (ids : list string) : exception + Box :=
  match ids with
  | [] => inr box
  | id :: rest =>
      match remove box id with
      | inl e => inl e
      | inr box' => remove_all remove box' rest
      end
  end.

(** The number of mails of the registered boxes whose hash can be computed,
    and of those for which it raises [TooFewHeaders]. *)
Definition hashable_mails {Box} (items : Box → list (string * Mail.t))
    (sources : list (string * Box)) : Z :=
  foldr (λ source n,
           Z.of_nat (length (filter (λ item, is_Some (Mail.hash_key (snd item)))
                                    (items (snd source)))) + n)
        0 sources.

Definition unhashable_mails {Box} (items : Box → list (string * Mail.t))
    (sources : list (string * Box)) : Z :=
  foldr (λ source n,
           Z.of_nat (length (filter (λ item, Mail.hash_key (snd item) = None)
                                    (items (snd source)))) + n)
        0 sources.

(** The number of mails grouped in hash buckets. *)
Definition grouped_mails (mails : list (string * list Mail.t)) : Z :=
  foldr (λ bucket n, Z.of_nat (length (snd bucket)) + n) 0 mails.

(** Every mail of every bucket satisfies [Q]. *)
Definition all_mails (Q : Mail.t → Prop) (mails : list (string * list Mail.t)) : Prop :=
  Forall (λ bucket, Forall Q (snd bucket)) mails.

(** The states in which sources are being registered: distinct paths, no
    mail grouped, nothing selected, and no counter touched but
    [mail_found]. *)
Definition registering {Box} (d : Deduplicate.t Box) : Prop :=
  NoDup (map fst (Deduplicate.sources d))
  ∧ Deduplicate.mails d = []
  ∧ Deduplicate.selection d = []
  ∧ (∀ k, k ≠ "mail_found" → Counter.get (Deduplicate.stats d) k = 0)
  ∧ 0 ≤ Counter.get (Deduplicate.stats d) "mail_found".

(** The number of mails stored in the registered sources. *)
Definition stored_mails {Box} (items : Box → list (string * Mail.t))
    (sources : list (string * Box)) : Z :=
  foldr (λ source n, Z.of_nat (length (items (snd source))) + n) 0 sources.

(** ** A small mail store

    Two maildirs with three mails, two of which share a hash, a mailbox
    backend kept in memory and three strategies; the examples below run the
    code on them. *)
Module Example.

Definition conf : Config := {|
  size_threshold := 5;
  content_threshold := 100;
  strategy := Some "keep-first";
  dry_run := false;
  show_diff := false;
  input_format := None;
  force_unlock := false;
|}.

Definition dry_conf : Config := {|
  size_threshold := 5;
  content_threshold := 100;
  strategy := Some "keep-first";
  dry_run := true;
  show_diff := false;
  input_format := None;
  force_unlock := false;
|}.

Definition line (s : string) : string := String.append s newline.

Definition hello : Mail.t := {|
  Mail.source_path := "/mail/inbox"; Mail.mail_id := "1";
  Mail.hash_key := Some "h-hello"; Mail.size := 12;
  Mail.body_lines := Some [line "Hello,"; line "world"];
|}.

Definition hello_copy : Mail.t := {|
  Mail.source_path := "/mail/archive"; Mail.mail_id := "7";
  Mail.hash_key := Some "h-hello"; Mail.size := 13;
  Mail.body_lines := Some [line "Hello,"; line "world!"];
|}.

Definition bye : Mail.t := {|
  Mail.source_path := "/mail/archive"; Mail.mail_id := "8";
  Mail.hash_key := Some "h-bye"; Mail.size := 4;
  Mail.body_lines := Some [line "Bye"];
|}.

Definition big_hello : Mail.t := {|
  Mail.source_path := "/mail/archive"; Mail.mail_id := "9";
  Mail.hash_key := Some "h-hello"; Mail.size := 40;
  Mail.body_lines := Some [line "Hello,"; line "world"; line "and everybody else"];
|}.

(** Two bodies of one line: three accented letters (the code points 233,
    224 and 252, outside ASCII), and the letter [e]. *)
Definition accented_line : string :=
  line (String "233"%char (String "224"%char (String "252"%char ""))).

Definition accents : Mail.t := {|
  Mail.source_path := "/mail/inbox"; Mail.mail_id := "2";
  Mail.hash_key := Some "h-accents"; Mail.size := 7;
  Mail.body_lines := Some [accented_line];
|}.

Definition no_accents : Mail.t := {|
  Mail.source_path := "/mail/archive"; Mail.mail_id := "3";
  Mail.hash_key := Some "h-accents"; Mail.size := 2;
  Mail.body_lines := Some [line "e"];
|}.

Definition single : DuplicateSet.t :=
  {| DuplicateSet.hash_key := "h-bye"; DuplicateSet.pool := [bye] |}.

Definition pair : DuplicateSet.t :=
  {| DuplicateSet.hash_key := "h-hello"; DuplicateSet.pool := [hello; hello_copy] |}.

Definition uneven_pair : DuplicateSet.t :=
  {| DuplicateSet.hash_key := "h-hello"; DuplicateSet.pool := [hello; big_hello] |}.

(** Strategies: all the mails but the first, all the mails, none. *)
Definition keep_first (name : string) (ds : DuplicateSet.t) : list (string * string) :=
  map Mail.uid (tail (DuplicateSet.pool ds)).

Definition take_all (name : string) (ds : DuplicateSet.t) : list (string * string) :=
  map Mail.uid (DuplicateSet.pool ds).

Definition take_none (name : string) (ds : DuplicateSet.t) : list (string * string) :=
  [].

(** The backend: a box is a finite map from keys to mails; the file system
    has the two maildirs, and ["/mail/current"] is a symlink to the inbox. *)
Definition resolve (path : string) : exception + string :=
  if String.eqb path "/mail/inbox" then inr "/mail/inbox"
  else if String.eqb path "/mail/current" then inr "/mail/inbox"
  else if String.eqb path "/mail/archive" then inr "/mail/archive"
  else if String.eqb path "/mail/notes.txt" then inr "/mail/notes.txt"
  else inl (Raised "FileNotFoundError").

Definition open_box (path : string) (format : option string) (unlock : bool)
    : exception + gmap string Mail.t :=
  if String.eqb path "/mail/inbox" then inr {[ "1" := hello ]}
  else if String.eqb path "/mail/archive" then inr {[ "7" := hello_copy; "8" := bye ]}
  else inl (Raised "NotADirectoryError").

Definition items (box : gmap string Mail.t) : list (string * Mail.t) :=
  map_to_list box.

Definition remove (box : gmap string Mail.t) (key : string)
    : exception + gmap string Mail.t :=
  match box !! key with
  | Some _ => inr (delete key box)
  | None => inl KeyError
  end.

Definition close (box : gmap string Mail.t) : gmap string Mail.t := box.

(** The state after registering the two maildirs, and after hashing. *)
Definition registered : Deduplicate.t (gmap string Mail.t) :=
  snd (Deduplicate.add_sources resolve open_box items conf
         ["/mail/inbox"; "/mail/archive"] Deduplicate.init).

Definition hashed : Deduplicate.t (gmap string Mail.t) :=
  Deduplicate.hash_all items registered.

Definition selected : Deduplicate.t (gmap string Mail.t) :=
  Deduplicate.select_all close keep_first conf hashed.

(** Configurations that compare sizes only, that accept no difference of
    content, and that have no strategy. *)
Definition size_only_conf : Config := {|
  size_threshold := 5;
  content_threshold := -1;
  strategy := Some "keep-first";
  dry_run := false;
  show_diff := false;
  input_format := None;
  force_unlock := false;
|}.

Definition exact_conf : Config := {|
  size_threshold := 5;
  content_threshold := 0;
  strategy := Some "keep-first";
  dry_run := false;
  show_diff := false;
  input_format := None;
  force_unlock := false;
|}.

Definition no_strategy_conf : Config := {|
  size_threshold := 5;
  content_threshold := 100;
  strategy := None;
  dry_run := false;
  show_diff := false;
  input_format := None;
  force_unlock := false;
|}.

(** A copy of [hello] in the archive, and the set of the two. *)
Definition hello_twin : Mail.t := {|
  Mail.source_path := "/mail/archive"; Mail.mail_id := "4";
  Mail.hash_key := Some "h-hello"; Mail.size := 12;
  Mail.body_lines := Some [line "Hello,"; line "world"];
|}.

Definition twins : DuplicateSet.t :=
  {| DuplicateSet.hash_key := "h-hello"; DuplicateSet.pool := [hello; hello_twin] |}.

(** A state whose selection names a box that was never registered. *)
Definition stray : Deduplicate.t (gmap string Mail.t) := {|
  Deduplicate.sources := [];
  Deduplicate.mails := [];
  Deduplicate.selection := [("/mail/gone", "1")];
  Deduplicate.stats := ∅;
|}.

(** A state in which the second selected mail has left its box since the
    selection was made: removing the key ["9"] raises [KeyError]. *)
Definition vanished : Deduplicate.t (gmap string Mail.t) := {|
  Deduplicate.sources := [("/mail/archive", {[ "7" := hello_copy ]})];
  Deduplicate.mails := [];
  Deduplicate.selection := [("/mail/archive", "7"); ("/mail/archive", "9")];
  Deduplicate.stats := ∅;
|}.

End Example.

(** * Properties *)

(** ** Reading counters *)
Section CounterFacts.

Lemma get_empty k : Counter.get ∅ k = 0.
Proof. unfold Counter.get. by rewrite lookup_empty. Qed.

Lemma get_insert (c : gmap string Z) k n k' :
  Counter.get (<[k := n]> c) k' = if String.eqb k k' then n else Counter.get c k'.
Proof.
  unfold Counter.get. destruct (String.eqb_spec k k') as [->|Hne].
  - by rewrite lookup_insert_eq.
  - by rewrite lookup_insert_ne.
Qed.

Lemma get_assign c k n k' :
  Counter.get (Counter.assign c k n) k'
  = if String.eqb k k' then n else Counter.get c k'.
Proof. apply get_insert. Qed.

Lemma get_incr c k n k' :
  Counter.get (Counter.incr c k n) k'
  = if String.eqb k k' then Counter.get c k' + n else Counter.get c k'.
Proof.
  unfold Counter.incr. fold (Counter.assign c k (Counter.get c k + n)).
  rewrite get_assign.
  by destruct (String.eqb_spec k k') as [->|Hne].
Qed.

Lemma get_keep_positive c k :
  Counter.get (Counter.keep_positive c) k = Z.max 0 (Counter.get c k).
Proof.
  unfold Counter.get, Counter.keep_positive.
  destruct (c !! k) as [v|] eqn:Hk; simpl.
  - destruct (decide (0 < v)) as [Hv|Hv].
    + erewrite (map_lookup_filter_Some_2 _ c k v); [simpl; lia|done|done].
    + rewrite (proj2 (map_lookup_filter_None _ c k)); [simpl; lia|].
      right. intros x Hx. simpl. congruence.
  - rewrite (proj2 (map_lookup_filter_None _ c k)); [done|by left].
Qed.

Lemma get_fold_incr (c other : gmap string Z) k :
  Counter.get (map_fold (λ k n acc, Counter.incr acc k n) c other) k
  = Counter.get c k + Counter.get other k.
Proof.
  induction other as [|i x m Hi Hfold IH] using map_first_key_ind.
  - rewrite map_fold_empty, get_empty. lia.
  - rewrite map_fold_insert_first_key by done.
    rewrite get_incr, IH. unfold Counter.get at 4 6.
    destruct (String.eqb_spec i k) as [->|Hne].
    + rewrite lookup_insert_eq. unfold Counter.get. rewrite Hi. simpl. lia.
    + by rewrite lookup_insert_ne.
Qed.

(** Reading a counter after [+=]: the sum, clipped at 0. *)
Lemma get_iadd c other k :
  Counter.get (Counter.iadd c other) k
  = Z.max 0 (Counter.get c k + Counter.get other k).
Proof. unfold Counter.iadd. by rewrite get_keep_positive, get_fold_incr. Qed.

End CounterFacts.

(** Reading a counter built by a chain of [+=] at a key: rewrite the reads,
    then decide the comparisons of key names. *)
Ltac read_counters :=
  repeat (rewrite get_incr || rewrite get_assign || rewrite get_empty).

Ltac case_keys :=
  repeat match goal with
         | |- context [String.eqb ?a ?b] =>
             destruct (String.eqb_spec a b); simplify_eq
         end.

(** ** Outcomes of a duplicate set *)
Section DuplicateSetFacts.

Variable conf : Config.
Variable apply_strategy : string → DuplicateSet.t → list (string * string).

(** C3 (amended). A duplicate set of size 1 is ignored: no candidate is
    returned and the set's statistics are exactly [mail_unique = size],
    [mail_discarded = size] and [set_ignored = 1]; every other counter, among
    them [mail_duplicates], the rejection counters and [set_deduplicated],
    stays 0. *)
Theorem ignored_set_delta (ds : DuplicateSet.t) :
  DuplicateSet.size ds = 1 →
  fst (DuplicateSet.select_candidates conf apply_strategy ds) = None
  ∧ ∀ k, Counter.get (snd (DuplicateSet.select_candidates conf apply_strategy ds)) k
         = if String.eqb k "mail_unique" then DuplicateSet.size ds
           else if String.eqb k "mail_discarded" then DuplicateSet.size ds
           else if String.eqb k "set_ignored" then 1
           else 0.
Proof.
  intros Hsize. unfold DuplicateSet.select_candidates.
  rewrite Hsize. simpl. split; [done|].
  intros k. read_counters. case_keys; done.
Qed.

(** What [select_candidates] does once the set has passed the checks and a
    strategy is configured. *)
Lemma select_candidates_strategy (ds : DuplicateSet.t) (name : string) :
  DuplicateSet.size ds ≠ 1 →
  snd (DuplicateSet.check_differences conf ds) = None →
  strategy_name conf = Some name →
  DuplicateSet.select_candidates conf apply_strategy ds
  = let stats := Counter.incr ∅ "mail_duplicates" (DuplicateSet.size ds) in
    let selected_uids := apply_strategy name ds in
    let candidate_count := Z.of_nat (length selected_uids) in
    if candidate_count =? DuplicateSet.size ds then
      (None, Counter.incr (Counter.incr stats "mail_discarded" candidate_count)
                          "set_skipped" 1)
    else
      (Some selected_uids,
       Counter.incr (Counter.incr (Counter.incr stats "mail_selected" candidate_count)
                       "mail_discarded" (DuplicateSet.size ds - candidate_count))
                    "set_deduplicated" 1).
Proof.
  intros Hsize Hcheck Hname. unfold DuplicateSet.select_candidates.
  destruct (Z.eqb_spec (DuplicateSet.size ds) 1) as [|_]; [done|].
  by rewrite Hcheck, Hname.
Qed.

(** Candidates are only ever returned by the last branch, where their number
    differs from the size of the set. *)
Lemma select_candidates_some (ds : DuplicateSet.t) c stats :
  DuplicateSet.select_candidates conf apply_strategy ds = (Some c, stats) →
  Z.of_nat (length c) ≠ DuplicateSet.size ds.
Proof.
  unfold DuplicateSet.select_candidates.
  destruct (DuplicateSet.size ds =? 1); [done|].
  destruct (snd (DuplicateSet.check_differences conf ds)) as [[]|]; try done.
  destruct (strategy_name conf) as [name|]; [|done].
  destruct (Z.eqb_spec (Z.of_nat (length (apply_strategy name ds)))
              (DuplicateSet.size ds)); [done|].
  intros [= <- _]. done.
Qed.

(** A duplicate-free list of identifiers of the pool that is shorter than the
    pool misses one of its mails. *)
Lemma shorter_selection_keeps_one (pool : list Mail.t) (c : list (string * string)) :
  NoDup c →
  c ⊆ map Mail.uid pool →
  NoDup (map Mail.uid pool) →
  length c ≠ length pool →
  ∃ m, m ∈ pool ∧ Mail.uid m ∉ c.
Proof.
  intros Hc Hsub Hpool Hlen.
  destruct (decide (Forall (λ m, Mail.uid m ∈ c) pool)) as [Hall|Hnot].
  - exfalso. apply Hlen.
    assert (map Mail.uid pool ⊆+ c) as H1.
    { apply NoDup_submseteq; [done|]. intros u Hu.
      apply list_elem_of_fmap in Hu as (m & -> & Hm).
      by apply (proj1 (Forall_forall _ _) Hall). }
    assert (c ⊆+ map Mail.uid pool) as H2 by by apply NoDup_submseteq.
    apply submseteq_length in H1, H2. rewrite length_map in H1, H2. lia.
  - apply not_Forall_Exists in Hnot; [|intros m; apply _].
    apply Exists_exists in Hnot as (m & Hm & Hn). eauto.
Qed.

(** C2. A duplicate set that reaches the difference checks (its size is not
    1) and passes them, and for which the configured strategy returns as many
    candidates as the set has mails, is skipped: [select_candidates] returns
    no candidates, [set_skipped] is 1, [mail_selected] and [set_deduplicated]
    stay 0, all its mails are counted as discarded, and the global selection
    is left as it was.  So whenever candidates are returned they are not as
    many as the mails of the set, and a strategy that returns distinct
    identifiers of the set's mails leaves at least one mail of the set out of
    the candidates. *)
Theorem full_selection_is_skipped (ds : DuplicateSet.t) :
  (∀ name,
     DuplicateSet.size ds ≠ 1 →
     snd (DuplicateSet.check_differences conf ds) = None →
     strategy_name conf = Some name →
     Z.of_nat (length (apply_strategy name ds)) = DuplicateSet.size ds →
     let '(candidates, stats) := DuplicateSet.select_candidates conf apply_strategy ds in
     candidates = None
     ∧ Counter.get stats "set_skipped" = 1
     ∧ Counter.get stats "mail_selected" = 0
     ∧ Counter.get stats "set_deduplicated" = 0
     ∧ Counter.get stats "mail_discarded" = DuplicateSet.size ds
     ∧ ∀ Box (d : Deduplicate.t Box),
         Deduplicate.selection
           (Deduplicate.select_one apply_strategy conf d
              (DuplicateSet.hash_key ds, DuplicateSet.pool ds))
         = Deduplicate.selection d)
  ∧ (∀ c stats,
       DuplicateSet.select_candidates conf apply_strategy ds = (Some c, stats) →
       Z.of_nat (length c) ≠ DuplicateSet.size ds
       ∧ (NoDup c → c ⊆ map Mail.uid (DuplicateSet.pool ds) →
          NoDup (map Mail.uid (DuplicateSet.pool ds)) →
          ∃ m, m ∈ DuplicateSet.pool ds ∧ Mail.uid m ∉ c)).
Proof.
  split.
  - intros name Hsize Hcheck Hname Hcount.
    pose proof (select_candidates_strategy ds name Hsize Hcheck Hname) as Hsel.
    cbv zeta in Hsel. rewrite Hcount, Z.eqb_refl in Hsel.
    unfold Deduplicate.select_one, Deduplicate.duplicate_set. destruct ds as [h p].
    cbn [DuplicateSet.hash_key DuplicateSet.pool fst snd]. rewrite Hsel.
    repeat split; try (read_counters; case_keys; done).
  - intros c stats Hsel.
    pose proof (select_candidates_some ds c stats Hsel) as Hne.
    split; [done|]. intros Hc Hsub Hpool.
    apply shorter_selection_keeps_one; [done|done|done|].
    unfold DuplicateSet.size in Hne. lia.
Qed.

(** C10. A duplicate set of at least two mails that passes the difference
    checks, with a strategy configured that returns no candidate, is counted
    as deduplicated: [select_candidates] returns the empty collection with
    [set_deduplicated = 1], [mail_discarded = size] and [mail_selected = 0],
    and [select_all] leaves the global selection as it was for that set. *)
Theorem empty_selection_is_deduplicated (ds : DuplicateSet.t) (name : string) :
  2 ≤ DuplicateSet.size ds →
  snd (DuplicateSet.check_differences conf ds) = None →
  strategy_name conf = Some name →
  apply_strategy name ds = [] →
  let '(candidates, stats) := DuplicateSet.select_candidates conf apply_strategy ds in
  candidates = Some []
  ∧ Counter.get stats "set_deduplicated" = 1
  ∧ Counter.get stats "mail_discarded" = DuplicateSet.size ds
  ∧ Counter.get stats "mail_selected" = 0
  ∧ Counter.get stats "set_skipped" = 0
  ∧ ∀ Box (d : Deduplicate.t Box),
      Deduplicate.selection
        (Deduplicate.select_one apply_strategy conf d
           (DuplicateSet.hash_key ds, DuplicateSet.pool ds))
      = Deduplicate.selection d.
Proof.
  intros Hsize Hcheck Hname Hnone.
  assert (DuplicateSet.size ds ≠ 1) as Hne by lia.
  pose proof (select_candidates_strategy ds name Hne Hcheck Hname) as Hsel.
  cbv zeta in Hsel. rewrite Hnone in Hsel.
  change (Z.of_nat (length [])) with 0 in Hsel.
  destruct (Z.eqb_spec 0 (DuplicateSet.size ds)) as [|_]; [lia|].
  unfold Deduplicate.select_one, Deduplicate.duplicate_set. destruct ds as [h p].
  cbn [DuplicateSet.hash_key DuplicateSet.pool fst snd]. rewrite Hsel.
  repeat split; try (read_counters; case_keys; lia).
Qed.

(** The log of one pair: at most the size record followed by the content
    record, both about that pair, and a record above its threshold is the
    last one and decides what is raised. *)
Lemma check_pair_log (a b : Mail.t) :
  let '(log, r) := DuplicateSet.check_pair conf a b in
  let size_difference := Z.abs (Mail.size a - Mail.size b) in
  (∀ i a' b' d, log !! i = Some (DuplicateSet.DiffersInSize a' b' d) →
     i = 0%nat ∧ a' = a ∧ b' = b ∧ d = size_difference ∧ 0 ≤ size_threshold conf
     ∧ (size_threshold conf < d →
        length log = 1%nat ∧ r = Some DuplicateSet.SizeDiffAboveThreshold))
  ∧ (∀ i a' b' d, log !! i = Some (DuplicateSet.DiffersInContent a' b' d) →
       a' = a ∧ b' = b ∧ DuplicateSet.diff a b = Some d
       ∧ 0 ≤ content_threshold conf ∧ S i = length log
       ∧ (0 ≤ size_threshold conf →
          i = 1%nat
          ∧ log !! 0%nat = Some (DuplicateSet.DiffersInSize a b size_difference))
       ∧ (content_threshold conf < d →
          r = Some DuplicateSet.ContentDiffAboveThreshold))
  ∧ (r = Some DuplicateSet.SizeDiffAboveThreshold →
     last log = Some (DuplicateSet.DiffersInSize a b size_difference)
     ∧ size_threshold conf < size_difference)
  ∧ (r = Some DuplicateSet.ContentDiffAboveThreshold →
     ∃ d, last log = Some (DuplicateSet.DiffersInContent a b d)
          ∧ content_threshold conf < d).
Proof.
  unfold DuplicateSet.check_pair.
  destruct (Z.gtb_spec (size_threshold conf) (-1)) as [Hs|Hs];
    destruct (Z.gtb_spec (Z.abs (Mail.size a - Mail.size b)) (size_threshold conf))
      as [Hsd|Hsd];
    destruct (Z.gtb_spec (content_threshold conf) (-1)) as [Hc|Hc];
    simpl;
    try (destruct (DuplicateSet.diff a b) as [d0|] eqn:Hdiff;
         [destruct (Z.gtb_spec d0 (content_threshold conf)) as [Hcd|Hcd]|]);
    simpl;
    (split; [|split; [|split]];
     [ intros [|[|i]] a' b' d Hi; simplify_eq/=; repeat split; (done || lia)
     | intros [|[|i]] a' b' d Hi; simplify_eq/=; repeat split; (done || lia)
     | intros Hr; simplify_eq/=; repeat split; (done || lia)
     | intros Hr; simplify_eq/=; eauto ]).
Qed.

(** The log of the loop over the pairs. *)
Lemma check_pairs_log (pairs : list (Mail.t * Mail.t)) :
  let '(log, r) := DuplicateSet.check_pairs conf pairs in
  (∀ i a b d, log !! i = Some (DuplicateSet.DiffersInSize a b d) →
     (a, b) ∈ pairs ∧ d = Z.abs (Mail.size a - Mail.size b)
     ∧ 0 ≤ size_threshold conf
     ∧ (size_threshold conf < d →
        S i = length log ∧ r = Some DuplicateSet.SizeDiffAboveThreshold))
  ∧ (∀ i a b d, log !! i = Some (DuplicateSet.DiffersInContent a b d) →
       (a, b) ∈ pairs ∧ DuplicateSet.diff a b = Some d
       ∧ 0 ≤ content_threshold conf
       ∧ (0 ≤ size_threshold conf →
          ∃ i', i = S i'
                ∧ log !! i' = Some (DuplicateSet.DiffersInSize a b
                                      (Z.abs (Mail.size a - Mail.size b))))
       ∧ (content_threshold conf < d →
          S i = length log ∧ r = Some DuplicateSet.ContentDiffAboveThreshold))
  ∧ (r = Some DuplicateSet.SizeDiffAboveThreshold →
     ∃ a b d, last log = Some (DuplicateSet.DiffersInSize a b d)
              ∧ size_threshold conf < d)
  ∧ (r = Some DuplicateSet.ContentDiffAboveThreshold →
     ∃ a b d, last log = Some (DuplicateSet.DiffersInContent a b d)
              ∧ content_threshold conf < d).
Proof.
  induction pairs as [|[a b] rest IH]; simpl.
  { split_and!; try done; intros i ? ? ? Hi; by rewrite lookup_nil in Hi. }
  pose proof (check_pair_log a b) as Hpair.
  destruct (DuplicateSet.check_pair conf a b) as [hl [r0|]].
  - destruct Hpair as (HS & HC & HrS & HrC).
    split_and!.
    + intros i a' b' d Hi.
      destruct (HS _ _ _ _ Hi) as (-> & -> & -> & -> & ? & Hv).
      split_and!; [by left|done|done|].
      intros Hd. destruct (Hv Hd) as [-> ->]. done.
    + intros i a' b' d Hi.
      destruct (HC _ _ _ _ Hi) as (-> & -> & ? & ? & ? & Hord & Hv).
      split_and!; [by left|done|done| |].
      * intros Hs. destruct (Hord Hs) as [-> ?]. eauto.
      * intros Hd. by rewrite (Hv Hd).
    + intros Hr. destruct (HrS Hr) as [? ?]. eauto.
    + intros Hr. destruct (HrC Hr) as (d & ? & ?). eauto.
  - destruct (DuplicateSet.check_pairs conf rest) as [log' r'].
    destruct Hpair as (HS & HC & _ & _).
    destruct IH as (IHS & IHC & IHrS & IHrC).
    split_and!.
    + intros i a' b' d [Hi|[Hle Hi]]%lookup_app_Some.
      * destruct (HS _ _ _ _ Hi) as (-> & -> & -> & -> & ? & Hv).
        split_and!; [by left|done|done|].
        intros Hd. by destruct (Hv Hd) as [_ ?].
      * destruct (IHS _ _ _ _ Hi) as (? & ? & ? & Hv).
        split_and!; [by right|done|done|].
        intros Hd. destruct (Hv Hd) as [Hlen ->].
        rewrite length_app. split; [lia|done].
    + intros i a' b' d [Hi|[Hle Hi]]%lookup_app_Some.
      * destruct (HC _ _ _ _ Hi) as (-> & -> & ? & ? & ? & Hord & Hv).
        split_and!; [by left|done|done| |].
        -- intros Hs. destruct (Hord Hs) as [-> Hfirst]. exists 0%nat.
           split; [done|]. by rewrite lookup_app_l by (by eapply lookup_lt_Some).
        -- intros Hd. by specialize (Hv Hd).
      * destruct (IHC _ _ _ _ Hi) as (? & ? & ? & Hord & Hv).
        split_and!; [by right|done|done| |].
        -- intros Hs. destruct (Hord Hs) as (i' & Hi' & Hl).
           exists (length hl + i')%nat. split; [lia|].
           rewrite lookup_app_r by lia. rewrite <- Hl. f_equal. lia.
        -- intros Hd. destruct (Hv Hd) as [Hlen ->].
           rewrite length_app. split; [lia|done].
    + intros Hr. destruct (IHrS Hr) as (a' & b' & d & Hl & ?).
      exists a', b', d. split; [|done]. apply last_app_Some. by left.
    + intros Hr. destruct (IHrC Hr) as (a' & b' & d & Hl & ?).
      exists a', b', d. split; [|done]. apply last_app_Some. by left.
Qed.

(** C8. In the log of [check_differences], a size record is written only
    under a size threshold of at least 0 and a content record only under a
    content threshold of at least 0; with both thresholds negative nothing
    is compared and nothing is raised.  Every record compares a pair of the
    pool; when both checks are on, the content record of a pair comes right
    after the size record of the same pair.  A record above its threshold is
    the last one written and decides what is raised, and a size (content)
    rejection is raised only with such a size (content) record last. *)
Theorem check_differences_order (ds : DuplicateSet.t) :
  let '(log, r) := DuplicateSet.check_differences conf ds in
  let pairs := DuplicateSet.combinations2 (DuplicateSet.pool ds) in
  (size_threshold conf < 0 →
     ∀ i a b d, log !! i ≠ Some (DuplicateSet.DiffersInSize a b d))
  ∧ (content_threshold conf < 0 →
     ∀ i a b d, log !! i ≠ Some (DuplicateSet.DiffersInContent a b d))
  ∧ (size_threshold conf < 0 → content_threshold conf < 0 →
     log = [] ∧ r = None)
  ∧ (∀ i a b d, log !! i = Some (DuplicateSet.DiffersInSize a b d) →
       (a, b) ∈ pairs ∧ d = Z.abs (Mail.size a - Mail.size b)
       ∧ (size_threshold conf < d →
          S i = length log ∧ r = Some DuplicateSet.SizeDiffAboveThreshold))
  ∧ (∀ i a b d, log !! i = Some (DuplicateSet.DiffersInContent a b d) →
       (a, b) ∈ pairs ∧ DuplicateSet.diff a b = Some d
       ∧ (0 ≤ size_threshold conf →
          ∃ i', i = S i'
                ∧ log !! i' = Some (DuplicateSet.DiffersInSize a b
                                      (Z.abs (Mail.size a - Mail.size b))))
       ∧ (content_threshold conf < d →
          S i = length log ∧ r = Some DuplicateSet.ContentDiffAboveThreshold))
  ∧ (r = Some DuplicateSet.SizeDiffAboveThreshold →
     ∃ a b d, last log = Some (DuplicateSet.DiffersInSize a b d)
              ∧ size_threshold conf < d)
  ∧ (r = Some DuplicateSet.ContentDiffAboveThreshold →
     ∃ a b d, last log = Some (DuplicateSet.DiffersInContent a b d)
              ∧ content_threshold conf < d).
Proof.
  unfold DuplicateSet.check_differences.
  destruct (Z.ltb_spec (size_threshold conf) 0) as [Hs|Hs];
    destruct (Z.ltb_spec (content_threshold conf) 0) as [Hc|Hc]; simpl.
  { split_and!; try done; intros; by rewrite lookup_nil. }
  all: pose proof (check_pairs_log (DuplicateSet.combinations2 (DuplicateSet.pool ds)))
         as Hlog;
       destruct (DuplicateSet.check_pairs conf _) as [log r];
       destruct Hlog as (HS & HC & HrS & HrC);
       split_and!;
       [ intros ? i a b d Hi; destruct (HS _ _ _ _ Hi) as (_ & _ & ? & _); lia
       | intros ? i a b d Hi; destruct (HC _ _ _ _ Hi) as (_ & _ & ? & _); lia
       | intros; lia
       | intros i a b d Hi; destruct (HS _ _ _ _ Hi) as (? & ? & _ & ?); done
       | intros i a b d Hi; destruct (HC _ _ _ _ Hi) as (? & ? & _ & ? & ?); done
       | done
       | done ].
Qed.

End DuplicateSetFacts.

(** ** Dicts *)
Section DictFacts.

Context {V : Type}.
Implicit Types (d : list (string * V)) (k : string) (v : V).

Lemma dict_get_set_eq d k v : dict_get k (dict_set k v d) = Some v.
Proof.
  induction d as [|[k' v'] d IH]; simpl.
  - by rewrite String.eqb_refl.
  - destruct (String.eqb_spec k k') as [->|Hne]; simpl.
    + by rewrite String.eqb_refl.
    + by destruct (String.eqb_spec k k').
Qed.

Lemma dict_get_set_ne d k k' v :
  k ≠ k' → dict_get k' (dict_set k v d) = dict_get k' d.
Proof.
  intros Hne. induction d as [|[k0 v0] d IH]; simpl.
  - by destruct (String.eqb_spec k' k) as [->|].
  - destruct (String.eqb_spec k k0) as [->|]; simpl.
    + by destruct (String.eqb_spec k' k0) as [->|].
    + by rewrite IH.
Qed.

Lemma dict_get_None d k : dict_get k d = None ↔ k ∉ map fst d.
Proof.
  induction d as [|[k' v'] d IH]; simpl.
  - split; [intros _; apply not_elem_of_nil|done].
  - rewrite not_elem_of_cons.
    destruct (String.eqb_spec k k') as [->|Hne].
    + split; [done|]. by intros [? _].
    + rewrite IH. split; [done|]. by intros [_ ?].
Qed.

Lemma dict_get_Some_elem d k v : dict_get k d = Some v → (k, v) ∈ d.
Proof.
  induction d as [|[k' v'] d IH]; simpl; [done|].
  destruct (String.eqb_spec k k') as [->|Hne].
  - intros [= ->]. left.
  - intros ?. right. auto.
Qed.

(** Setting a key that is absent appends it. *)
Lemma dict_set_fresh d k v : dict_get k d = None → dict_set k v d = d ++ [(k, v)].
Proof.
  induction d as [|[k' v'] d IH]; simpl; [done|].
  destruct (String.eqb_spec k k'); [done|]. intros ?. by rewrite IH.
Qed.

(** Setting a key that is present keeps the keys and their order. *)
Lemma dict_set_keys d k v :
  is_Some (dict_get k d) → map fst (dict_set k v d) = map fst d.
Proof.
  induction d as [|[k' v'] d IH]; simpl; [by intros [? ?]|].
  destruct (String.eqb_spec k k'); [done|]. intros ?. simpl. by rewrite IH.
Qed.

End DictFacts.

(** ** Registering sources *)
Section AddSourceFacts.

Context {Box : Type}.
Variable resolve : string → exception + string.
Variable open_box : string → option string → bool → exception + Box.
Variable items : Box → list (string * Mail.t).
Variable conf : Config.

(** C7 (amended). [add_source] registers under the resolved path. When the
    resolution raises, or the mailbox cannot be opened, that exception is
    raised and the state is unchanged.  When the resolved path is already
    registered, a [ValueError] is raised and the state is unchanged.
    Otherwise the opened box is registered under the resolved path, after the
    sources registered before, which keep their boxes; [mail_found] grows by
    the number of mails of the box and nothing else changes. *)
Theorem add_source_outcomes (source_path : string) (d : Deduplicate.t Box) :
  (∀ e, resolve source_path = inl e →
     Deduplicate.add_source resolve open_box items conf source_path d = (Some e, d))
  ∧ (∀ path, resolve source_path = inr path →
       is_Some (dict_get path (Deduplicate.sources d)) →
       ∃ e, Deduplicate.add_source resolve open_box items conf source_path d
            = (Some e, d)
            ∧ class_name_of e = "ValueError")
  ∧ (∀ path e, resolve source_path = inr path →
       dict_get path (Deduplicate.sources d) = None →
       open_box path (input_format conf) (force_unlock conf) = inl e →
       Deduplicate.add_source resolve open_box items conf source_path d = (Some e, d))
  ∧ (∀ path box, resolve source_path = inr path →
       dict_get path (Deduplicate.sources d) = None →
       open_box path (input_format conf) (force_unlock conf) = inr box →
       ∃ d', Deduplicate.add_source resolve open_box items conf source_path d
             = (None, d')
             ∧ Deduplicate.sources d' = Deduplicate.sources d ++ [(path, box)]
             ∧ dict_get path (Deduplicate.sources d') = Some box
             ∧ (∀ other, other ≠ path →
                  dict_get other (Deduplicate.sources d')
                  = dict_get other (Deduplicate.sources d))
             ∧ Deduplicate.mails d' = Deduplicate.mails d
             ∧ Deduplicate.selection d' = Deduplicate.selection d
             ∧ Counter.get (Deduplicate.stats d') "mail_found"
               = Counter.get (Deduplicate.stats d) "mail_found"
                 + Z.of_nat (length (items box))
             ∧ ∀ k, k ≠ "mail_found" →
                    Counter.get (Deduplicate.stats d') k
                    = Counter.get (Deduplicate.stats d) k).
Proof.
  unfold Deduplicate.add_source. split_and!.
  - by intros e ->.
  - intros path -> [box Hbox]. rewrite Hbox. eauto.
  - intros path e -> Hfresh Hopen. by rewrite Hfresh, Hopen.
  - intros path box -> Hfresh Hopen. rewrite Hfresh, Hopen.
    eexists. split; [done|]. simpl. split_and!; try done.
    + by apply dict_set_fresh.
    + apply dict_get_set_eq.
    + intros other Hne. by apply dict_get_set_ne.
    + read_counters. by rewrite String.eqb_refl.
    + intros k Hk. read_counters. case_keys; done.
Qed.

End AddSourceFacts.

(** ** Removing the selection *)
Section RemoveFacts.

Context {Box : Type}.
Variable remove : Box → string → exception + Box.
Variable conf : Config.

(** The loop of [remove_selection] over any list of pairs. *)
Lemma remove_loop_accounting (todo : list (string * string)) (d : Deduplicate.t Box) :
  let '(r, d', log) := Deduplicate.remove_loop remove conf todo d in
  let deleted := Counter.get (Deduplicate.stats d') "mail_deleted"
                 - Counter.get (Deduplicate.stats d) "mail_deleted" in
  (dry_run conf = true →
     r = None
     ∧ deleted = Z.of_nat (length todo)
     ∧ Deduplicate.sources d' = Deduplicate.sources d
     ∧ log = flat_map (λ '(p, i), [Deduplicate.Deleting p i; Deduplicate.DryRunSkip p i])
                      todo)
  ∧ (dry_run conf = false →
     (r = None
      ∧ deleted = Z.of_nat (length todo)
      ∧ log = flat_map (λ '(p, i), [Deduplicate.Deleting p i; Deduplicate.Deleted p i])
                       todo)
     ∨ (∃ e done p i rest,
          r = Some e
          ∧ todo = done ++ (p, i) :: rest
          ∧ log = flat_map (λ '(p, i), [Deduplicate.Deleting p i; Deduplicate.Deleted p i])
                           done
                  ++ [Deduplicate.Deleting p i]
          ∧ deleted = Z.of_nat (length done) + 1))
  ∧ Deduplicate.mails d' = Deduplicate.mails d
  ∧ Deduplicate.selection d' = Deduplicate.selection d
  ∧ ∀ k, k ≠ "mail_deleted" →
         Counter.get (Deduplicate.stats d') k = Counter.get (Deduplicate.stats d) k.
Proof.
  revert d. induction todo as [|[p i] rest IH]; intros d; simpl.
  { rewrite Z.sub_diag. split_and!; try done. intros _. by left. }
  assert (Counter.get (Counter.incr (Deduplicate.stats d) "mail_deleted" 1) "mail_deleted"
          = Counter.get (Deduplicate.stats d) "mail_deleted" + 1) as Hd1.
  { read_counters. by rewrite String.eqb_refl. }
  assert (∀ k, k ≠ "mail_deleted" →
            Counter.get (Counter.incr (Deduplicate.stats d) "mail_deleted" 1) k
            = Counter.get (Deduplicate.stats d) k) as Hother.
  { intros k Hk. read_counters. case_keys; done. }
  destruct (dry_run conf) eqn:Hdry.
  - match goal with
    | |- context [Deduplicate.remove_loop remove conf rest ?d1] =>
        specialize (IH d1); destruct (Deduplicate.remove_loop remove conf rest d1)
          as [[r d'] log]
    end.
    simpl in IH. destruct IH as (Hdryrun & _ & Hm & Hs & Hk).
    destruct (Hdryrun eq_refl) as (-> & Hdel & Hsrc & ->).
    split_and!; try done.
    + intros _. split_and!; try done. lia.
    + intros k Hne. rewrite Hk by done. by apply Hother.
  - destruct (dict_get p (Deduplicate.sources d)) as [box|] eqn:Hbox.
    2:{ cbv zeta. split_and!; try done. intros _. right.
        exists KeyError, [], p, i, rest. split_and!; try done.
        simpl. rewrite Hd1. lia. }
    destruct (remove box i) as [e|box'] eqn:Hremove.
    { cbv zeta. split_and!; try done. intros _. right.
      exists e, [], p, i, rest. split_and!; try done.
      simpl. rewrite Hd1. lia. }
    match goal with
    | |- context [Deduplicate.remove_loop remove conf rest ?d2] =>
        specialize (IH d2); destruct (Deduplicate.remove_loop remove conf rest d2)
          as [[r d'] log]
    end.
    simpl in IH. destruct IH as (_ & Hrun & Hm & Hs & Hk).
    split_and!; try done.
    + intros _.
      destruct (Hrun eq_refl)
        as [(-> & Hdel & ->)|(e & done & p' & i' & rest' & -> & -> & -> & Hdel)].
      * left. split_and!; try done. lia.
      * right. exists e, ((p, i) :: done), p', i', rest'.
        split_and!; try done. simpl length. lia.
    + intros k Hne. rewrite Hk by done. by apply Hother.
Qed.

(** Outside dry-run mode, when the loop raises: the pairs before the failing
    one have been removed from their boxes, and nothing else has. *)
Lemma remove_loop_partial (todo : list (string * string)) (d : Deduplicate.t Box) :
  dry_run conf = false →
  let '(r, d', log) := Deduplicate.remove_loop remove conf todo d in
  ∀ e, r = Some e →
    ∃ done p i rest,
      todo = done ++ (p, i) :: rest
      ∧ log = flat_map (λ '(p, i), [Deduplicate.Deleting p i; Deduplicate.Deleted p i])
                       done
              ++ [Deduplicate.Deleting p i]
      ∧ ∀ path box, dict_get path (Deduplicate.sources d) = Some box →
          ∃ box', dict_get path (Deduplicate.sources d') = Some box'
                  ∧ remove_all remove box (selected_in done path) = inr box'.
Proof.
  intros Hdry. revert d.
  induction todo as [|[bp id] rest0 IH]; intros d; simpl; [done|].
  rewrite Hdry.
  destruct (dict_get bp (Deduplicate.sources d)) as [box0|] eqn:Hbox0.
  2:{ intros e _. exists [], bp, id, rest0. split_and!; try done.
      intros path box Hp. by exists box. }
  destruct (remove box0 id) as [e0|box1] eqn:Hrm.
  { intros e _. exists [], bp, id, rest0. split_and!; try done.
    intros path box Hp. by exists box. }
  match goal with
  | |- context [Deduplicate.remove_loop remove conf rest0 ?d2] =>
      specialize (IH d2); destruct (Deduplicate.remove_loop remove conf rest0 d2)
        as [[r d'] log]
  end.
  simpl in IH. intros e He.
  destruct (IH e He) as (done & p & i & rest & -> & -> & Hboxes).
  exists ((bp, id) :: done), p, i, rest. split_and!; try done.
  intros path box Hp. unfold selected_in. rewrite filter_cons. simpl.
  destruct (decide (bp = path)) as [->|Hne].
  - simplify_eq. destruct (Hboxes path box1) as (box' & Hget & Hall).
    { apply dict_get_set_eq. }
    exists box'. split; [done|]. simpl. by rewrite Hrm.
  - destruct (Hboxes path box) as (box' & Hget & Hall).
    { by rewrite dict_get_set_ne. }
    by exists box'.
Qed.

(** C1. What [remove_selection] does to [mail_deleted] and to the boxes,
    from a selection without duplicates.  In dry-run mode it visits every
    selected pair, performs no removal and leaves the sources as they are,
    and still adds 1 to [mail_deleted] for each pair: the counter grows by
    the length of the selection.  Outside dry-run mode, either every removal
    succeeds, and [mail_deleted] grows by the length of the selection, one
    for each removal performed; or the first failing removal raises, the
    pairs after it are not visited, and the boxes have lost the keys of the
    pairs before it and no other.  No other counter changes. *)
Theorem remove_selection_accounting (d : Deduplicate.t Box) :
  unique (Deduplicate.selection d) = Deduplicate.selection d →
  let '(r, d', log) := Deduplicate.remove_selection remove conf d in
  let deleted := Counter.get (Deduplicate.stats d') "mail_deleted"
                 - Counter.get (Deduplicate.stats d) "mail_deleted" in
  (dry_run conf = true →
     r = None
     ∧ deleted = Z.of_nat (length (Deduplicate.selection d))
     ∧ Deduplicate.sources d' = Deduplicate.sources d
     ∧ log = flat_map (λ '(p, i), [Deduplicate.Deleting p i; Deduplicate.DryRunSkip p i])
                      (Deduplicate.selection d))
  ∧ (dry_run conf = false →
     (r = None
      ∧ deleted = Z.of_nat (length (Deduplicate.selection d))
      ∧ log = flat_map (λ '(p, i), [Deduplicate.Deleting p i; Deduplicate.Deleted p i])
                       (Deduplicate.selection d))
     ∨ (∃ e done p i rest,
          r = Some e
          ∧ Deduplicate.selection d = done ++ (p, i) :: rest
          ∧ log = flat_map (λ '(p, i), [Deduplicate.Deleting p i; Deduplicate.Deleted p i])
                           done
                  ++ [Deduplicate.Deleting p i]
          ∧ ∀ path box, dict_get path (Deduplicate.sources d) = Some box →
              ∃ box', dict_get path (Deduplicate.sources d') = Some box'
                      ∧ remove_all remove box (selected_in done path) = inr box'))
  ∧ ∀ k, k ≠ "mail_deleted" →
         Counter.get (Deduplicate.stats d') k = Counter.get (Deduplicate.stats d) k.
Proof.
  intros Hunique. unfold Deduplicate.remove_selection.
  destruct (decide _) as [_|]; [|done].
  pose proof (remove_loop_accounting (Deduplicate.selection d) d) as H.
  pose proof (remove_loop_partial (Deduplicate.selection d) d) as Hpartial.
  destruct (Deduplicate.remove_loop remove conf (Deduplicate.selection d) d)
    as [[r d'] log].
  destruct H as (Hdry & Hrun & _ & _ & Hother).
  split_and!; [done| |done].
  intros Hoff. destruct (Hrun Hoff) as [Hdone|(e & _ & _ & _ & _ & -> & _)].
  - by left.
  - right. destruct (Hpartial Hoff e eq_refl) as (done & p & i & rest & ? & ? & ?).
    by exists e, done, p, i, rest.
Qed.

End RemoveFacts.

(** ** [unique] *)
Section UniqueFacts.

Context {A : Type} `{EqDecision A}.
Implicit Types (l seen : list A).

Lemma unique_iter_length seen l : (length (unique_iter seen l) ≤ length l)%nat.
Proof.
  revert seen. induction l as [|x l IH]; intros seen; simpl; [done|].
  destruct (decide (x ∈ seen)); simpl.
  - specialize (IH seen). lia.
  - specialize (IH (x :: seen)). lia.
Qed.

Lemma unique_iter_fixed seen l :
  unique_iter seen l = l ↔ NoDup l ∧ ∀ x, x ∈ l → x ∉ seen.
Proof.
  revert seen. induction l as [|x l IH]; intros seen; simpl.
  - split; [|done]. intros _. split; [constructor|]. by intros x ?%elem_of_nil.
  - destruct (decide (x ∈ seen)) as [Hin|Hnotin].
    + split.
      * intros Heq. pose proof (unique_iter_length seen l) as Hlen.
        rewrite Heq in Hlen. simpl in Hlen. lia.
      * intros [_ Hfresh]. destruct (Hfresh x); [left|done].
    + split.
      * intros [= Heq]. apply IH in Heq as [Hnd Hfresh]. split.
        -- constructor; [|done]. intros Hx. apply (Hfresh x Hx). left.
        -- intros y [->|Hy]%elem_of_cons; [done|].
           intros Hs. apply (Hfresh y Hy). by right.
      * intros [[Hx Hnd]%NoDup_cons Hfresh]. f_equal. apply IH. split; [done|].
        intros y Hy [->|Hs]%elem_of_cons; [done|].
        apply (Hfresh y); [by right|done].
Qed.

(** The assertion [unique(selection) == selection] holds exactly when no pair
    is selected twice. *)
Lemma unique_fixed_NoDup l : unique l = l ↔ NoDup l.
Proof.
  unfold unique. rewrite unique_iter_fixed. split; [by intros [? _]|].
  intros ?. split; [done|]. intros x _. apply not_elem_of_nil.
Qed.

End UniqueFacts.

(** ** Selecting over all the buckets *)
Section SelectFacts.

Context {Box : Type}.
Variable close : Box → Box.
Variable apply_strategy : string → DuplicateSet.t → list (string * string).
Variable conf : Config.

Lemma select_one_mails (d : Deduplicate.t Box) b :
  Deduplicate.mails (Deduplicate.select_one apply_strategy conf d b)
  = Deduplicate.mails d.
Proof.
  unfold Deduplicate.select_one.
  by destruct (DuplicateSet.select_candidates _ _ _) as [c st].
Qed.

Lemma select_one_sources (d : Deduplicate.t Box) b :
  Deduplicate.sources (Deduplicate.select_one apply_strategy conf d b)
  = Deduplicate.sources d.
Proof.
  unfold Deduplicate.select_one.
  by destruct (DuplicateSet.select_candidates _ _ _) as [c st].
Qed.

Lemma select_one_selection (d : Deduplicate.t Box) b :
  Deduplicate.selection (Deduplicate.select_one apply_strategy conf d b)
  = Deduplicate.selection d ++ default [] (fst (DuplicateSet.select_candidates conf apply_strategy (Deduplicate.duplicate_set b))).
Proof.
  unfold Deduplicate.select_one.
  destruct (DuplicateSet.select_candidates _ _ _) as [[[|c cs]|] st]; simpl;
    by rewrite ?app_nil_r.
Qed.

Lemma select_one_stats (d : Deduplicate.t Box) b :
  Deduplicate.stats (Deduplicate.select_one apply_strategy conf d b)
  = Counter.iadd (Deduplicate.stats d) (snd (DuplicateSet.select_candidates conf apply_strategy (Deduplicate.duplicate_set b))).
Proof.
  unfold Deduplicate.select_one.
  by destruct (DuplicateSet.select_candidates _ _ _) as [c st].
Qed.

Lemma select_loop_selection buckets (d : Deduplicate.t Box) :
  Deduplicate.selection (fold_left (Deduplicate.select_one apply_strategy conf) buckets d)
  = Deduplicate.selection d
    ++ flat_map (λ b, default [] (fst (DuplicateSet.select_candidates conf apply_strategy (Deduplicate.duplicate_set b)))) buckets.
Proof.
  revert d. induction buckets as [|b buckets IH]; intros d; simpl.
  - by rewrite app_nil_r.
  - by rewrite IH, select_one_selection, <- app_assoc.
Qed.

Lemma select_all_selection (d : Deduplicate.t Box) :
  Deduplicate.selection (Deduplicate.select_all close apply_strategy conf d)
  = Deduplicate.selection d
    ++ flat_map (λ b, default [] (fst (DuplicateSet.select_candidates conf apply_strategy (Deduplicate.duplicate_set b))))
                (Deduplicate.mails d).
Proof. unfold Deduplicate.select_all. simpl. by rewrite select_loop_selection. Qed.

(** Candidates taken without repetition from pairwise disjoint buckets do not
    repeat. *)
Lemma candidates_NoDup (buckets : list (string * list Mail.t)) :
  ForallOrdPairs (λ b1 b2, ∀ u, u ∈ map Mail.uid (snd b1) → u ∉ map Mail.uid (snd b2))
                 buckets →
  (∀ b name, b ∈ buckets →
     NoDup (apply_strategy name (Deduplicate.duplicate_set b))
     ∧ apply_strategy name (Deduplicate.duplicate_set b) ⊆ map Mail.uid (snd b)) →
  NoDup (flat_map (λ b, default [] (fst (DuplicateSet.select_candidates conf apply_strategy (Deduplicate.duplicate_set b)))) buckets)
  ∧ ∀ u, u ∈ flat_map (λ b, default [] (fst (DuplicateSet.select_candidates conf apply_strategy (Deduplicate.duplicate_set b))))
                      buckets →
         ∃ b, b ∈ buckets ∧ u ∈ map Mail.uid (snd b).
Proof.
  assert (∀ b,
            (∀ name, NoDup (apply_strategy name (Deduplicate.duplicate_set b))
                     ∧ apply_strategy name (Deduplicate.duplicate_set b)
                       ⊆ map Mail.uid (snd b)) →
            NoDup (default [] (fst (DuplicateSet.select_candidates conf apply_strategy
                                      (Deduplicate.duplicate_set b))))
            ∧ default [] (fst (DuplicateSet.select_candidates conf apply_strategy
                                 (Deduplicate.duplicate_set b)))
              ⊆ map Mail.uid (snd b)) as Hcand.
  { intros b Hb. unfold DuplicateSet.select_candidates.
    repeat (match goal with
            | |- context [match ?x with _ => _ end] => destruct x
            end; simpl; try (split; [constructor|by intros ? ?%elem_of_nil])).
    apply Hb. }
  induction buckets as [|b buckets IH]; intros Hdisj Hstrat; simpl.
  { split; [constructor|]. by intros u ?%elem_of_nil. }
  inversion Hdisj as [|? ? Hb Hrest]; subst.
  destruct IH as [IHnd IHin]; [done| |].
  { intros b' name Hb'. apply Hstrat. by right. }
  destruct (Hcand b) as [Hnd Hsub].
  { intros name. apply Hstrat. left. }
  split.
  - apply NoDup_app. split_and!; [done| |done].
    intros u Hu Hu'. destruct (IHin u Hu') as (b' & Hb' & Hin').
    apply (proj1 (Forall_forall _ _) Hb b' Hb' u); [by apply Hsub|done].
  - intros u [Hu|Hu]%elem_of_app.
    + exists b. split; [left|by apply Hsub].
    + destruct (IHin u Hu) as (b' & ? & ?). exists b'. split; [by right|done].
Qed.

(** C5. When [select_all] starts from an empty selection over hash buckets
    whose mails have pairwise disjoint identifiers, and the strategy returns,
    for each bucket, identifiers of that bucket's mails without repetition,
    the selection it builds holds no pair twice, so the assertion of
    [remove_selection], [unique(selection) == selection], holds. *)
Theorem selection_has_no_duplicate (d : Deduplicate.t Box) :
  Deduplicate.selection d = [] →
  ForallOrdPairs (λ b1 b2, ∀ u, u ∈ map Mail.uid (snd b1) → u ∉ map Mail.uid (snd b2))
                 (Deduplicate.mails d) →
  (∀ b name, b ∈ Deduplicate.mails d →
     NoDup (apply_strategy name (Deduplicate.duplicate_set b))
     ∧ apply_strategy name (Deduplicate.duplicate_set b) ⊆ map Mail.uid (snd b)) →
  let selection :=
    Deduplicate.selection (Deduplicate.select_all close apply_strategy conf d) in
  NoDup selection ∧ unique selection = selection.
Proof.
  intros Hempty Hdisj Hstrat. cbv zeta.
  rewrite unique_fixed_NoDup. rewrite select_all_selection, Hempty. simpl.
  split; by apply candidates_NoDup.
Qed.

End SelectFacts.

(** ** The statistics of one duplicate set *)
Section SetStatsFacts.

Variable conf : Config.
Variable apply_strategy : string → DuplicateSet.t → list (string * string).

Ltac select_cases ds :=
  unfold DuplicateSet.select_candidates;
  destruct (Z.eqb_spec (DuplicateSet.size ds) 1);
  [|destruct (snd (DuplicateSet.check_differences conf ds)) as [[]|];
    [| | |destruct (strategy_name conf) as [?name|];
          [destruct (Z.eqb_spec (Z.of_nat (length (apply_strategy name ds)))
                      (DuplicateSet.size ds))|]]];
  cbn [fst snd].

(** Every set ends in exactly one outcome. *)
Lemma set_outcome_once (ds : DuplicateSet.t) :
  let stats := snd (DuplicateSet.select_candidates conf apply_strategy ds) in
  Counter.get stats "set_ignored" + Counter.get stats "set_rejected_encoding"
  + Counter.get stats "set_rejected_size" + Counter.get stats "set_rejected_content"
  + Counter.get stats "set_skipped" + Counter.get stats "set_deduplicated" = 1.
Proof. cbv zeta. select_cases ds; read_counters; done. Qed.

(** The mails of a set are counted once, as discarded or as selected. *)
Lemma set_mails_once (ds : DuplicateSet.t) :
  let stats := snd (DuplicateSet.select_candidates conf apply_strategy ds) in
  Counter.get stats "mail_discarded" + Counter.get stats "mail_selected"
  = DuplicateSet.size ds.
Proof. cbv zeta. select_cases ds; read_counters; simpl; lia. Qed.

(** The mails of a set are counted once, as unique or as duplicates. *)
Lemma set_mails_unique_or_duplicates (ds : DuplicateSet.t) :
  let stats := snd (DuplicateSet.select_candidates conf apply_strategy ds) in
  Counter.get stats "mail_unique" + Counter.get stats "mail_duplicates"
  = DuplicateSet.size ds.
Proof. cbv zeta. select_cases ds; read_counters; simpl; lia. Qed.

(** A set's counters are not negative, [mail_discarded] provided the strategy
    returns no more candidates than the set has mails. *)
Lemma set_stats_nonneg (ds : DuplicateSet.t) (k : string) :
  (k = "mail_discarded" →
   ∀ name, Z.of_nat (length (apply_strategy name ds)) ≤ DuplicateSet.size ds) →
  0 ≤ Counter.get (snd (DuplicateSet.select_candidates conf apply_strategy ds)) k.
Proof.
  intros Hk. pose proof (Nat2Z.is_nonneg (length (DuplicateSet.pool ds))) as Hsize.
  fold (DuplicateSet.size ds) in Hsize.
  select_cases ds; read_counters; case_keys; try lia.
  specialize (Hk eq_refl name). lia.
Qed.

(** The counters a set never touches. *)
Lemma set_stats_untouched (ds : DuplicateSet.t) (k : string) :
  k ∈ ["mail_found"; "mail_rejected"; "mail_retained"; "mail_copied";
       "mail_moved"; "mail_deleted"; "set_total"] →
  Counter.get (snd (DuplicateSet.select_candidates conf apply_strategy ds)) k = 0.
Proof.
  intros Hk. repeat (apply elem_of_cons in Hk as [->|Hk]);
    [select_cases ds; read_counters; done..|by apply elem_of_nil in Hk].
Qed.

End SetStatsFacts.

(** ** The counters over the selection loop *)
Section SelectStatsFacts.

Context {Box : Type}.
Variable close : Box → Box.
Variable apply_strategy : string → DuplicateSet.t → list (string * string).
Variable conf : Config.

(** Merging the statistics of a set into counters that are not negative adds
    them. *)
Lemma select_one_counter (d : Deduplicate.t Box) b k :
  0 ≤ Counter.get (Deduplicate.stats d) k →
  0 ≤ Counter.get (snd (DuplicateSet.select_candidates conf apply_strategy
                          (Deduplicate.duplicate_set b))) k →
  Counter.get (Deduplicate.stats (Deduplicate.select_one apply_strategy conf d b)) k
  = Counter.get (Deduplicate.stats d) k
    + Counter.get (snd (DuplicateSet.select_candidates conf apply_strategy
                          (Deduplicate.duplicate_set b))) k.
Proof. intros ? ?. rewrite select_one_stats, get_iadd. lia. Qed.

(** The six outcome counters count the buckets. *)
Lemma select_loop_outcomes buckets (d : Deduplicate.t Box) :
  (∀ k, k ∈ ["set_ignored"; "set_rejected_encoding"; "set_rejected_size";
             "set_rejected_content"; "set_skipped"; "set_deduplicated"; "set_total"] →
        0 ≤ Counter.get (Deduplicate.stats d) k) →
  let s := Counter.get (Deduplicate.stats d) in
  let s' := Counter.get (Deduplicate.stats
                           (fold_left (Deduplicate.select_one apply_strategy conf)
                                      buckets d)) in
  s' "set_ignored" + s' "set_rejected_encoding" + s' "set_rejected_size"
  + s' "set_rejected_content" + s' "set_skipped" + s' "set_deduplicated"
  = s "set_ignored" + s "set_rejected_encoding" + s "set_rejected_size"
    + s "set_rejected_content" + s "set_skipped" + s "set_deduplicated"
    + Z.of_nat (length buckets)
  ∧ s' "set_total" = s "set_total".
Proof.
  revert d. induction buckets as [|b buckets IH]; intros d Hpos; cbv zeta.
  { simpl. lia. }
  assert (∀ k, k ∈ ["set_ignored"; "set_rejected_encoding"; "set_rejected_size";
                    "set_rejected_content"; "set_skipped"; "set_deduplicated";
                    "set_total"] →
            0 ≤ Counter.get (snd (DuplicateSet.select_candidates conf apply_strategy
                                    (Deduplicate.duplicate_set b))) k) as Hset.
  { intros k Hk. apply set_stats_nonneg. intros ->.
    repeat (apply elem_of_cons in Hk as [?|Hk]; [done|]). by apply elem_of_nil in Hk. }
  assert (∀ k, k ∈ ["set_ignored"; "set_rejected_encoding"; "set_rejected_size";
                    "set_rejected_content"; "set_skipped"; "set_deduplicated";
                    "set_total"] →
            Counter.get (Deduplicate.stats
                           (Deduplicate.select_one apply_strategy conf d b)) k
            = Counter.get (Deduplicate.stats d) k
              + Counter.get (snd (DuplicateSet.select_candidates conf apply_strategy
                                    (Deduplicate.duplicate_set b))) k) as Hstep.
  { intros k Hk. apply select_one_counter; auto. }
  simpl fold_left.
  destruct (IH (Deduplicate.select_one apply_strategy conf d b)) as [IH1 IH2].
  { intros k Hk. rewrite Hstep by done. specialize (Hpos k Hk).
    specialize (Hset k Hk). lia. }
  rewrite IH1, IH2.
  rewrite !Hstep by (repeat constructor).
  pose proof (set_outcome_once conf apply_strategy (Deduplicate.duplicate_set b)) as Honce.
  cbv zeta in Honce.
  rewrite (set_stats_untouched conf apply_strategy _ "set_total")
    by (repeat constructor).
  simpl length. lia.
Qed.

(** C6. When no set has been counted yet, after [select_all] the counter
    [set_total] is the number of hash buckets it found in [mails], and it is
    the sum of the six outcome counters: every bucket ends in exactly one of
    ignored, rejected for encoding, rejected for size, rejected for content,
    skipped and deduplicated. *)
Theorem set_counters_partition (d : Deduplicate.t Box) :
  (∀ k, k ∈ ["set_ignored"; "set_rejected_encoding"; "set_rejected_size";
             "set_rejected_content"; "set_skipped"; "set_deduplicated"] →
        Counter.get (Deduplicate.stats d) k = 0) →
  let s := Counter.get (Deduplicate.stats
                          (Deduplicate.select_all close apply_strategy conf d)) in
  s "set_total" = Z.of_nat (length (Deduplicate.mails d))
  ∧ s "set_total"
    = s "set_ignored" + s "set_rejected_encoding" + s "set_rejected_size"
      + s "set_rejected_content" + s "set_skipped" + s "set_deduplicated".
Proof.
  intros Hzero. cbv zeta. unfold Deduplicate.select_all. simpl.
  match goal with
  | |- context [fold_left _ _ ?d0] =>
      pose proof (select_loop_outcomes (Deduplicate.mails d) d0) as Hloop
  end.
  cbv zeta in Hloop. simpl in Hloop.
  destruct Hloop as [Hsum Htotal].
  { intros k Hk. read_counters.
    repeat (apply elem_of_cons in Hk as [->|Hk];
            [simpl; try lia; rewrite Hzero by (repeat constructor); lia|]).
    by apply elem_of_nil in Hk. }
  revert Hsum Htotal. read_counters. simpl.
  rewrite !Hzero by (repeat constructor). intros -> ->. lia.
Qed.

End SelectStatsFacts.

(** ** The counters over hashing *)
Section HashFacts.

Context {Box : Type}.
Variable items : Box → list (string * Mail.t).

Lemma grouped_mails_set (mails : list (string * list Mail.t)) h bucket :
  grouped_mails (dict_set h bucket mails)
  = grouped_mails mails - Z.of_nat (length (default [] (dict_get h mails)))
    + Z.of_nat (length bucket).
Proof.
  induction mails as [|[h' b'] mails IH]; simpl.
  - lia.
  - destruct (String.eqb_spec h h') as [->|Hne]; simpl; [lia|]. rewrite IH. lia.
Qed.

Lemma all_mails_set Q (mails : list (string * list Mail.t)) h bucket :
  all_mails Q mails → Forall Q bucket → all_mails Q (dict_set h bucket mails).
Proof.
  unfold all_mails. intros Hall Hb.
  induction mails as [|[h' b'] mails IH]; simpl.
  - by constructor.
  - inversion Hall; subst. destruct (String.eqb_spec h h'); constructor; auto.
Qed.

Lemma all_mails_bucket Q (mails : list (string * list Mail.t)) h :
  all_mails Q mails → Forall Q (default [] (dict_get h mails)).
Proof.
  intros Hall. destruct (dict_get h mails) as [b|] eqn:Hb; simpl; [|constructor].
  apply dict_get_Some_elem in Hb.
  by apply (proj1 (Forall_forall _ _) Hall (h, b)).
Qed.

(** One mail: a property of the mails in the buckets is kept when the new
    mail has it. *)
Lemma hash_one_all_mails p (d : Deduplicate.t Box) id mail (Q : Mail.t → Prop) :
  all_mails Q (Deduplicate.mails d) →
  (∀ m, Mail.source_path m = p → Mail.mail_id m = id → Q m) →
  all_mails Q (Deduplicate.mails (Deduplicate.hash_one p d (id, mail))).
Proof.
  intros HQ Hp. unfold Deduplicate.hash_one. simpl.
  destruct (Mail.hash_key mail) as [h|]; simpl; [|done].
  apply all_mails_set; [done|]. unfold set_add.
  destruct (decide _); [by apply all_mails_bucket|].
  apply Forall_app. split; [by apply all_mails_bucket|].
  repeat constructor. by apply Hp.
Qed.

(** One mail: the counter [mail_retained] and the buckets grow together. *)
Lemma hash_one_retained p (d : Deduplicate.t Box) id mail :
  all_mails (λ m, Mail.source_path m = p → Mail.mail_id m ≠ id) (Deduplicate.mails d) →
  let d' := Deduplicate.hash_one p d (id, mail) in
  Counter.get (Deduplicate.stats d') "mail_retained"
  - Counter.get (Deduplicate.stats d) "mail_retained"
  = grouped_mails (Deduplicate.mails d') - grouped_mails (Deduplicate.mails d)
  ∧ Counter.get (Deduplicate.stats d') "mail_retained"
    + Counter.get (Deduplicate.stats d') "mail_rejected"
    = Counter.get (Deduplicate.stats d) "mail_retained"
      + Counter.get (Deduplicate.stats d) "mail_rejected" + 1
  ∧ Counter.get (Deduplicate.stats d) "mail_retained"
    ≤ Counter.get (Deduplicate.stats d') "mail_retained"
  ∧ Counter.get (Deduplicate.stats d) "mail_rejected"
    ≤ Counter.get (Deduplicate.stats d') "mail_rejected"
  ∧ Deduplicate.sources d' = Deduplicate.sources d
  ∧ Deduplicate.selection d' = Deduplicate.selection d
  ∧ ∀ k, k ≠ "mail_retained" → k ≠ "mail_rejected" →
         Counter.get (Deduplicate.stats d') k = Counter.get (Deduplicate.stats d) k.
Proof.
  intros Hfresh. cbv zeta. unfold Deduplicate.hash_one. simpl.
  destruct (Mail.hash_key mail) as [h|]; simpl.
  2:{ split_and!; try done; try (read_counters; simpl; lia).
      intros k ? ?. read_counters. case_keys; done. }
  set (mail' := {| Mail.source_path := p; Mail.mail_id := id;
                   Mail.hash_key := Some h; Mail.size := Mail.size mail;
                   Mail.body_lines := Mail.body_lines mail |}).
  set (bucket := default [] (dict_get h (Deduplicate.mails d))).
  assert (mail' ∉ bucket) as Hnew.
  { intros Hin.
    pose proof (all_mails_bucket _ _ h Hfresh) as Hb.
    by apply (proj1 (Forall_forall _ _) Hb mail' Hin). }
  assert (set_add mail' bucket = bucket ++ [mail']) as ->.
  { unfold set_add. by destruct (decide (mail' ∈ bucket)). }
  split_and!; try done; try (read_counters; simpl; lia).
  - rewrite grouped_mails_set. fold bucket. rewrite length_app. simpl.
    read_counters. simpl. lia.
  - intros k ? ?. read_counters. case_keys; done.
Qed.

Lemma all_mails_impl (P Q : Mail.t → Prop) mails :
  all_mails P mails → (∀ m, P m → Q m) → all_mails Q mails.
Proof.
  intros HP HPQ. eapply Forall_impl; [exact HP|]. intros b Hb. simpl in Hb.
  eapply Forall_impl; [exact Hb|]. done.
Qed.

(** One box whose keys are distinct. *)
Lemma hash_box_retained p its (d : Deduplicate.t Box) (Q : Mail.t → Prop) :
  NoDup (map fst its) →
  all_mails (λ m, Mail.source_path m = p → Mail.mail_id m ∉ map fst its)
            (Deduplicate.mails d) →
  all_mails Q (Deduplicate.mails d) →
  (∀ m, Mail.source_path m = p → Q m) →
  let d' := fold_left (Deduplicate.hash_one p) its d in
  Counter.get (Deduplicate.stats d') "mail_retained"
  - Counter.get (Deduplicate.stats d) "mail_retained"
  = grouped_mails (Deduplicate.mails d') - grouped_mails (Deduplicate.mails d)
  ∧ Counter.get (Deduplicate.stats d') "mail_retained"
    + Counter.get (Deduplicate.stats d') "mail_rejected"
    = Counter.get (Deduplicate.stats d) "mail_retained"
      + Counter.get (Deduplicate.stats d) "mail_rejected" + Z.of_nat (length its)
  ∧ Counter.get (Deduplicate.stats d) "mail_retained"
    ≤ Counter.get (Deduplicate.stats d') "mail_retained"
  ∧ Counter.get (Deduplicate.stats d) "mail_rejected"
    ≤ Counter.get (Deduplicate.stats d') "mail_rejected"
  ∧ all_mails Q (Deduplicate.mails d')
  ∧ Deduplicate.sources d' = Deduplicate.sources d
  ∧ Deduplicate.selection d' = Deduplicate.selection d
  ∧ ∀ k, k ≠ "mail_retained" → k ≠ "mail_rejected" →
         Counter.get (Deduplicate.stats d') k = Counter.get (Deduplicate.stats d) k.
Proof.
  revert d. induction its as [|[id mail] its IH]; intros d Hnd Hfresh HQ Hp; cbv zeta.
  { simpl. split_and!; try done; lia. }
  simpl in Hnd. apply NoDup_cons in Hnd as [Hid Hnd]. cbn [fold_left].
  destruct (hash_one_retained p d id mail) as (H1 & Hc & Hr & Hj & H4 & H5 & H6).
  { eapply all_mails_impl; [exact Hfresh|]. intros m Hm Hpm Hmid.
    apply (Hm Hpm). simpl. rewrite Hmid. left. }
  destruct (IH (Deduplicate.hash_one p d (id, mail)))
    as (I1 & Ic & Ir & Ij & I2 & I3 & I4 & I5); [done| | |done|].
  { apply hash_one_all_mails.
    - eapply all_mails_impl; [exact Hfresh|]. intros m Hm Hpm Hin.
      apply (Hm Hpm). simpl. by right.
    - by intros m _ -> _. }
  { apply hash_one_all_mails; [done|]. intros m ? _. by apply Hp. }
  split_and!; try done; try lia; try congruence.
  - simpl length. lia.
  - intros k ? ?. rewrite I5 by done. by apply H6.
Qed.

(** All the boxes, registered under distinct paths. *)
Lemma hash_sources_retained (srcs : list (string * Box)) (d : Deduplicate.t Box) :
  NoDup (map fst srcs) →
  (∀ box, NoDup (map fst (items box))) →
  all_mails (λ m, Mail.source_path m ∉ map fst srcs) (Deduplicate.mails d) →
  let d' := fold_left (λ d '(source_path, box),
                         fold_left (Deduplicate.hash_one source_path) (items box) d)
                      srcs d in
  Counter.get (Deduplicate.stats d') "mail_retained"
  - Counter.get (Deduplicate.stats d) "mail_retained"
  = grouped_mails (Deduplicate.mails d') - grouped_mails (Deduplicate.mails d)
  ∧ Counter.get (Deduplicate.stats d') "mail_retained"
    + Counter.get (Deduplicate.stats d') "mail_rejected"
    = Counter.get (Deduplicate.stats d) "mail_retained"
      + Counter.get (Deduplicate.stats d) "mail_rejected" + stored_mails items srcs
  ∧ Counter.get (Deduplicate.stats d) "mail_retained"
    ≤ Counter.get (Deduplicate.stats d') "mail_retained"
  ∧ Counter.get (Deduplicate.stats d) "mail_rejected"
    ≤ Counter.get (Deduplicate.stats d') "mail_rejected"
  ∧ Deduplicate.sources d' = Deduplicate.sources d
  ∧ Deduplicate.selection d' = Deduplicate.selection d
  ∧ ∀ k, k ≠ "mail_retained" → k ≠ "mail_rejected" →
         Counter.get (Deduplicate.stats d') k = Counter.get (Deduplicate.stats d) k.
Proof.
  intros Hnd Hitems. revert d.
  induction srcs as [|[p box] srcs IH]; intros d Hfresh; cbv zeta.
  { simpl. split_and!; try done; lia. }
  simpl in Hnd. apply NoDup_cons in Hnd as [Hp Hnd]. cbn [fold_left].
  destruct (hash_box_retained p (items box) d (λ m, Mail.source_path m ∉ map fst srcs))
    as (H1 & Hc & Hr & Hj & H2 & H3 & H4 & H5); [done| | |by intros m ->|].
  { eapply all_mails_impl; [exact Hfresh|]. intros m Hm Hpm.
    destruct Hm. simpl. rewrite Hpm. left. }
  { eapply all_mails_impl; [exact Hfresh|]. intros m Hm Hin. apply Hm. simpl.
    by right. }
  destruct (IH Hnd (fold_left (Deduplicate.hash_one p) (items box) d))
    as (I1 & Ic & Ir & Ij & I2 & I3 & I4); [done|].
  split_and!; try lia; try congruence.
  - simpl stored_mails. lia.
  - intros k ? ?. rewrite I4 by done. by apply H5.
Qed.

(** [hash_all] from a state without mails: [mail_retained] grows by the
    number of mails grouped. *)
Lemma hash_all_retained (d : Deduplicate.t Box) :
  NoDup (map fst (Deduplicate.sources d)) →
  (∀ box, NoDup (map fst (items box))) →
  Deduplicate.mails d = [] →
  let d' := Deduplicate.hash_all items d in
  Counter.get (Deduplicate.stats d') "mail_retained"
  = Counter.get (Deduplicate.stats d) "mail_retained"
    + grouped_mails (Deduplicate.mails d')
  ∧ Counter.get (Deduplicate.stats d') "mail_retained"
    + Counter.get (Deduplicate.stats d') "mail_rejected"
    = Counter.get (Deduplicate.stats d) "mail_retained"
      + Counter.get (Deduplicate.stats d) "mail_rejected"
      + stored_mails items (Deduplicate.sources d)
  ∧ Counter.get (Deduplicate.stats d) "mail_retained"
    ≤ Counter.get (Deduplicate.stats d') "mail_retained"
  ∧ Counter.get (Deduplicate.stats d) "mail_rejected"
    ≤ Counter.get (Deduplicate.stats d') "mail_rejected"
  ∧ Deduplicate.sources d' = Deduplicate.sources d
  ∧ Deduplicate.selection d' = Deduplicate.selection d
  ∧ ∀ k, k ≠ "mail_retained" → k ≠ "mail_rejected" →
         Counter.get (Deduplicate.stats d') k = Counter.get (Deduplicate.stats d) k.
Proof.
  intros Hnd Hitems Hmails. cbv zeta. unfold Deduplicate.hash_all.
  destruct (hash_sources_retained (Deduplicate.sources d) d Hnd Hitems)
    as (H1 & Hc & Hr & Hj & H2 & H3 & H4).
  { rewrite Hmails. constructor. }
  split_and!; try done. rewrite Hmails in H1. simpl in H1. lia.
Qed.

End HashFacts.

(** ** Whole runs *)
Section RunFacts.

Context {Box : Type}.
Variable resolve : string → exception + string.
Variable open_box : string → option string → bool → exception + Box.
Variable items : Box → list (string * Mail.t).
Variable remove : Box → string → exception + Box.
Variable close : Box → Box.
Variable apply_strategy : string → DuplicateSet.t → list (string * string).
Variable conf : Config.

Lemma init_registering : registering (Deduplicate.init (Box:=Box)).
Proof.
  unfold registering. simpl. split_and!; try done.
  - constructor.
  - intros k _. cbn [list_to_map foldr uncurry fst snd].
    rewrite !get_insert, get_empty. case_keys; done.
Qed.

Lemma add_source_registering source_path (d : Deduplicate.t Box) :
  registering d →
  registering (snd (Deduplicate.add_source resolve open_box items conf source_path d)).
Proof.
  intros Hd. unfold Deduplicate.add_source.
  destruct (resolve source_path) as [e|path]; [done|].
  destruct (dict_get path (Deduplicate.sources d)) as [box|] eqn:Hget; [done|].
  destruct (open_box path _ _) as [e|box]; [done|].
  destruct Hd as (Hnd & Hm & Hs & Hk & Hfound).
  unfold registering. simpl. split_and!; try done.
  - rewrite dict_set_fresh by done. rewrite map_app. simpl.
    apply NoDup_app. split_and!; [done| |apply NoDup_singleton].
    intros k Hin ->%list_elem_of_singleton. by apply dict_get_None in Hget.
  - intros k Hne. read_counters. case_keys. by apply Hk.
  - read_counters. simpl. lia.
Qed.

Lemma add_sources_registering paths (d : Deduplicate.t Box) :
  registering d →
  registering (snd (Deduplicate.add_sources resolve open_box items conf paths d)).
Proof.
  revert d. induction paths as [|path paths IH]; intros d Hd; simpl; [done|].
  pose proof (add_source_registering path d Hd) as Hstep.
  destruct (Deduplicate.add_source _ _ _ _ path d) as [[e|] d']; [done|].
  by apply IH.
Qed.

(** The mail counters over the selection loop. *)
Lemma select_loop_mail_counters buckets (d : Deduplicate.t Box) :
  (∀ b name, b ∈ buckets →
     Z.of_nat (length (apply_strategy name (Deduplicate.duplicate_set b)))
     ≤ DuplicateSet.size (Deduplicate.duplicate_set b)) →
  (∀ k, 0 ≤ Counter.get (Deduplicate.stats d) k) →
  let s := Counter.get (Deduplicate.stats d) in
  let s' := Counter.get (Deduplicate.stats
                           (fold_left (Deduplicate.select_one apply_strategy conf)
                                      buckets d)) in
  s' "mail_discarded" + s' "mail_selected"
  = s "mail_discarded" + s "mail_selected" + grouped_mails buckets
  ∧ s' "mail_unique" + s' "mail_duplicates"
    = s "mail_unique" + s "mail_duplicates" + grouped_mails buckets
  ∧ (∀ k, k ∈ ["mail_found"; "mail_rejected"; "mail_retained"; "mail_copied";
               "mail_moved"; "mail_deleted"; "set_total"] → s' k = s k)
  ∧ ∀ k, 0 ≤ s' k.
Proof.
  revert d. induction buckets as [|b buckets IH]; intros d Hstrat Hpos; cbv zeta.
  { simpl. split_and!; try done; lia. }
  assert (∀ k, 0 ≤ Counter.get
                     (snd (DuplicateSet.select_candidates conf apply_strategy
                             (Deduplicate.duplicate_set b))) k) as Hset.
  { intros k. apply set_stats_nonneg. intros _ name. apply Hstrat. left. }
  assert (∀ k, Counter.get (Deduplicate.stats
                              (Deduplicate.select_one apply_strategy conf d b)) k
               = Counter.get (Deduplicate.stats d) k
                 + Counter.get (snd (DuplicateSet.select_candidates conf apply_strategy
                                       (Deduplicate.duplicate_set b))) k) as Hstep.
  { intros k. by apply select_one_counter. }
  cbn [fold_left].
  destruct (IH (Deduplicate.select_one apply_strategy conf d b))
    as (IH1 & IH2 & IH3 & IH4).
  { intros b' name Hb'. apply Hstrat. by right. }
  { intros k. rewrite Hstep. specialize (Hpos k). specialize (Hset k). lia. }
  pose proof (set_mails_once conf apply_strategy (Deduplicate.duplicate_set b))
    as Honce.
  pose proof (set_mails_unique_or_duplicates conf apply_strategy
                (Deduplicate.duplicate_set b)) as Hkind.
  cbv zeta in Honce, Hkind.
  split_and!.
  - rewrite IH1, !Hstep. simpl grouped_mails.
    unfold DuplicateSet.size in Honce. simpl in Honce. lia.
  - rewrite IH2, !Hstep. simpl grouped_mails.
    unfold DuplicateSet.size in Hkind. simpl in Hkind. lia.
  - intros k Hk. rewrite IH3, Hstep by done.
    rewrite (set_stats_untouched conf apply_strategy _ k Hk). lia.
  - done.
Qed.

(** The counters after hashing and selecting from a state in which the
    sources were being registered. *)
Lemma selected_counters (d0 : Deduplicate.t Box) :
  registering d0 →
  (∀ box, NoDup (map fst (items box))) →
  (∀ name ds, Z.of_nat (length (apply_strategy name ds)) ≤ DuplicateSet.size ds) →
  let s := Counter.get (Deduplicate.stats
                          (Deduplicate.select_all close apply_strategy conf
                             (Deduplicate.hash_all items d0))) in
  s "mail_retained" = s "mail_discarded" + s "mail_selected"
  ∧ s "mail_retained" = s "mail_unique" + s "mail_duplicates"
  ∧ s "mail_retained" + s "mail_rejected"
    = stored_mails items (Deduplicate.sources d0)
  ∧ s "mail_found" = Counter.get (Deduplicate.stats d0) "mail_found"
  ∧ s "mail_copied" = 0 ∧ s "mail_moved" = 0 ∧ s "mail_deleted" = 0
  ∧ ∀ k, 0 ≤ s k.
Proof.
  intros (Hnd & Hmails & Hsel & Hzero & Hfound) Hitems Hstrat. cbv zeta.
  destruct (hash_all_retained items d0 Hnd Hitems Hmails)
    as (H1 & Hc & Hr & Hj & _ & _ & Hk).
  cbv zeta in *.
  set (d1 := Deduplicate.hash_all items d0) in *.
  unfold Deduplicate.select_all. simpl.
  match goal with
  | |- context [fold_left _ _ ?dA] =>
      pose proof (select_loop_mail_counters (Deduplicate.mails d1) dA) as Hloop
  end.
  cbv zeta in Hloop. simpl in Hloop.
  assert (∀ k, k ≠ "set_total" →
            Counter.get (Counter.assign (Deduplicate.stats d1) "set_total"
                           (Z.of_nat (length (Deduplicate.mails d1)))) k
            = Counter.get (Deduplicate.stats d1) k) as Hassign.
  { intros k Hne. read_counters. case_keys; done. }
  assert (∀ k, 0 ≤ Counter.get (Deduplicate.stats d1) k) as Hpos1.
  { intros k.
    destruct (decide (k = "mail_retained")) as [->|?];
      [rewrite Hzero in Hr by done; lia|].
    destruct (decide (k = "mail_rejected")) as [->|?];
      [rewrite Hzero in Hj by done; lia|].
    rewrite Hk by done.
    destruct (decide (k = "mail_found")) as [->|?]; [done|].
    rewrite Hzero by done. lia. }
  destruct Hloop as (L1 & L2 & L3 & L4).
  { intros b name _. apply Hstrat. }
  { intros k. read_counters. case_keys; [lia|apply Hpos1]. }
  rewrite (Hassign "mail_discarded"), (Hassign "mail_selected") in L1 by done.
  rewrite (Hassign "mail_unique"), (Hassign "mail_duplicates") in L2 by done.
  rewrite (Hk "mail_discarded"), (Hk "mail_selected"), (Hzero "mail_discarded"),
    (Hzero "mail_selected") in L1 by done.
  rewrite (Hk "mail_unique"), (Hk "mail_duplicates"), (Hzero "mail_unique"),
    (Hzero "mail_duplicates") in L2 by done.
  rewrite (Hzero "mail_retained") in H1, Hc by done.
  rewrite (Hzero "mail_rejected") in Hc by done.
  rewrite (L3 "mail_retained"), (L3 "mail_rejected"), (L3 "mail_found"),
    (L3 "mail_copied"), (L3 "mail_moved"), (L3 "mail_deleted")
    by (repeat constructor).
  rewrite !Hassign by done.
  rewrite (Hk "mail_found"), (Hk "mail_copied"), (Hk "mail_moved"),
    (Hk "mail_deleted") by done.
  rewrite (Hzero "mail_copied"), (Hzero "mail_moved"), (Hzero "mail_deleted")
    by done.
  split_and!; try done; lia.
Qed.

(** C4. After any run (register the sources, hash, select, and remove when
    asked to), over mailboxes that list each key once and with strategies
    that return no more candidates than the set has mails, the retained mails
    are the discarded ones plus the selected ones. *)
Theorem retained_is_discarded_plus_selected
    (paths : list string) (removal : bool) (r : option exception) (d : Deduplicate.t Box) :
  (∀ box, NoDup (map fst (items box))) →
  (∀ name ds, Z.of_nat (length (apply_strategy name ds)) ≤ DuplicateSet.size ds) →
  Deduplicate.run resolve open_box items remove close apply_strategy conf paths removal
  = (r, d) →
  Counter.get (Deduplicate.stats d) "mail_retained"
  = Counter.get (Deduplicate.stats d) "mail_discarded"
    + Counter.get (Deduplicate.stats d) "mail_selected".
Proof.
  intros Hitems Hstrat. unfold Deduplicate.run.
  pose proof (add_sources_registering paths _ init_registering) as Hreg.
  destruct (Deduplicate.add_sources _ _ _ _ paths _) as [[e|] d0]; simpl in Hreg.
  { intros [= _ <-]. destruct Hreg as (_ & _ & _ & Hzero & _).
    rewrite !Hzero by done. done. }
  destruct (selected_counters d0 Hreg Hitems Hstrat) as (Heq & _).
  destruct removal; [|by intros [= _ <-]].
  unfold Deduplicate.remove_selection. destruct (decide _) as [_|_].
  2:{ by intros [= _ <-]. }
  match goal with
  | |- context [Deduplicate.remove_loop _ _ ?sel ?d2] =>
      pose proof (remove_loop_accounting remove conf sel d2) as Hrm;
      destruct (Deduplicate.remove_loop remove conf sel d2) as [[r' d'] log]
  end.
  destruct Hrm as (_ & _ & _ & _ & Hother). simpl. intros [= _ <-].
  rewrite !Hother by done. done.
Qed.

End RunFacts.

(** ** The examples *)

(** [mail_deleted] is not tied to the removals performed.  In dry-run mode,
    with one selected pair, it goes from 0 to 1 while no source is touched
    and no removal is logged.  Outside dry-run mode, with two selected pairs
    of which the second is no longer in its box, one removal is performed,
    the second raises [KeyError], and the counter ends at 2. *)
Lemma mail_deleted_counts_attempts :
  (let '(r, d', log) :=
     Deduplicate.remove_selection Example.remove Example.dry_conf Example.selected in
   dry_run Example.dry_conf = true
   ∧ Deduplicate.selection Example.selected = [("/mail/archive", "7")]
   ∧ Deduplicate.sources d' = Deduplicate.sources Example.selected
   ∧ log = [Deduplicate.Deleting "/mail/archive" "7";
            Deduplicate.DryRunSkip "/mail/archive" "7"]
   ∧ Counter.get (Deduplicate.stats d') "mail_deleted"
     ≠ Counter.get (Deduplicate.stats Example.selected) "mail_deleted")
  ∧ (let '(r, d', log) :=
       Deduplicate.remove_selection Example.remove Example.conf Example.vanished in
     dry_run Example.conf = false
     ∧ r = Some KeyError
     ∧ log = [Deduplicate.Deleting "/mail/archive" "7";
              Deduplicate.Deleted "/mail/archive" "7";
              Deduplicate.Deleting "/mail/archive" "9"]
     ∧ Deduplicate.sources d' = [("/mail/archive", ∅)]
     ∧ Counter.get (Deduplicate.stats Example.vanished) "mail_deleted" = 0
     ∧ Counter.get (Deduplicate.stats d') "mail_deleted" = 2).
Proof. vm_compute. split_and!; done. Qed.

Lemma remove_selection_accounting_dry_run :
  let '(r, d', log) :=
    Deduplicate.remove_selection Example.remove Example.dry_conf Example.selected in
  r = None
  ∧ Counter.get (Deduplicate.stats d') "mail_deleted"
    - Counter.get (Deduplicate.stats Example.selected) "mail_deleted" = 1.
Proof.
  pose proof (remove_selection_accounting Example.remove Example.dry_conf
                Example.selected) as H.
  destruct (Deduplicate.remove_selection _ _ _) as [[r d'] log].
  destruct H as ((-> & H & _) & _); [by vm_compute|reflexivity|].
  split; [reflexivity|]. exact H.
Defined.

Lemma full_selection_is_skipped_example :
  DuplicateSet.select_candidates Example.conf Example.take_all Example.pair
  = (None, snd (DuplicateSet.select_candidates Example.conf Example.take_all
                  Example.pair))
  ∧ Counter.get (snd (DuplicateSet.select_candidates Example.conf Example.take_all
                        Example.pair)) "set_skipped" = 1.
Proof.
  destruct (full_selection_is_skipped Example.conf Example.take_all Example.pair)
    as [H _].
  specialize (H "keep-first").
  destruct (DuplicateSet.select_candidates _ _ _) as [c st].
  destruct H as (-> & H & _); [by vm_compute|by vm_compute|reflexivity|reflexivity|].
  split; [reflexivity|exact H].
Defined.

(** The set with a single mail is ignored, and its mail is counted as
    discarded too: the statistics are not only [mail_unique] and
    [set_ignored]. *)
Lemma ignored_set_counts_discarded :
  DuplicateSet.size Example.single = 1
  ∧ ¬ (∀ k, Counter.get (snd (DuplicateSet.select_candidates Example.conf
                               Example.keep_first Example.single)) k
            = if String.eqb k "mail_unique" then DuplicateSet.size Example.single
              else if String.eqb k "set_ignored" then 1
              else 0).
Proof.
  split; [reflexivity|]. intros H. specialize (H "mail_discarded").
  vm_compute in H. discriminate.
Qed.

Lemma ignored_set_delta_example :
  fst (DuplicateSet.select_candidates Example.conf Example.keep_first Example.single)
  = None
  ∧ Counter.get (snd (DuplicateSet.select_candidates Example.conf Example.keep_first
                        Example.single)) "mail_discarded" = 1.
Proof.
  destruct (ignored_set_delta Example.conf Example.keep_first Example.single)
    as [H1 H2]; [reflexivity|].
  split; [exact H1|]. exact (H2 "mail_discarded").
Defined.

Lemma keep_first_bound name ds :
  Z.of_nat (length (Example.keep_first name ds)) ≤ DuplicateSet.size ds.
Proof.
  unfold Example.keep_first, DuplicateSet.size. rewrite length_map.
  destruct (DuplicateSet.pool ds); simpl; lia.
Defined.

Lemma retained_is_discarded_plus_selected_example :
  let d := snd (Deduplicate.run Example.resolve Example.open_box Example.items
                  Example.remove Example.close Example.keep_first Example.conf
                  ["/mail/inbox"; "/mail/archive"] true) in
  Counter.get (Deduplicate.stats d) "mail_retained"
  = Counter.get (Deduplicate.stats d) "mail_discarded"
    + Counter.get (Deduplicate.stats d) "mail_selected".
Proof.
  cbv zeta.
  eapply (retained_is_discarded_plus_selected Example.resolve Example.open_box
            Example.items Example.remove Example.close Example.keep_first Example.conf
            ["/mail/inbox"; "/mail/archive"] true).
  - intros box. apply NoDup_fst_map_to_list.
  - apply keep_first_bound.
  - apply surjective_pairing.
Defined.

Lemma selection_has_no_duplicate_example :
  NoDup (Deduplicate.selection
           (Deduplicate.select_all Example.close Example.keep_first Example.conf
              Example.hashed))
  ∧ unique (Deduplicate.selection
              (Deduplicate.select_all Example.close Example.keep_first Example.conf
                 Example.hashed))
    = Deduplicate.selection
        (Deduplicate.select_all Example.close Example.keep_first Example.conf
           Example.hashed).
Proof.
  apply (selection_has_no_duplicate Example.close Example.keep_first Example.conf
           Example.hashed).
  - reflexivity.
  - vm_compute. repeat constructor; intros u Hu; vm_compute;
      repeat (apply elem_of_cons in Hu as [->|Hu]; [by intros [[=]|?%elem_of_nil]%elem_of_cons|]);
      by apply elem_of_nil in Hu.
  - intros b name Hb. vm_compute in Hb.
    repeat (apply elem_of_cons in Hb as [->|Hb];
            [vm_compute; split; [repeat constructor; by intros ?%elem_of_nil|]|]).
    + intros u Hu. apply elem_of_cons in Hu as [->|Hu]; [|by apply elem_of_nil in Hu].
      right. left.
    + by intros u ?%elem_of_nil.
    + by apply elem_of_nil in Hb.
Defined.

Lemma set_counters_partition_example :
  let s := Counter.get (Deduplicate.stats
                          (Deduplicate.select_all Example.close Example.keep_first
                             Example.conf Example.hashed)) in
  s "set_total" = 2
  ∧ s "set_total"
    = s "set_ignored" + s "set_rejected_encoding" + s "set_rejected_size"
      + s "set_rejected_content" + s "set_skipped" + s "set_deduplicated".
Proof.
  apply (set_counters_partition Example.close Example.keep_first Example.conf
           Example.hashed).
  intros k Hk.
  repeat (apply elem_of_cons in Hk as [->|Hk]; [reflexivity|]).
  by apply elem_of_nil in Hk.
Defined.

(** Registering the inbox a second time, through the symlink, raises a
    [ValueError], not a [DuplicateSourceError]. *)
Lemma registered_twice_raises_value_error :
  Example.resolve "/mail/current" = inr "/mail/inbox"
  ∧ is_Some (dict_get "/mail/inbox" (Deduplicate.sources Example.registered))
  ∧ ¬ (∃ e, fst (Deduplicate.add_source Example.resolve Example.open_box Example.items
                   Example.conf "/mail/current" Example.registered) = Some e
            ∧ class_name_of e = "DuplicateSourceError").
Proof.
  split_and!; [reflexivity|eexists; vm_compute; reflexivity|].
  intros (e & He & Hname). vm_compute in He. by injection He as <-.
Qed.

Lemma add_source_outcomes_example :
  (∃ e, Deduplicate.add_source Example.resolve Example.open_box Example.items
          Example.conf "/mail/current" Example.registered
        = (Some e, Example.registered)
        ∧ class_name_of e = "ValueError")
  ∧ ∃ d', Deduplicate.add_source Example.resolve Example.open_box Example.items
            Example.conf "/mail/archive" Deduplicate.init = (None, d')
          ∧ Counter.get (Deduplicate.stats d') "mail_found" = 2.
Proof.
  split.
  - destruct (add_source_outcomes Example.resolve Example.open_box Example.items
                Example.conf "/mail/current" Example.registered) as (_ & H & _).
    apply (H "/mail/inbox"); [reflexivity|eexists; vm_compute; reflexivity].
  - destruct (add_source_outcomes Example.resolve Example.open_box Example.items
                Example.conf "/mail/archive" Deduplicate.init) as (_ & _ & _ & H).
    destruct (H "/mail/archive" {[ "7" := Example.hello_copy; "8" := Example.bye ]})
      as (d' & Hrun & _ & _ & _ & _ & _ & Hfound & _);
      [reflexivity|reflexivity|reflexivity|].
    exists d'. split; [exact Hrun|]. rewrite Hfound. reflexivity.
Defined.

Lemma check_differences_order_example :
  let '(log, r) := DuplicateSet.check_differences Example.conf Example.uneven_pair in
  length log = 1%nat ∧ r = Some DuplicateSet.SizeDiffAboveThreshold.
Proof.
  pose proof (check_differences_order Example.conf Example.uneven_pair) as H.
  destruct (DuplicateSet.check_differences _ _) as [log r] eqn:Hrun.
  destruct H as (_ & _ & _ & H & _).
  destruct (H 0%nat Example.hello Example.big_hello 28) as (_ & _ & [Hlen ->]).
  - by injection Hrun as <- _.
  - reflexivity.
  - split; [by rewrite <- Hlen|reflexivity].
Defined.

Lemma empty_selection_is_deduplicated_example :
  fst (DuplicateSet.select_candidates Example.conf Example.take_none Example.pair)
  = Some []
  ∧ Counter.get (snd (DuplicateSet.select_candidates Example.conf Example.take_none
                        Example.pair)) "set_deduplicated" = 1.
Proof.
  pose proof (empty_selection_is_deduplicated Example.conf Example.take_none
                Example.pair "keep-first") as H.
  destruct (DuplicateSet.select_candidates _ _ _) as [c st].
  destruct H as (-> & H & _); [by vm_compute|by vm_compute|reflexivity|reflexivity|].
  split; [reflexivity|exact H].
Defined.

(** ** [difflib]: the matching blocks match *)
Section MatcherFacts.

Local Open Scope nat_scope.

Variables a b : list string.

Lemma same_at_true i j :
  Difflib.same_at a b i j = true → ∃ x, a !! i = Some x ∧ b !! j = Some x.
Proof.
  unfold Difflib.same_at.
  destruct (a !! i) as [x|], (b !! j) as [y|]; try done.
  intros ->%String.eqb_eq. eauto.
Qed.

Lemma block_matches_ext i j k i' j' k' :
  Difflib.block_matches a b i j k → i' = i → j' = j → k' = k →
  Difflib.block_matches a b i' j' k'.
Proof. by intros H -> -> ->. Qed.

Lemma block_matches_snoc i j k :
  Difflib.block_matches a b i j k →
  (∃ x, a !! (i + k) = Some x ∧ b !! (j + k) = Some x) →
  Difflib.block_matches a b i j (S k).
Proof.
  intros Hk Hlast t Ht. destruct (decide (t = k)) as [->|]; [done|].
  apply Hk. lia.
Qed.

Lemma block_matches_cons i j k :
  (∃ x, a !! i = Some x ∧ b !! j = Some x) →
  Difflib.block_matches a b (S i) (S j) k →
  Difflib.block_matches a b i j (S k).
Proof.
  intros Hfirst Hk [|t] Ht.
  - by rewrite !Nat.add_0_r.
  - replace (i + S t) with (S i + t) by lia. replace (j + S t) with (S j + t) by lia.
    apply Hk. lia.
Qed.

Lemma block_matches_app i j k1 k2 :
  Difflib.block_matches a b i j k1 →
  Difflib.block_matches a b (i + k1) (j + k1) k2 →
  Difflib.block_matches a b i j (k1 + k2).
Proof.
  intros H1 H2 t Ht. destruct (decide (t < k1)) as [?|?]; [by apply H1|].
  replace (i + t) with (i + k1 + (t - k1)) by lia.
  replace (j + t) with (j + k1 + (t - k1)) by lia.
  apply H2. lia.
Qed.

(** [b2j] lists, for each line, indices of [b] where it is. *)
Lemma index_b_sound elt js j :
  Difflib.index_b b !! elt = Some js → j ∈ js → b !! j = Some elt.
Proof.
  unfold Difflib.index_b.
  assert (∀ (l : list (nat * string)) (m : gmap string (list nat)),
            (∀ i e, (i, e) ∈ l → b !! i = Some e) →
            (∀ e js j, m !! e = Some js → j ∈ js → b !! j = Some e) →
            ∀ e js j,
              fold_left (λ b2j '(i, elt),
                           <[elt := default [] (b2j !! elt) ++ [i]]> b2j) l m !! e
              = Some js →
              j ∈ js → b !! j = Some e) as Hfold.
  { induction l as [|[i0 e0] l IH]; intros m Hl Hm e js' j'; simpl; [by apply Hm|].
    apply IH.
    - intros i1 e1 Hin. apply Hl. by right.
    - intros e1 js1 j1. destruct (decide (e0 = e1)) as [->|Hne].
      + rewrite lookup_insert_eq. intros [= <-] [Hin|Hin%list_elem_of_singleton]%elem_of_app.
        * destruct (m !! e1) as [js0|] eqn:Hjs0; simpl in Hin.
          -- by apply (Hm e1 js0).
          -- by apply elem_of_nil in Hin.
        * subst. apply Hl. left.
      + rewrite lookup_insert_ne by done. apply Hm. }
  apply Hfold.
  - intros i e (i' & y & [= -> ->] & Hy)%elem_of_lookup_imap. done.
  - intros e js' j'. by rewrite lookup_empty.
Qed.

Lemma chain_b_sound elt js j :
  Difflib.chain_b b !! elt = Some js → j ∈ js → b !! j = Some elt.
Proof.
  unfold Difflib.chain_b. destruct (200 <=? length b).
  - intros [Hjs _]%map_lookup_filter_Some. by apply index_b_sound.
  - apply index_b_sound.
Qed.

Section Window.

Variables alo ahi blo bhi : nat.
Hypothesis Hawin : alo ≤ ahi.
Hypothesis Hbwin : blo ≤ bhi.

Lemma scan_row_ok j2len i js newj2len bst :
  alo ≤ i → i < ahi →
  (∀ j, j ∈ js → ∃ x, a !! i = Some x ∧ b !! j = Some x) →
  Difflib.row_ok a b alo blo bhi i j2len →
  Difflib.row_ok a b alo blo bhi (S i) newj2len →
  Difflib.block_in_window a b alo ahi blo bhi
    (Difflib.besti bst) (Difflib.bestj bst) (Difflib.bestsize bst) →
  let '(m, bst') := Difflib.scan_row j2len i blo bhi js newj2len bst in
  Difflib.row_ok a b alo blo bhi (S i) m
  ∧ Difflib.block_in_window a b alo ahi blo bhi
      (Difflib.besti bst') (Difflib.bestj bst') (Difflib.bestsize bst').
Proof.
  intros Hlo Hhi Hjs Hprev. revert newj2len bst.
  induction js as [|j js IH]; intros newj2len bst Hnew Hbest; simpl; [done|].
  assert (∀ j', j' ∈ js → ∃ x, a !! i = Some x ∧ b !! j' = Some x) as Hjs'.
  { intros j' Hj'. apply Hjs. by right. }
  destruct (Nat.ltb_spec j blo) as [Hjlo|Hjlo]; [by apply IH|].
  destruct (Nat.leb_spec bhi j) as [Hjhi|Hjhi]; [done|].
  set (k := match j with 0 => 0 | S j' => default 0 (j2len !! j') end + 1).
  assert (1 ≤ k ∧ alo + k ≤ S i ∧ blo + k ≤ j + 1
          ∧ Difflib.block_matches a b (S i - k) (j + 1 - k) k) as (Hk1 & Hka & Hkb & Hkm).
  { assert (∃ x, a !! i = Some x ∧ b !! j = Some x) as Hij by (apply Hjs; left).
    assert (Difflib.block_matches a b i j 1) as Hone.
    { intros t Ht. replace t with 0 by lia. by rewrite !Nat.add_0_r. }
    subst k. destruct j as [|j'].
    { split_and!; try lia. eapply block_matches_ext; [exact Hone|lia..]. }
    destruct (j2len !! j') as [k'|] eqn:Hk'; cbn [default from_option]; unfold id.
    - destruct (Hprev j' k' Hk') as (? & ? & ? & ? & Hm).
      split_and!; try lia.
      eapply block_matches_ext; [apply block_matches_snoc; [exact Hm|]|lia..].
      replace (i - k' + k') with i by lia.
      by replace (j' + 1 - k' + k') with (S j') by lia.
    - split_and!; try lia. eapply block_matches_ext; [exact Hone|lia..]. }
  apply IH; [done| |].
  - intros j0 k0. destruct (decide (j = j0)) as [<-|Hne].
    + rewrite lookup_insert_eq. intros [= <-]. split_and!; try done; lia.
    + rewrite lookup_insert_ne by done. apply Hnew.
  - destruct (Nat.ltb_spec (Difflib.bestsize bst) k); [|done]. simpl.
    unfold Difflib.block_in_window. split_and!; try lia.
    by replace (i + 1 - k) with (S i - k) by lia.
Qed.

Lemma scan_rows_ok b2j :
  (∀ elt js j, b2j !! elt = Some js → j ∈ js → b !! j = Some elt) →
  let bst := Difflib.scan_rows a b2j alo ahi blo bhi in
  Difflib.block_in_window a b alo ahi blo bhi
    (Difflib.besti bst) (Difflib.bestj bst) (Difflib.bestsize bst).
Proof.
  intros Hb2j. cbv zeta. unfold Difflib.scan_rows.
  assert (∀ n s st,
            alo ≤ s → s + n = ahi →
            Difflib.row_ok a b alo blo bhi s (fst st) →
            Difflib.block_in_window a b alo ahi blo bhi
              (Difflib.besti (snd st)) (Difflib.bestj (snd st))
              (Difflib.bestsize (snd st)) →
            let bst := snd (fold_left
                        (λ '(j2len, bst) i,
                           let js := match a !! i with
                                     | Some elt => default [] (b2j !! elt)
                                     | None => []
                                     end in
                           Difflib.scan_row j2len i blo bhi js ∅ bst)
                        (seq s n) st) in
            Difflib.block_in_window a b alo ahi blo bhi
              (Difflib.besti bst) (Difflib.bestj bst) (Difflib.bestsize bst)) as Hfold.
  { induction n as [|n IH]; intros s [j2len bst] Hs Hn Hrow Hbest; simpl; [done|].
    simpl in Hrow, Hbest.
    pose proof (scan_row_ok j2len s
                  (match a !! s with
                   | Some elt => default [] (b2j !! elt)
                   | None => []
                   end) ∅ bst) as Hstep.
    destruct (Difflib.scan_row _ _ _ _ _ _ _) as [m bst'].
    destruct Hstep as [Hm Hb']; [lia|lia| |exact Hrow| |exact Hbest|].
    - intros j Hj. destruct (a !! s) as [elt|] eqn:Hs'; [|by apply elem_of_nil in Hj].
      destruct (b2j !! elt) as [js|] eqn:Hjs; simpl in Hj; [|by apply elem_of_nil in Hj].
      exists elt. split; [done|]. by apply (Hb2j elt js).
    - intros j k. by rewrite lookup_empty.
    - apply IH; [lia|lia|exact Hm|exact Hb']. }
  apply Hfold; [lia|lia| |].
  - intros j k. simpl. by rewrite lookup_empty.
  - unfold Difflib.block_in_window. simpl. split_and!; try lia. intros t Ht. lia.
Qed.

Lemma extend_left_ok i j k :
  Difflib.block_in_window a b alo ahi blo bhi i j k →
  let bst := Difflib.extend_left a b alo blo i j k in
  Difflib.block_in_window a b alo ahi blo bhi
    (Difflib.besti bst) (Difflib.bestj bst) (Difflib.bestsize bst).
Proof.
  revert j k. induction i as [|i IH]; intros [|j] k Hok; cbv zeta;
    cbn [Difflib.extend_left]; try done.
  destruct (Nat.ltb_spec alo (S i)) as [Ha|Ha]; cbn [andb]; [|done].
  destruct (Nat.ltb_spec blo (S j)) as [Hb|Hb]; cbn [andb]; [|done].
  destruct (Difflib.same_at a b i j) eqn:Hsame; [|done].
  apply IH. destruct Hok as (? & ? & ? & ? & Hm).
  unfold Difflib.block_in_window. split_and!; try lia.
  apply block_matches_cons; [|done]. by apply same_at_true.
Qed.

Lemma extend_right_ok i j room k :
  Difflib.block_in_window a b alo ahi blo bhi i j k →
  Difflib.block_in_window a b alo ahi blo bhi i j
    (Difflib.extend_right a b ahi bhi i j room k).
Proof.
  revert k. induction room as [|room IH]; intros k Hok;
    cbn [Difflib.extend_right]; [done|].
  destruct (Nat.ltb_spec (i + k) ahi) as [Ha|Ha]; cbn [andb]; [|done].
  destruct (Nat.ltb_spec (j + k) bhi) as [Hb|Hb]; cbn [andb]; [|done].
  destruct (Difflib.same_at a b (i + k) (j + k)) eqn:Hsame; [|done].
  apply IH. destruct Hok as (? & ? & ? & ? & Hm).
  unfold Difflib.block_in_window. split_and!; try lia.
  apply block_matches_snoc; [done|]. by apply same_at_true.
Qed.

(** [find_longest_match] returns a matching block of the window. *)
Lemma find_longest_match_ok b2j :
  (∀ elt js j, b2j !! elt = Some js → j ∈ js → b !! j = Some elt) →
  let '(i, j, k) := Difflib.find_longest_match a b b2j alo ahi blo bhi in
  Difflib.block_in_window a b alo ahi blo bhi i j k.
Proof.
  intros Hb2j. unfold Difflib.find_longest_match.
  apply extend_right_ok.
  pose proof (extend_left_ok _ _ _ (scan_rows_ok b2j Hb2j)) as H.
  cbv zeta in H. exact H.
Qed.

End Window.

Lemma apart_sym x y : Difflib.apart x y → Difflib.apart y x.
Proof. unfold Difflib.apart. tauto. Qed.

Lemma apart_inside w x y :
  Difflib.apart w x → Difflib.inside y w → Difflib.apart y x.
Proof.
  destruct w as [[[? ?] ?] ?], x as [[[? ?] ?] ?], y as [[[? ?] ?] ?].
  unfold Difflib.apart, Difflib.before, Difflib.inside. lia.
Qed.

Lemma all_apart_snoc l x :
  Difflib.all_apart l → Forall (λ y, Difflib.apart y x) l → Difflib.all_apart (l ++ [x]).
Proof.
  induction l as [|y l IH]; simpl; [done|].
  intros [Hy Hl] [Hyx Hlx]%Forall_cons. split; [|by apply IH].
  apply Forall_app. split; [done|]. by apply Forall_singleton.
Qed.

Lemma all_apart_app_l l1 l2 : Difflib.all_apart (l1 ++ l2) → Difflib.all_apart l2.
Proof. induction l1 as [|x l1 IH]; simpl; [done|]. intros [_ ?]. by apply IH. Qed.

(** The work list of [get_matching_blocks] empties within the bound, and the
    blocks it collects are not empty, match, and lie apart from each other. *)
Lemma matching_loop_ok b2j fuel queue blocks :
  (∀ elt js j, b2j !! elt = Some js → j ∈ js → b !! j = Some elt) →
  Difflib.queue_measure queue ≤ fuel →
  Forall (λ '(alo, ahi, blo, bhi), alo ≤ ahi ∧ blo ≤ bhi) queue →
  Forall (λ '(i, j, k), 1 ≤ k ∧ Difflib.block_matches a b i j k) blocks →
  Difflib.all_apart (queue ++ map Difflib.block_rect blocks) →
  ∃ found,
    Difflib.matching_loop a b b2j fuel queue blocks = Some found
    ∧ Forall (λ '(i, j, k), 1 ≤ k ∧ Difflib.block_matches a b i j k) found
    ∧ Difflib.all_apart (map Difflib.block_rect found).
Proof.
  intros Hb2j. revert queue blocks.
  induction fuel as [|fuel IH]; intros queue blocks Hfuel Hwf Hblocks Hapart.
  { destruct queue as [|[[[alo ahi] blo] bhi] queue]; simpl in *; [eauto|lia]. }
  destruct queue as [|[[[alo ahi] blo] bhi] queue]; [simpl in *; eauto|].
  cbn [Difflib.matching_loop].
  apply Forall_cons in Hwf as [[Hawin Hbwin] Hwf].
  pose proof (find_longest_match_ok alo ahi blo bhi Hawin Hbwin b2j Hb2j) as Hflm.
  destruct (Difflib.find_longest_match a b b2j alo ahi blo bhi) as [[i j] k].
  destruct Hflm as (Hi & Hik & Hj & Hjk & Hmatch).
  simpl in Hfuel. simpl in Hapart. destruct Hapart as [Hw Hrest].
  destruct (Nat.eqb_spec k 0) as [->|Hk].
  { apply IH; [lia|done|done|done]. }
  set (w := (alo, ahi, blo, bhi)) in *.
  set (blocks' := blocks ++ [(i, j, k)]).
  assert (Forall (λ '(i, j, k), 1 ≤ k ∧ Difflib.block_matches a b i j k) blocks')
    as Hblocks'.
  { apply Forall_app. split; [done|]. apply Forall_singleton. split; [lia|done]. }
  assert (Difflib.all_apart (queue ++ map Difflib.block_rect blocks')) as Hrest'.
  { subst blocks'. rewrite map_app, app_assoc. apply all_apart_snoc; [done|].
    eapply Forall_impl; [exact Hw|]. intros x Hx. apply apart_sym.
    apply (apart_inside w); [done|]. subst w. simpl. lia. }
  assert (∀ y, Difflib.inside y w →
            Forall (Difflib.apart y) (queue ++ map Difflib.block_rect blocks)) as Hsub.
  { intros y Hy. eapply Forall_impl; [exact Hw|]. intros x Hx.
    by apply (apart_inside w). }
  destruct (Nat.ltb_spec alo i) as [Hli|Hli];
    destruct (Nat.ltb_spec blo j) as [Hlj|Hlj];
    destruct (Nat.ltb_spec (i + k) ahi) as [Hri|Hri];
    destruct (Nat.ltb_spec (j + k) bhi) as [Hrj|Hrj]; cbn [andb];
    (apply IH; [simpl; lia| |exact Hblocks'|]);
    repeat (apply Forall_cons; split); try done; try lia;
    simpl; split_and?; try exact Hrest';
    repeat match goal with
           | |- Forall _ (_ :: _) => apply Forall_cons; split
           | |- Forall _ (_ ++ map _ blocks') =>
               subst blocks'; rewrite map_app, app_assoc; apply Forall_app; split;
               [apply Hsub; subst w; simpl; lia|apply Forall_singleton]
           | |- Difflib.apart _ _ =>
               unfold Difflib.apart, Difflib.before; simpl; lia
           end.
Qed.

(** [get_matching_blocks] does not run out of iterations. *)
Lemma matching_loop_terminates :
  is_Some (Difflib.matching_loop a b (Difflib.chain_b b) (2 * length a + 1)
             [(0, length a, 0, length b)] []).
Proof.
  destruct (matching_loop_ok (Difflib.chain_b b) (2 * length a + 1)
              [(0, length a, 0, length b)] []) as (found & -> & _);
    [apply chain_b_sound|simpl; lia|apply Forall_singleton; lia|constructor
    |by split|done].
Qed.

Lemma insert_block_elem x l y :
  y ∈ Difflib.insert_block x l ↔ y = x ∨ y ∈ l.
Proof.
  induction l as [|z l IH]; simpl.
  - rewrite list_elem_of_singleton. split; [by left|].
    intros [?|?%elem_of_nil]; done.
  - destruct (Difflib.block_leb x z).
    + by rewrite elem_of_cons.
    + rewrite !elem_of_cons, IH. tauto.
Qed.

Lemma sort_blocks_elem l y : y ∈ Difflib.sort_blocks l ↔ y ∈ l.
Proof.
  induction l as [|x l IH]; simpl; [done|].
  rewrite insert_block_elem, elem_of_cons, IH. tauto.
Qed.

(** Inserting a block that lies apart from blocks in ascending order keeps
    them in ascending order. *)
Lemma insert_block_ascending x l :
  1 ≤ snd x →
  Forall (λ y, 1 ≤ snd y) l →
  Forall (λ y, Difflib.apart (Difflib.block_rect x) (Difflib.block_rect y)) l →
  Difflib.ascending (map Difflib.block_rect l) →
  Difflib.ascending (map Difflib.block_rect (Difflib.insert_block x l)).
Proof.
  intros Hx. induction l as [|y l IH]; intros Hl Hxl Hasc; simpl.
  { split; [constructor|done]. }
  apply Forall_cons in Hl as [Hy Hl]. apply Forall_cons in Hxl as [Hxy Hxl].
  simpl in Hasc. destruct Hasc as [Hyl Hasc].
  destruct x as [[xi xj] xk], y as [[yi yj] yk]. simpl in Hx, Hy.
  destruct (Difflib.block_leb (xi, xj, xk) (yi, yj, yk)) eqn:Hleb; simpl.
  - assert (Difflib.before (Difflib.block_rect (xi, xj, xk))
              (Difflib.block_rect (yi, yj, yk))) as Hbefore.
    { destruct Hxy as [?|Hyx]; [done|]. simpl in Hyx, Hleb.
      destruct (Nat.ltb_spec xi yi), (Nat.eqb_spec xi yi); simpl in Hleb; lia. }
    split_and!; try done.
    apply Forall_cons. split; [done|].
    rewrite Forall_fmap in Hyl. rewrite Forall_fmap.
    eapply Forall_impl; [exact Hyl|]. intros [[zi zj] zk] Hz.
    simpl in Hz, Hbefore |- *. lia.
  - assert (Difflib.before (Difflib.block_rect (yi, yj, yk))
              (Difflib.block_rect (xi, xj, xk))) as Hbefore.
    { destruct Hxy as [Hxy|?]; [|done]. simpl in Hxy, Hleb.
      destruct (Nat.ltb_spec xi yi), (Nat.eqb_spec xi yi); simpl in Hleb; lia. }
    split; [|by apply IH].
    rewrite Forall_fmap, Forall_forall. intros z Hz.
    apply (proj1 (insert_block_elem _ _ _)) in Hz as [->|Hz]; [done|].
    rewrite Forall_fmap, Forall_forall in Hyl. by apply Hyl.
Qed.

Lemma all_apart_cons_blocks x l :
  Difflib.all_apart (map Difflib.block_rect (x :: l)) →
  Forall (λ y, Difflib.apart (Difflib.block_rect x) (Difflib.block_rect y)) l
  ∧ Difflib.all_apart (map Difflib.block_rect l).
Proof. simpl. intros [H ?]. split; [|done]. by rewrite Forall_fmap in H. Qed.

(** Sorting blocks that lie apart from each other puts them in ascending
    order. *)
Lemma sort_blocks_ascending l :
  Forall (λ y, 1 ≤ snd y) l →
  Difflib.all_apart (map Difflib.block_rect l) →
  Difflib.ascending (map Difflib.block_rect (Difflib.sort_blocks l)).
Proof.
  induction l as [|x l IH]; intros Hl Hapart; [done|].
  apply Forall_cons in Hl as [Hx Hl].
  apply all_apart_cons_blocks in Hapart as [Hxl Hapart].
  simpl. apply insert_block_ascending; [done| | |by apply IH].
  - rewrite Forall_forall. intros y Hy. apply (proj1 (sort_blocks_elem _ _)) in Hy.
    by apply (proj1 (Forall_forall _ _) Hl).
  - rewrite Forall_forall. intros y Hy. apply (proj1 (sort_blocks_elem _ _)) in Hy.
    by apply (proj1 (Forall_forall _ _) Hxl).
Qed.

Lemma chained_weaken i0 j0 i0' j0' blocks :
  i0' ≤ i0 → j0' ≤ j0 →
  Difflib.chained a b i0 j0 blocks → Difflib.chained a b i0' j0' blocks.
Proof.
  destruct blocks as [|[[i j] k] rest]; simpl; [done|].
  intros ? ? (? & ? & ? & ?). split_and!; try done; lia.
Qed.

(** Matching blocks that are not empty, in ascending order, are chained. *)
Lemma ascending_chained blocks :
  Forall (λ '(i, j, k), 1 ≤ k ∧ Difflib.block_matches a b i j k) blocks →
  Difflib.ascending (map Difflib.block_rect blocks) →
  Difflib.chained a b 0 0 blocks.
Proof.
  assert (∀ i0 j0,
            Forall (λ '(i, j, k), 1 ≤ k ∧ Difflib.block_matches a b i j k) blocks →
            Difflib.ascending (map Difflib.block_rect blocks) →
            Forall (λ '(i, j, k), i0 ≤ i ∧ j0 ≤ j) blocks →
            Difflib.chained a b i0 j0 blocks) as Hgen.
  { induction blocks as [|[[i j] k] rest IH]; intros i0 j0 Hm Hasc Hfrom; simpl;
      [done|].
    apply Forall_cons in Hm as [[Hk Hm] Hrest].
    apply Forall_cons in Hfrom as [[? ?] _].
    simpl in Hasc. destruct Hasc as [Hbefore Hasc].
    split_and!; try done. apply IH; [done|done|].
    rewrite Forall_fmap in Hbefore.
    eapply Forall_impl; [exact Hbefore|]. by intros [[i' j'] k']. }
  intros Hm Hasc. apply Hgen; [done|done|].
  rewrite Forall_forall. intros [[i j] k] _. lia.
Qed.

Lemma block_matches_in_range i j k :
  1 ≤ k → Difflib.block_matches a b i j k → i + k ≤ length a ∧ j + k ≤ length b.
Proof.
  intros Hk Hm. destruct (Hm (k - 1)) as (x & Ha & Hb); [lia|].
  apply lookup_lt_Some in Ha, Hb. lia.
Qed.

(** Merging the adjacent blocks of a chain and closing it with the sentinel
    gives a chain. *)
Lemma collapse_chained i0 j0 i1 j1 k1 blocks :
  i0 ≤ i1 → j0 ≤ j1 →
  i1 + k1 ≤ length a → j1 + k1 ≤ length b →
  Difflib.block_matches a b i1 j1 k1 →
  Forall (λ y, 1 ≤ snd y) blocks →
  Difflib.chained a b (i1 + k1) (j1 + k1) blocks →
  Difflib.chained a b i0 j0
    (Difflib.collapse i1 j1 k1 blocks ++ [(length a, length b, 0)]).
Proof.
  revert i0 j0 i1 j1 k1.
  induction blocks as [|[[i2 j2] k2] rest IH];
    intros i0 j0 i1 j1 k1 Hi Hj Hla Hlb Hm Hk Hchain; simpl.
  { assert (Difflib.block_matches a b (length a) (length b) 0) by (intros t ?; lia).
    destruct (Nat.eqb_spec k1 0); simpl; split_and!; try done; lia. }
  apply Forall_cons in Hk as [Hk2 Hk]. simpl in Hk2.
  destruct Hchain as (Hi2 & Hj2 & Hm2 & Hchain).
  destruct (block_matches_in_range i2 j2 k2 Hk2 Hm2) as [Hla2 Hlb2].
  destruct (Nat.eqb_spec (i1 + k1) i2) as [Hadj1|Hadj1];
    [destruct (Nat.eqb_spec (j1 + k1) j2) as [Hadj2|Hadj2]|]; simpl.
  - apply IH; try done; try lia.
    + apply block_matches_app; [done|]. by subst.
    + eapply chained_weaken; [| |exact Hchain]; lia.
  - assert (Difflib.chained a b (i1 + k1) (j1 + k1)
              (Difflib.collapse i2 j2 k2 rest ++ [(length a, length b, 0)])) as Htail.
    { apply IH; try done; lia. }
    destruct (Nat.eqb_spec k1 0); simpl; [|done].
    eapply chained_weaken; [| |exact Htail]; lia.
  - assert (Difflib.chained a b (i1 + k1) (j1 + k1)
              (Difflib.collapse i2 j2 k2 rest ++ [(length a, length b, 0)])) as Htail.
    { apply IH; try done; lia. }
    destruct (Nat.eqb_spec k1 0); simpl; [|done].
    eapply chained_weaken; [| |exact Htail]; lia.
Qed.

(** The matching blocks of [get_matching_blocks]: a chain from the start of
    both sequences that ends with the sentinel. *)
Lemma get_matching_blocks_chained :
  Difflib.chained a b 0 0 (Difflib.get_matching_blocks a b)
  ∧ last (Difflib.get_matching_blocks a b) = Some (length a, length b, 0).
Proof.
  unfold Difflib.get_matching_blocks. split; [|apply last_snoc].
  destruct (matching_loop_ok (Difflib.chain_b b) (2 * length a + 1)
              [(0, length a, 0, length b)] []) as (found & -> & Hfound & Hapart);
    [apply chain_b_sound|simpl; lia|apply Forall_singleton; lia|constructor
    |by split|].
  simpl.
  assert (Forall (λ y, 1 ≤ snd y) found) as Hk.
  { eapply Forall_impl; [exact Hfound|]. by intros [[i j] k] [? _]. }
  pose proof (sort_blocks_ascending found Hk Hapart) as Hasc.
  assert (Forall (λ '(i, j, k), 1 ≤ k ∧ Difflib.block_matches a b i j k)
            (Difflib.sort_blocks found)) as Hsorted.
  { rewrite Forall_forall. intros y Hy. apply (proj1 (sort_blocks_elem _ _)) in Hy.
    by apply (proj1 (Forall_forall _ _) Hfound). }
  apply collapse_chained; try lia.
  - intros t ?. lia.
  - eapply Forall_impl; [exact Hsorted|]. by intros [[i j] k] [? _].
  - by apply ascending_chained.
Qed.

(** The opcodes built from a chain that ends with the sentinel cover both
    sequences. *)
Lemma opcodes_from_tiles blocks i j :
  Difflib.chained a b i j blocks →
  last blocks = Some (length a, length b, 0) →
  Difflib.tiles a b i j (Difflib.opcodes_from i j blocks).
Proof.
  revert i j. induction blocks as [|[[ai bj] size] rest IH]; intros i j Hchain Hlast;
    [done|].
  destruct Hchain as (Hi & Hj & Hm & Hchain).
  assert (Difflib.tiles a b (ai + size) (bj + size)
            (Difflib.opcodes_from (ai + size) (bj + size) rest)) as Htail.
  { destruct rest as [|y rest'].
    - injection Hlast as -> -> ->. simpl. lia.
    - apply IH; [done|]. by rewrite last_cons_cons in Hlast. }
  assert (Difflib.tiles a b ai bj
            ((if size =? 0 then [] else [(Difflib.Equal, ai, ai + size, bj, bj + size)])
               ++ Difflib.opcodes_from (ai + size) (bj + size) rest)) as Hsame.
  { destruct (Nat.eqb_spec size 0) as [->|Hsize]; cbn [app].
    - rewrite !Nat.add_0_r in Htail |- *. exact Htail.
    - cbn [Difflib.tiles]. split_and!; try done; try lia.
      eapply block_matches_ext; [exact Hm|lia..]. }
  cbn [Difflib.opcodes_from].
  destruct (Nat.ltb_spec i ai) as [Hia|Hia], (Nat.ltb_spec j bj) as [Hjb|Hjb];
    cbn [andb app]; cbn [Difflib.tiles]; try (split_and!; try done; lia).
  replace i with ai by lia. replace j with bj by lia. exact Hsame.
Qed.

(** The opcodes of [get_opcodes] cover both sequences from their starts. *)
Lemma get_opcodes_tiles : Difflib.tiles a b 0 0 (Difflib.get_opcodes a b).
Proof.
  unfold Difflib.get_opcodes.
  destruct get_matching_blocks_chained as [Hchain Hlast].
  by apply opcodes_from_tiles.
Qed.

End MatcherFacts.

(** ** [difflib]: the diff is a diff *)
Section PatchFacts.

Local Open Scope nat_scope.

Variables a b : list string.

Lemma block_matches_take i j k :
  Difflib.block_matches a b i j k → take k (drop i a) = take k (drop j b).
Proof.
  intros Hm. apply list_eq. intros t.
  destruct (decide (t < k)) as [Ht|Ht].
  - rewrite !lookup_take_lt, !lookup_drop by done.
    destruct (Hm t Ht) as (x & -> & ->). done.
  - rewrite !lookup_take_ge by lia. done.
Qed.

Lemma block_matches_length i j k :
  Difflib.block_matches a b i j k → 1 ≤ k → i + k ≤ length a ∧ j + k ≤ length b.
Proof.
  intros Hm Hk. destruct (Hm (k - 1)) as (x & Ha & Hb); [lia|].
  apply lookup_lt_Some in Ha, Hb. lia.
Qed.

Lemma drop_split (l : list string) i i' :
  i ≤ i' → drop i l = take (i' - i) (drop i l) ++ drop i' l.
Proof.
  intros Hi. rewrite <- (take_drop (i' - i) (drop i l)) at 1.
  rewrite drop_drop. by replace (i + (i' - i)) with i' by lia.
Qed.

Lemma slice_app (l : list string) i1 i2 i3 :
  i1 ≤ i2 → i2 ≤ i3 →
  Difflib.slice l i1 i2 ++ Difflib.slice l i2 i3 = Difflib.slice l i1 i3.
Proof.
  intros H12 H23. unfold Difflib.slice.
  replace (drop i2 l) with (drop (i2 - i1) (drop i1 l))
    by (rewrite drop_drop; f_equal; lia).
  rewrite take_take_drop. f_equal. lia.
Qed.

Lemma slice_length (l : list string) i1 i2 :
  i2 ≤ length l → length (Difflib.slice l i1 i2) = i2 - i1.
Proof. intros ?. unfold Difflib.slice. rewrite length_take, length_drop. lia. Qed.

Lemma slice_empty (l : list string) i : Difflib.slice l i i = [].
Proof. unfold Difflib.slice. by rewrite Nat.sub_diag. Qed.

(** Opcodes that cover the sequences stay inside them. *)
Lemma tiles_le ops i j :
  Difflib.tiles a b i j ops → i ≤ length a ∧ j ≤ length b.
Proof.
  revert i j. induction ops as [|[[[[t i1] i2] j1] j2] rest IH]; intros i j; simpl.
  - lia.
  - intros (_ & _ & ? & ? & _ & Hrest). apply IH in Hrest. lia.
Qed.

Lemma removed_app es1 es2 :
  UnifiedDiff.removed (es1 ++ es2) = UnifiedDiff.removed es1 + UnifiedDiff.removed es2.
Proof. unfold UnifiedDiff.removed. by rewrite filter_app, length_app. Qed.

Lemma added_app es1 es2 :
  UnifiedDiff.added (es1 ++ es2) = UnifiedDiff.added es1 + UnifiedDiff.added es2.
Proof. unfold UnifiedDiff.added. by rewrite filter_app, length_app. Qed.

Lemma removed_map_Remove (xs : list string) :
  UnifiedDiff.removed (map UnifiedDiff.Remove xs) = length xs
  ∧ UnifiedDiff.added (map UnifiedDiff.Remove xs) = 0.
Proof.
  unfold UnifiedDiff.removed, UnifiedDiff.added.
  induction xs as [|x xs [IH1 IH2]]; [done|].
  simpl. rewrite !filter_cons. simpl. by rewrite IH1, IH2.
Qed.

Lemma added_map_Add (xs : list string) :
  UnifiedDiff.added (map UnifiedDiff.Add xs) = length xs
  ∧ UnifiedDiff.removed (map UnifiedDiff.Add xs) = 0.
Proof.
  unfold UnifiedDiff.removed, UnifiedDiff.added.
  induction xs as [|x xs [IH1 IH2]]; [done|].
  simpl. rewrite !filter_cons. simpl. by rewrite IH1, IH2.
Qed.

Lemma apply_body_app es1 es2 old new1 rest1 new2 rest2 :
  UnifiedDiff.apply_body es1 old = Some (new1, rest1) →
  UnifiedDiff.apply_body es2 rest1 = Some (new2, rest2) →
  UnifiedDiff.apply_body (es1 ++ es2) old = Some (new1 ++ new2, rest2).
Proof.
  revert old new1. induction es1 as [|[line|line] es1 IH]; intros old new1; simpl.
  - by intros [= <- <-].
  - destruct old as [|x old]; [done|]. destruct (String.eqb x line); [|done]. apply IH.
  - destruct (UnifiedDiff.apply_body es1 old) as [[n r]|] eqn:H1; simpl; [|done].
    intros [= <- <-] H2. by rewrite (IH old n H1 H2).
Qed.

Lemma apply_body_remove (l : list string) n :
  n ≤ length l →
  UnifiedDiff.apply_body (map UnifiedDiff.Remove (take n l)) l = Some ([], drop n l).
Proof.
  revert l. induction n as [|n IH]; intros [|x l] Hn; simpl in *; try done; try lia.
  rewrite String.eqb_refl. apply IH. lia.
Qed.

Lemma apply_body_add (xs old : list string) :
  UnifiedDiff.apply_body (map UnifiedDiff.Add xs) old = Some (xs, old).
Proof. induction xs as [|x xs IH]; simpl; [done|]. by rewrite IH. Qed.

(** The edits of an opcode that changes lines, applied where it starts. *)
Lemma apply_opcode_edits t i i2 j j2 :
  i ≤ i2 → i2 ≤ length a → j ≤ j2 → j2 ≤ length b →
  match t with
  | Difflib.Equal => i2 = i ∧ j2 = j
  | Difflib.Delete => j2 = j
  | Difflib.Insert => i2 = i
  | Difflib.Replace => True
  end →
  UnifiedDiff.apply_body (UnifiedDiff.opcode_edits a b (t, i, i2, j, j2)) (drop i a)
  = Some (Difflib.slice b j j2, drop i2 a)
  ∧ UnifiedDiff.removed (UnifiedDiff.opcode_edits a b (t, i, i2, j, j2)) = i2 - i
  ∧ UnifiedDiff.added (UnifiedDiff.opcode_edits a b (t, i, i2, j, j2)) = j2 - j.
Proof.
  intros Hi Hi2 Hj Hj2 Ht.
  assert (UnifiedDiff.apply_body (map UnifiedDiff.Remove (Difflib.slice a i i2)) (drop i a)
          = Some ([], drop i2 a)) as Hrem.
  { unfold Difflib.slice. rewrite apply_body_remove by (rewrite length_drop; lia).
    rewrite drop_drop. do 3 f_equal. lia. }
  pose proof (removed_map_Remove (Difflib.slice a i i2)) as [Hr1 Hr2].
  pose proof (added_map_Add (Difflib.slice b j j2)) as [Ha1 Ha2].
  rewrite slice_length in Hr1, Ha1 by done.
  destruct t; simpl.
  - split_and!.
    + by rewrite (apply_body_app _ _ _ _ _ _ _ Hrem (apply_body_add _ _)).
    + rewrite removed_app. lia.
    + rewrite added_app. lia.
  - subst j2. rewrite slice_empty. split_and!; try done; lia.
  - subst i2. rewrite apply_body_add. split_and!; try done; lia.
  - destruct Ht as [-> ->]. rewrite slice_empty.
    unfold UnifiedDiff.removed, UnifiedDiff.added. simpl. split_and!; try done; lia.
Qed.

(** Lines that are the same in both files may be skipped before patching. *)
Lemma patch_from_gap p q i j hunks :
  p ≤ i → q ≤ j → i - p = j - q → i ≤ length a →
  Difflib.block_matches a b p q (i - p) →
  UnifiedDiff.patch_from i j (drop i a) hunks = Some (drop j b) →
  UnifiedDiff.patch_from p q (drop p a) hunks = Some (drop q b).
Proof.
  intros Hp Hq Hpq Hi Hm.
  pose proof (block_matches_take p q (i - p) Hm) as Htake.
  pose proof (drop_split a p i Hp) as Ha.
  pose proof (drop_split b q j Hq) as Hb.
  destruct hunks as [|h hunks]; simpl.
  { intros [= Heq]. f_equal. rewrite Ha, Hb, Htake, Hpq. by f_equal. }
  destruct (Nat.leb_spec i (UnifiedDiff.old_start h)) as [Hs|]; [|done].
  destruct (Nat.leb_spec (UnifiedDiff.old_start h - i) (length (drop i a)))
    as [Hlen|]; [|done].
  destruct (Nat.eqb_spec (j + (UnifiedDiff.old_start h - i)) (UnifiedDiff.new_start h))
    as [Hn|]; [|done].
  destruct (UnifiedDiff.removed (UnifiedDiff.body h) =? UnifiedDiff.old_len h);
    [|done].
  destruct (UnifiedDiff.added (UnifiedDiff.body h) =? UnifiedDiff.new_len h);
    [|done].
  rewrite length_drop in Hlen.
  destruct (Nat.leb_spec p (UnifiedDiff.old_start h)); [|lia].
  destruct (Nat.leb_spec (UnifiedDiff.old_start h - p) (length (drop p a)))
    as [|Hbad]; [|rewrite length_drop in Hbad; lia].
  destruct (Nat.eqb_spec (q + (UnifiedDiff.old_start h - p)) (UnifiedDiff.new_start h));
    [|lia].
  cbn [andb]. rewrite !drop_drop.
  replace (p + (UnifiedDiff.old_start h - p)) with (UnifiedDiff.old_start h) by lia.
  replace (i + (UnifiedDiff.old_start h - i)) with (UnifiedDiff.old_start h) by lia.
  destruct (UnifiedDiff.apply_body _ _) as [[new rest]|]; simpl; [|done].
  destruct (UnifiedDiff.patch_from _ _ rest hunks) as [tail|]; simpl; [|done].
  intros [= Heq]. f_equal. rewrite Hb, <- Heq, <- Hpq, <- Htake.
  replace (UnifiedDiff.old_start h - p) with ((i - p) + (UnifiedDiff.old_start h - i))
    by lia.
  rewrite <- take_take_drop, drop_drop.
  replace (p + (i - p)) with i by lia. by rewrite <- app_assoc.
Qed.

(** The hunk of a finished group, followed by hunks that patch the rest. *)
Lemma patch_emit group i j hunks :
  group ≠ [] →
  UnifiedDiff.pending a b group i j →
  UnifiedDiff.patch_from i j (drop i a) hunks = Some (drop j b) →
  UnifiedDiff.patch_from (fst (UnifiedDiff.group_start group i j))
    (snd (UnifiedDiff.group_start group i j))
    (drop (fst (UnifiedDiff.group_start group i j)) a)
    (UnifiedDiff.group_hunk a b group :: hunks)
  = Some (drop (snd (UnifiedDiff.group_start group i j)) b).
Proof.
  intros Hne (Hi & Hj & Hg) Htail.
  destruct group as [|[[[[t gi] x] gj] y] group']; [done|].
  destruct Hg as (Hgi & Hgj & (t' & x' & y' & Hlast) & Hbody & Hrem & Hadd).
  unfold UnifiedDiff.group_hunk. rewrite Hlast.
  cbn [UnifiedDiff.group_start fst snd UnifiedDiff.patch_from UnifiedDiff.old_start
       UnifiedDiff.old_len UnifiedDiff.new_start UnifiedDiff.new_len UnifiedDiff.body].
  rewrite Hrem, Hadd, Nat.sub_diag, Nat.add_0_r, !Nat.eqb_refl, Nat.leb_refl.
  cbn [andb]. rewrite drop_0, take_0, Hbody. cbn [mbind option_bind app].
  replace (gi + (i - gi)) with i by lia. replace (gj + (j - gj)) with j by lia.
  rewrite Htail. cbn [mbind option_bind]. f_equal.
  rewrite (drop_split b gj j Hgj). done.
Qed.

Lemma flat_map_snoc {A B} (f : A → list B) (l : list A) (x : A) :
  flat_map f (l ++ [x]) = flat_map f l ++ f x.
Proof. rewrite flat_map_app. simpl. by rewrite app_nil_r. Qed.

(** Appending to the group an opcode that starts where the group ends. *)
Lemma pending_snoc group t i i2 j j2 :
  UnifiedDiff.pending a b group i j →
  i ≤ i2 → i2 ≤ length a → j ≤ j2 → j2 ≤ length b →
  match t with
  | Difflib.Equal => i2 = i ∧ j2 = j
  | Difflib.Delete => j2 = j
  | Difflib.Insert => i2 = i
  | Difflib.Replace => True
  end →
  UnifiedDiff.pending a b (group ++ [(t, i, i2, j, j2)]) i2 j2
  ∧ UnifiedDiff.group_start (group ++ [(t, i, i2, j, j2)]) i2 j2
    = UnifiedDiff.group_start group i j.
Proof.
  intros (Hi & Hj & Hg) Hi2 Hla Hj2 Hlb Ht.
  destruct (apply_opcode_edits t i i2 j j2 Hi2 Hla Hj2 Hlb Ht) as (Hop & Hrem & Hadd).
  destruct group as [|[[[[t0 gi] x] gj] y] group'].
  - split; [|done]. unfold UnifiedDiff.pending. cbn [app flat_map].
    rewrite app_nil_r. split_and!; try done. by exists t, i, j.
  - destruct Hg as (Hgi & Hgj & _ & Hbody0 & Hrem0 & Hadd0).
    split; [|done]. unfold UnifiedDiff.pending.
    cbn [app]. split_and!; try done; try lia.
    + change ((t0, gi, x, gj, y) :: group' ++ [(t, i, i2, j, j2)])
        with (((t0, gi, x, gj, y) :: group') ++ [(t, i, i2, j, j2)]).
      rewrite last_snoc. eauto.
    + change ((t0, gi, x, gj, y) :: group' ++ [(t, i, i2, j, j2)])
        with (((t0, gi, x, gj, y) :: group') ++ [(t, i, i2, j, j2)]).
      rewrite flat_map_snoc.
      erewrite apply_body_app; [|exact Hbody0|exact Hop].
      by rewrite slice_app.
    + change ((t0, gi, x, gj, y) :: group' ++ [(t, i, i2, j, j2)])
        with (((t0, gi, x, gj, y) :: group') ++ [(t, i, i2, j, j2)]).
      rewrite flat_map_snoc, removed_app.
      change (UnifiedDiff.removed
                (flat_map (UnifiedDiff.opcode_edits a b) ((t0, gi, x, gj, y) :: group'))
              = i - gi) in Hrem0.
      lia.
    + change ((t0, gi, x, gj, y) :: group' ++ [(t, i, i2, j, j2)])
        with (((t0, gi, x, gj, y) :: group') ++ [(t, i, i2, j, j2)]).
      rewrite flat_map_snoc, added_app.
      change (UnifiedDiff.added
                (flat_map (UnifiedDiff.opcode_edits a b) ((t0, gi, x, gj, y) :: group'))
              = j - gj) in Hadd0.
      lia.
Qed.

(** The end of the grouping loop, where the rest of both files is the
    same. *)
Lemma patch_last_group group i j :
  UnifiedDiff.pending a b group i j →
  drop i a = drop j b →
  UnifiedDiff.patch_from (fst (UnifiedDiff.group_start group i j))
    (snd (UnifiedDiff.group_start group i j))
    (drop (fst (UnifiedDiff.group_start group i j)) a)
    (map (UnifiedDiff.group_hunk a b) (Difflib.group_loop 0 [] group))
  = Some (drop (snd (UnifiedDiff.group_start group i j)) b).
Proof.
  intros Hpending Hrest.
  assert (UnifiedDiff.patch_from i j (drop i a) [] = Some (drop j b)) as Hnil
    by (simpl; by rewrite Hrest).
  assert (group ≠ [] →
          UnifiedDiff.patch_from (fst (UnifiedDiff.group_start group i j))
            (snd (UnifiedDiff.group_start group i j))
            (drop (fst (UnifiedDiff.group_start group i j)) a)
            [UnifiedDiff.group_hunk a b group]
          = Some (drop (snd (UnifiedDiff.group_start group i j)) b)) as Hemit.
  { intros Hne. by apply patch_emit. }
  destruct group as [|[[[[t gi] x] gj] y] [|op group']].
  - simpl. by rewrite Hrest.
  - destruct t; try (by apply Hemit).
    destruct Hpending as (_ & _ & Hgi & Hgj & _ & _ & Hrem & Hadd).
    unfold UnifiedDiff.removed, UnifiedDiff.added in Hrem, Hadd. simpl in Hrem, Hadd.
    simpl. replace gi with i by lia. replace gj with j by lia. by rewrite Hrest.
  - destruct t; by apply Hemit.
Qed.

Lemma trim_last_cons n c c' rest :
  Difflib.trim_last n (c :: c' :: rest) = c :: Difflib.trim_last n (c' :: rest).
Proof. by destruct c as [[[[[] ?] ?] ?] ?]. Qed.

(** The grouping loop over opcodes that cover the files from [(i, j)] on:
    the hunks of the groups it yields patch [a], from the start of the group
    being built, into [b]. *)
Lemma patch_group_loop ops i j group :
  Difflib.tiles a b i j ops →
  UnifiedDiff.pending a b group i j →
  UnifiedDiff.patch_from (fst (UnifiedDiff.group_start group i j))
    (snd (UnifiedDiff.group_start group i j))
    (drop (fst (UnifiedDiff.group_start group i j)) a)
    (map (UnifiedDiff.group_hunk a b)
       (Difflib.group_loop 0 (Difflib.trim_last 0 ops) group))
  = Some (drop (snd (UnifiedDiff.group_start group i j)) b).
Proof.
  revert i j group.
  induction ops as [|[[[[t i1] i2] j1] j2] rest IH]; intros i j group Htiles Hpending.
  { destruct Htiles as [-> ->]. apply patch_last_group; [done|].
    by rewrite !drop_ge. }
  destruct Htiles as (-> & -> & Hi2 & Hj2 & Ht & Hrest).
  destruct (tiles_le _ _ _ Hrest) as [Hla Hlb].
  assert (t = Difflib.Equal → drop i a = take (i2 - i) (drop i a) ++ drop i2 a
                              ∧ drop j b = take (i2 - i) (drop i a) ++ drop j2 b
                              ∧ i2 - i = j2 - j
                              ∧ Difflib.block_matches a b i j (i2 - i)) as Hequal.
  { intros ->. destruct Ht as [Hlen Hm]. split_and!; try done.
    - by apply drop_split.
    - rewrite (block_matches_take _ _ _ Hm), Hlen. by apply drop_split. }
  assert (∀ t', t' = t → i2 - i = 0 ∨ t ≠ Difflib.Equal →
            match t' with
            | Difflib.Equal => i2 = i ∧ j2 = j
            | Difflib.Delete => j2 = j
            | Difflib.Insert => i2 = i
            | Difflib.Replace => True
            end) as Hkind.
  { intros t' -> Hk. destruct t; try done.
    destruct Hk as [Hk|?]; [|done]. destruct Ht as [? _]. lia. }
  destruct rest as [|c' rest'].
  - (* the last opcode *)
    destruct Hrest as [-> ->].
    destruct (decide (t = Difflib.Equal)) as [->|Hne].
    + destruct (Hequal eq_refl) as (Ha & Hb & Hlen & Hm).
      cbn [Difflib.trim_last Difflib.group_loop Difflib.is_equal andb].
      replace (Nat.min (length a) (i + 0)) with i by lia.
      replace (Nat.min (length b) (j + 0)) with j by lia.
      rewrite Nat.sub_diag. cbn [Nat.ltb Nat.leb Nat.add].
      destruct Hpending as (Hi & Hj & Hg).
      destruct (pending_snoc group Difflib.Equal i i j j) as [Hp' Hs'];
        [by split_and!|lia..|done|].
      rewrite <- Hs'. apply patch_last_group; [done|].
      rewrite Ha, Hb. f_equal. by rewrite !drop_ge.
    + destruct (pending_snoc group t i (length a) j (length b)) as [Hp' Hs'];
        [done|lia..|by apply Hkind; [|right]|].
      rewrite <- Hs'.
      destruct t; [| | |done];
        (apply (patch_last_group _ _ _ Hp'); by rewrite !drop_ge).
  - rewrite trim_last_cons. cbn [Difflib.group_loop].
    destruct (decide (t = Difflib.Equal ∧ 0 < i2 - i)) as [[-> Hlong]|Hshort].
    + (* a run of equal lines closes the group *)
      destruct (Hequal eq_refl) as (Ha & Hb & Hlen & Hm).
      cbn [Difflib.is_equal andb Nat.add].
      destruct (Nat.ltb_spec 0 (i2 - i)) as [_|]; [|lia].
      replace (Nat.min i2 (i + 0)) with i by lia.
      replace (Nat.min j2 (j + 0)) with j by lia.
      replace (Nat.max i (i2 - 0)) with i2 by lia.
      replace (Nat.max j (j2 - 0)) with j2 by lia.
      cbn [map].
      destruct (pending_snoc group Difflib.Equal i i j j) as [Hp' Hs'];
        [done|lia..|done|].
      rewrite <- Hs'. apply patch_emit; [by destruct group|done|].
      apply (patch_from_gap i j i2 j2); [lia..|done|].
      destruct (pending_snoc [] Difflib.Equal i2 i2 j2 j2) as [Hp2 _];
        [by split_and!|lia..|done|].
      apply (IH i2 j2 [(Difflib.Equal, i2, i2, j2, j2)] Hrest Hp2).
    + (* the opcode joins the group *)
      assert (Difflib.is_equal t && (0 + 0 <? i2 - i) = false) as ->.
      { destruct t; try done. simpl. apply Nat.ltb_ge.
        destruct (decide (0 < i2 - i)); [|lia]. by destruct Hshort. }
      destruct (pending_snoc group t i i2 j j2) as [Hp' Hs']; [done|lia..| |].
      { apply Hkind; [done|]. destruct (decide (t = Difflib.Equal)); [|by right].
        left. destruct (decide (0 < i2 - i)); [|lia]. by destruct Hshort. }
      rewrite <- Hs'. by apply IH.
Qed.

(** The hunks of the groups of opcodes that cover both files patch [a] into
    [b]. *)
Lemma patch_grouped ops :
  Difflib.tiles a b 0 0 ops →
  UnifiedDiff.patch a (map (UnifiedDiff.group_hunk a b) (Difflib.grouped 0 ops)) = Some b.
Proof.
  intros Htiles. unfold UnifiedDiff.patch, Difflib.grouped.
  destruct ops as [|[[[[t i1] i2] j1] j2] rest].
  - destruct Htiles as [Ha Hb].
    symmetry in Ha, Hb. apply nil_length_inv in Ha, Hb. by rewrite Ha, Hb.
  - destruct Htiles as (-> & -> & Hi2 & Hj2 & Ht & Hrest).
    destruct (tiles_le _ _ _ Hrest) as [Hla Hlb].
    assert (UnifiedDiff.pending a b [] 0 0) as Hp0 by (split_and!; [lia|lia|done]).
    assert (Difflib.tiles a b 0 0 ((t, 0, i2, 0, j2) :: rest)) as Htiles
      by by split_and!.
    destruct t; [exact (patch_group_loop _ 0 0 [] Htiles Hp0)..|].
    cbn beta iota in Ht. destruct Ht as [Hlen Hm].
    cbn [Difflib.trim_first].
    replace (Nat.max 0 (i2 - 0)) with i2 by lia.
    replace (Nat.max 0 (j2 - 0)) with j2 by lia.
    apply (patch_from_gap 0 0 i2 j2); [lia..|done|].
    apply (patch_group_loop ((Difflib.Equal, i2, i2, j2, j2) :: rest) i2 j2 []).
    + simpl. split_and!; try done; try lia. intros k Hk. lia.
    + by split_and!.
Qed.

(** ** The text of the hunks *)

Lemma format_range_unified_len start stop :
  Difflib.format_range_unified start (start + (stop - start))
  = Difflib.format_range_unified start stop.
Proof.
  unfold Difflib.format_range_unified.
  by replace (start + (stop - start) - start) with (stop - start) by lia.
Qed.

Lemma flat_map_render group :
  UnifiedDiff.no_context group →
  flat_map (Difflib.opcode_lines a b) group
  = map UnifiedDiff.render_edit (flat_map (UnifiedDiff.opcode_edits a b) group).
Proof.
  induction 1 as [|[[[[t i1] i2] j1] j2] group Hc _ IH]; [done|].
  cbn [flat_map]. rewrite List.map_app, <- IH. f_equal.
  destruct t; simpl; rewrite ?List.map_app, ?List.map_map; try done.
  unfold Difflib.slice. by rewrite Hc.
Qed.

Lemma group_lines_render group :
  group ≠ [] → UnifiedDiff.no_context group →
  Difflib.group_lines a b newline group
  = UnifiedDiff.render_hunk (UnifiedDiff.group_hunk a b group).
Proof.
  intros Hne Hc. unfold Difflib.group_lines, UnifiedDiff.group_hunk.
  destruct (proj2 (last_is_Some group) Hne) as [[[[[tl l1] l2] l3] l4] Hlast].
  destruct group as [|[[[[t f1] f2] f3] f4] rest]; [done|].
  rewrite Hlast.
  unfold UnifiedDiff.render_hunk. cbn [UnifiedDiff.old_start UnifiedDiff.old_len
    UnifiedDiff.new_start UnifiedDiff.new_len UnifiedDiff.body].
  by rewrite !format_range_unified_len, flat_map_render.
Qed.

(** Every group the grouping loop yields without context has an opcode, and
    its [equal] opcodes are empty. *)
Lemma group_loop_no_context codes group :
  UnifiedDiff.no_context group →
  Forall (λ g, g ≠ [] ∧ UnifiedDiff.no_context g) (Difflib.group_loop 0 codes group).
Proof.
  revert group. induction codes as [|[[[[t i1] i2] j1] j2] rest IH]; intros group Hc.
  - destruct group as [|[[[[[] ?] ?] ?] ?] [|? ?]]; simpl;
      try apply Forall_nil_2; by apply Forall_singleton.
  - cbn [Difflib.group_loop].
    destruct (Difflib.is_equal t && (0 + 0 <? i2 - i1)) eqn:Hlong.
    + apply andb_prop in Hlong as [Ht _]. destruct t; try done.
      constructor.
      * split; [by destruct group|].
        apply Forall_app; split; [done|]. apply Forall_singleton. intros _. lia.
      * apply IH. apply Forall_singleton. intros _. lia.
    + apply IH. apply Forall_app; split; [done|]. apply Forall_singleton.
      intros ->. simpl in Hlong. apply Nat.ltb_ge in Hlong. lia.
Qed.

(** The output of [unified_diff] with no context is the text of the hunks of
    its groups. *)
Lemma unified_diff_render :
  Difflib.unified_diff a b "a" "b" "" "" 0 newline = UnifiedDiff.render (UnifiedDiff.hunks a b).
Proof.
  unfold Difflib.unified_diff, UnifiedDiff.hunks, Difflib.get_grouped_opcodes, Difflib.grouped.
  pose proof (group_loop_no_context
    (Difflib.trim_last 0 (Difflib.trim_first 0
       match Difflib.get_opcodes a b with
       | [] => [(Difflib.Equal, 0, 1, 0, 1)]
       | _ => Difflib.get_opcodes a b
       end)) [] (Forall_nil_2 _)) as Hgroups.
  cbv zeta. set (groups := Difflib.group_loop _ _ _) in *. clearbody groups.
  assert (flat_map (Difflib.group_lines a b newline) groups
          = flat_map UnifiedDiff.render_hunk (map (UnifiedDiff.group_hunk a b) groups))
    as Hlines.
  { induction Hgroups as [|g groups [Hne Hc] _ IH]; [done|].
    cbn [flat_map map]. by rewrite IH, group_lines_render. }
  destruct groups as [|g groups]; [done|].
  unfold UnifiedDiff.render. rewrite <- Hlines. reflexivity.
Qed.

(** The hunks [difflib] computes are a diff between the two files. *)
Lemma hunks_valid : UnifiedDiff.valid a b (UnifiedDiff.hunks a b).
Proof. apply patch_grouped, get_opcodes_tiles. Qed.

End PatchFacts.

(** ** Characters and bytes *)
Section ByteFacts.

Local Open Scope nat_scope.

Lemma utf8_length_append s1 s2 :
  UnifiedDiff.utf8_length (String.append s1 s2)
  = UnifiedDiff.utf8_length s1 + UnifiedDiff.utf8_length s2.
Proof. induction s1 as [|c s1 IH]; simpl; [done|]. rewrite IH. lia. Qed.

Lemma utf8_length_concat (l : list string) :
  UnifiedDiff.utf8_length (String.concat "" l) = sum_list_with UnifiedDiff.utf8_length l.
Proof.
  induction l as [|x [|y l] IH]; [done|simpl; lia|].
  change (String.concat "" (x :: y :: l))
    with (String.append x (String.append "" (String.concat "" (y :: l)))).
  rewrite !utf8_length_append, IH. simpl. lia.
Qed.

Lemma sum_list_with_elem {A} (w : A → nat) (l : list A) x :
  x ∈ l → w x ≤ sum_list_with w l.
Proof.
  intros (l1 & l2 & ->)%list_elem_of_split.
  rewrite sum_list_with_app. simpl. lia.
Qed.

Lemma sum_list_with_two {A} (w : A → nat) (l : list A) x y :
  x ∈ l → y ∈ l → x ≠ y → w x + w y ≤ sum_list_with w l.
Proof.
  intros (l1 & l2 & ->)%list_elem_of_split Hy Hne.
  rewrite sum_list_with_app. simpl.
  apply elem_of_app in Hy as [Hy|Hy].
  - pose proof (sum_list_with_elem w _ _ Hy). lia.
  - apply elem_of_cons in Hy as [->|Hy]; [done|].
    pose proof (sum_list_with_elem w _ _ Hy). lia.
Qed.

Lemma sum_list_with_map {A B} (f : A → B) (w : B → nat) (l : list A) :
  sum_list_with w (map f l) = sum_list_with (λ x, w (f x)) l.
Proof. induction l as [|x l IH]; simpl; [done|]. by rewrite IH. Qed.

(** The text of a hunk takes at least 10 bytes besides its edits. *)
Lemma render_hunk_bytes (h : UnifiedDiff.hunk) :
  10 + sum_list_with (λ e, UnifiedDiff.utf8_length (UnifiedDiff.render_edit e))
                     (UnifiedDiff.body h)
  ≤ sum_list_with UnifiedDiff.utf8_length (UnifiedDiff.render_hunk h).
Proof.
  unfold UnifiedDiff.render_hunk. cbn [sum_list_with].
  rewrite utf8_length_concat, sum_list_with_map. cbn [sum_list_with].
  change (UnifiedDiff.utf8_length "@@ -") with 4.
  change (UnifiedDiff.utf8_length " +") with 2.
  change (UnifiedDiff.utf8_length " @@") with 3.
  change (UnifiedDiff.utf8_length (String "010"%char "")) with 1.
  lia.
Qed.

Lemma render_bytes (hs : list UnifiedDiff.hunk) :
  10 * length hs
  + sum_list_with (λ e, UnifiedDiff.utf8_length (UnifiedDiff.render_edit e))
                  (UnifiedDiff.all_edits hs)
  ≤ sum_list_with UnifiedDiff.utf8_length (flat_map UnifiedDiff.render_hunk hs).
Proof.
  induction hs as [|h hs IH]; [done|].
  unfold UnifiedDiff.all_edits in *. cbn [flat_map length].
  rewrite !sum_list_with_app.
  pose proof (render_hunk_bytes h). lia.
Qed.

(** The text of a diff with a hunk takes the 12 bytes of the two file lines,
    10 for a hunk line, and the bytes of its edits, at least. *)
Lemma byte_size_bound (hs : list UnifiedDiff.hunk) :
  hs ≠ [] →
  22 + sum_list_with (λ e, UnifiedDiff.utf8_length (UnifiedDiff.render_edit e))
                     (UnifiedDiff.all_edits hs)
  ≤ UnifiedDiff.byte_size hs.
Proof.
  intros Hne. unfold UnifiedDiff.byte_size, UnifiedDiff.render.
  destruct hs as [|h hs]; [done|].
  rewrite utf8_length_concat. cbn [sum_list_with].
  pose proof (render_bytes (h :: hs)) as H. cbn [length] in H.
  change (UnifiedDiff.utf8_length (String.append "--- a" (String "010"%char "")))
    with 6.
  change (UnifiedDiff.utf8_length (String.append "+++ b" (String "010"%char "")))
    with 6.
  lia.
Qed.

Lemma apply_body_lines es old new rest :
  UnifiedDiff.apply_body es old = Some (new, rest) →
  (∀ x, x ∈ old → x ∈ rest ∨ UnifiedDiff.Remove x ∈ es)
  ∧ (∀ y, y ∈ new → UnifiedDiff.Add y ∈ es)
  ∧ (∀ x, x ∈ rest → x ∈ old).
Proof.
  revert old new rest. induction es as [|[line|line] es IH]; intros old new rest; simpl.
  - intros [= <- <-]. split_and!; [by left| |done]. by intros y ?%elem_of_nil.
  - destruct old as [|x old]; [done|].
    destruct (String.eqb x line) eqn:Heq; [|done].
    apply String.eqb_eq in Heq as ->. intros Happly.
    destruct (IH _ _ _ Happly) as (Hold & Hnew & Hrest). split_and!.
    + intros x [->|Hx]%elem_of_cons; [right; left|].
      destruct (Hold x Hx) as [?|?]; [by left|right; by right].
    + intros y Hy. right. by apply Hnew.
    + intros x Hx. right. by apply Hrest.
  - destruct (UnifiedDiff.apply_body es old) as [[new' rest']|] eqn:Happly; [|done].
    simpl. intros [= <- <-].
    destruct (IH _ _ _ Happly) as (Hold & Hnew & Hrest). split_and!.
    + intros x Hx. destruct (Hold x Hx) as [?|?]; [by left|right; by right].
    + intros y [->|Hy]%elem_of_cons; [left|right; by apply Hnew].
    + done.
Qed.

Lemma patch_from_lines pos npos old hs new :
  UnifiedDiff.patch_from pos npos old hs = Some new →
  (∀ x, x ∈ old → x ∈ new ∨ UnifiedDiff.Remove x ∈ UnifiedDiff.all_edits hs)
  ∧ (∀ y, y ∈ new → y ∈ old ∨ UnifiedDiff.Add y ∈ UnifiedDiff.all_edits hs).
Proof.
  revert pos npos old new. induction hs as [|h hs IH]; intros pos npos old new; simpl.
  - intros [= <-]. split; intros; by left.
  - destruct (_ && _); [|done].
    destruct (UnifiedDiff.apply_body (UnifiedDiff.body h)
                (drop (UnifiedDiff.old_start h - pos) old))
      as [[added rest]|] eqn:Happly; [|done]. simpl.
    destruct (UnifiedDiff.patch_from _ _ rest hs) as [tail|] eqn:Hpatch; [|done]. simpl.
    intros [= <-].
    destruct (apply_body_lines _ _ _ _ Happly) as (Hold & Hnew & Hrest).
    destruct (IH _ _ _ _ Hpatch) as (Hold' & Hnew').
    unfold UnifiedDiff.all_edits in *. cbn [flat_map]. split.
    + intros x Hx. rewrite <- (take_drop (UnifiedDiff.old_start h - pos) old) in Hx.
      apply elem_of_app in Hx as [Hx|Hx].
      { left. apply elem_of_app. by left. }
      destruct (Hold x Hx) as [Hr|Hr].
      * destruct (Hold' x Hr) as [?|?].
        -- left. rewrite !elem_of_app. by right; right.
        -- right. apply elem_of_app. by right.
      * right. apply elem_of_app. by left.
    + intros y Hy. rewrite !elem_of_app in Hy.
      rewrite <- (take_drop (UnifiedDiff.old_start h - pos) old) at 1.
      rewrite !elem_of_app. destruct Hy as [Hy|[Hy|Hy]].
      * left. by left.
      * right. left. by apply Hnew.
      * destruct (Hnew' y Hy) as [Hr|?].
        -- left. right. by apply Hrest.
        -- right. by right.
Qed.

(** A diff between two files holds every line of the old file that the new
    one lacks, as a removal, and every line of the new file that the old one
    lacks, as an addition. *)
Lemma valid_edits old new hs :
  UnifiedDiff.valid old new hs →
  (∀ x, x ∈ old → x ∉ new → UnifiedDiff.Remove x ∈ UnifiedDiff.all_edits hs)
  ∧ (∀ y, y ∈ new → y ∉ old → UnifiedDiff.Add y ∈ UnifiedDiff.all_edits hs).
Proof.
  intros [Hold Hnew]%patch_from_lines. split.
  - intros x Hx Hnot. by destruct (Hold x Hx).
  - intros y Hy Hnot. by destruct (Hnew y Hy).
Qed.

Lemma ascii_only_append s1 s2 :
  UnifiedDiff.ascii_only (String.append s1 s2)
  = UnifiedDiff.ascii_only s1 && UnifiedDiff.ascii_only s2.
Proof.
  unfold UnifiedDiff.ascii_only. induction s1 as [|c s1 IH]; simpl; [done|].
  by rewrite IH, andb_assoc.
Qed.

Lemma ascii_only_concat (l : list string) :
  forallb UnifiedDiff.ascii_only l = true →
  UnifiedDiff.ascii_only (String.concat "" l) = true.
Proof.
  induction l as [|x [|y l] IH]; [done| |].
  - simpl. by rewrite andb_true_r.
  - change (String.concat "" (x :: y :: l))
      with (String.append x (String.append "" (String.concat "" (y :: l)))).
    intros [Hx Hl]%andb_prop. rewrite !ascii_only_append, Hx, (IH Hl). done.
Qed.

(** An ASCII text takes as many bytes as characters. *)
Lemma ascii_only_length s :
  UnifiedDiff.ascii_only s = true → UnifiedDiff.utf8_length s = String.length s.
Proof.
  unfold UnifiedDiff.ascii_only. induction s as [|c s IH]; simpl; [done|].
  intros [Hc Hs]%andb_prop. unfold UnifiedDiff.utf8_bytes. rewrite Hc, (IH Hs). done.
Qed.

Lemma ascii_only_digits (d : Decimal.uint) :
  UnifiedDiff.ascii_only (NilZero.string_of_uint d) = true.
Proof.
  assert (∀ d', UnifiedDiff.ascii_only (NilEmpty.string_of_uint d') = true) as Hdigits
    by (induction d'; done).
  destruct d; try done; apply (Hdigits (_ d)).
Qed.

Lemma ascii_only_range start stop :
  UnifiedDiff.ascii_only (Difflib.format_range_unified start stop) = true.
Proof.
  unfold Difflib.format_range_unified, Difflib.format_nat.
  destruct (_ =? 1); [apply ascii_only_digits|].
  by rewrite !ascii_only_append, !ascii_only_digits.
Qed.

Lemma ascii_only_render (hs : list UnifiedDiff.hunk) :
  Forall (λ e, UnifiedDiff.ascii_only (UnifiedDiff.edit_line e) = true)
         (UnifiedDiff.all_edits hs) →
  UnifiedDiff.ascii_only (String.concat "" (UnifiedDiff.render hs)) = true.
Proof.
  intros Hlines. apply ascii_only_concat. unfold UnifiedDiff.render.
  destruct hs as [|h0 hs0]; [done|]. set (hs := h0 :: hs0) in *. clearbody hs.
  cbn [forallb]. change (UnifiedDiff.ascii_only (String.append "--- a" _)) with true.
  change (UnifiedDiff.ascii_only (String.append "+++ b" _)) with true. cbn [andb].
  induction hs as [|h hs IH]; [done|].
  unfold UnifiedDiff.all_edits in *. cbn [flat_map] in *.
  apply Forall_app in Hlines as [Hh Hhs].
  rewrite forallb_app, (IH Hhs), andb_true_r.
  unfold UnifiedDiff.render_hunk. cbn [forallb]. apply andb_true_intro. split.
  - apply ascii_only_concat. cbn [forallb]. by rewrite !ascii_only_range.
  - apply forallb_forall. intros line (e & <- & He)%in_map_iff.
    apply list_elem_of_In in He. rewrite Forall_forall in Hh. specialize (Hh e He).
    destruct e; simpl in *; by rewrite ascii_only_append, Hh.
Qed.

(** A diff whose lines are ASCII takes as many bytes as characters. *)
Lemma byte_size_ascii (hs : list UnifiedDiff.hunk) :
  Forall (λ e, UnifiedDiff.ascii_only (UnifiedDiff.edit_line e) = true)
         (UnifiedDiff.all_edits hs) →
  UnifiedDiff.byte_size hs = UnifiedDiff.size hs.
Proof. intros H. by apply ascii_only_length, ascii_only_render. Qed.

Lemma slice_elem {A} (l : list A) i1 i2 x : x ∈ Difflib.slice l i1 i2 → x ∈ l.
Proof.
  unfold Difflib.slice. intros Hx.
  rewrite <- (take_drop i1 l). apply elem_of_app. right.
  rewrite <- (take_drop (i2 - i1) (drop i1 l)). apply elem_of_app. by left.
Qed.

(** The diff of [difflib] removes lines of [a] and adds lines of [b]. *)
Lemma hunks_edits (a b : list string) e :
  e ∈ UnifiedDiff.all_edits (UnifiedDiff.hunks a b) →
  (∃ x, e = UnifiedDiff.Remove x ∧ x ∈ a) ∨ (∃ y, e = UnifiedDiff.Add y ∧ y ∈ b).
Proof.
  unfold UnifiedDiff.all_edits, UnifiedDiff.hunks. intros He%list_elem_of_In.
  apply in_flat_map in He as (h & Hh & He). apply in_map_iff in Hh as (group & <- & _).
  unfold UnifiedDiff.group_hunk in He.
  destruct group as [|[[[[t f1] f2] f3] f4] rest]; [done|].
  destruct (last _) as [[[[[tl l1] l2] l3] l4]|]; [|done].
  cbn [UnifiedDiff.body] in He.
  apply in_flat_map in He as ([[[[t' i1] i2] j1] j2] & _ & He).
  apply list_elem_of_In in He. unfold UnifiedDiff.opcode_edits in He.
  destruct t'; rewrite ?elem_of_app, ?list_elem_of_fmap in He.
  - destruct He as [(x & -> & Hx)|(y & -> & Hy)].
    + left. exists x. split; [done|]. by eapply slice_elem.
    + right. exists y. split; [done|]. by eapply slice_elem.
  - destruct He as (x & -> & Hx). left. exists x. split; [done|]. by eapply slice_elem.
  - destruct He as (y & -> & Hy). right. exists y. split; [done|]. by eapply slice_elem.
  - by apply elem_of_nil in He.
Qed.

End ByteFacts.

Section DiffFacts.

(** C9. For two mails whose bodies can be read, the content difference
    compared with [content_threshold] is the length of the text of a
    line-level unified diff without context between the two normalized
    bodies: the diff that [difflib] builds from its matching blocks, which
    turns the first body into the second when it is applied.  The length is
    the one [len] gives for a [str], a number of characters. *)
Theorem diff_is_size_of_valid_diff (mail_a mail_b : Mail.t) (a b : list string) :
  Mail.body_lines mail_a = Some a →
  Mail.body_lines mail_b = Some b →
  DuplicateSet.diff mail_a mail_b = Some (Z.of_nat (UnifiedDiff.size (UnifiedDiff.hunks a b)))
  ∧ UnifiedDiff.valid a b (UnifiedDiff.hunks a b).
Proof.
  intros Ha Hb. split; [|apply hunks_valid].
  unfold DuplicateSet.diff. rewrite Ha, Hb. cbn [mbind option_bind].
  by rewrite unified_diff_render.
Qed.

Lemma diff_is_size_of_valid_diff_example :
  DuplicateSet.diff Example.hello Example.hello_copy
  = Some (Z.of_nat (UnifiedDiff.size
            (UnifiedDiff.hunks [Example.line "Hello,"; Example.line "world"]
                               [Example.line "Hello,"; Example.line "world!"])))
  ∧ UnifiedDiff.valid [Example.line "Hello,"; Example.line "world"]
      [Example.line "Hello,"; Example.line "world!"]
      (UnifiedDiff.hunks [Example.line "Hello,"; Example.line "world"]
                         [Example.line "Hello,"; Example.line "world!"]).
Proof.
  apply (diff_is_size_of_valid_diff Example.hello Example.hello_copy); reflexivity.
Defined.

(** On bodies of ASCII characters, the content difference is the number of
    bytes of that diff. *)
Lemma diff_is_byte_size_on_ascii (mail_a mail_b : Mail.t) (a b : list string) :
  Mail.body_lines mail_a = Some a →
  Mail.body_lines mail_b = Some b →
  Forall (λ line, UnifiedDiff.ascii_only line = true) a →
  Forall (λ line, UnifiedDiff.ascii_only line = true) b →
  DuplicateSet.diff mail_a mail_b
  = Some (Z.of_nat (UnifiedDiff.byte_size (UnifiedDiff.hunks a b))).
Proof.
  intros Ha Hb Hasc_a Hasc_b.
  unfold DuplicateSet.diff. rewrite Ha, Hb. cbn [mbind option_bind].
  rewrite unified_diff_render. do 2 f_equal. symmetry. apply byte_size_ascii.
  apply Forall_forall. intros e [(x & -> & Hx)|(y & -> & Hy)]%hunks_edits; simpl.
  - by apply (proj1 (Forall_forall _ _) Hasc_a).
  - by apply (proj1 (Forall_forall _ _) Hasc_b).
Qed.

(** Outside ASCII the content difference is not a number of bytes.  Between
    the bodies of [Example.accents] and [Example.no_accents], [diff] returns
    32, the number of characters of the diff, whose text takes 35 bytes; and
    no diff between the two bodies, whatever its hunks, takes 32 bytes. *)
Lemma diff_counts_characters :
  Mail.body_lines Example.accents = Some [Example.accented_line]
  ∧ Mail.body_lines Example.no_accents = Some [Example.line "e"]
  ∧ DuplicateSet.diff Example.accents Example.no_accents = Some 32
  ∧ UnifiedDiff.size
      (UnifiedDiff.hunks [Example.accented_line] [Example.line "e"]) = 32%nat
  ∧ UnifiedDiff.byte_size
      (UnifiedDiff.hunks [Example.accented_line] [Example.line "e"]) = 35%nat
  ∧ ∀ hunks,
      UnifiedDiff.valid [Example.accented_line] [Example.line "e"] hunks →
      DuplicateSet.diff Example.accents Example.no_accents
      ≠ Some (Z.of_nat (UnifiedDiff.byte_size hunks)).
Proof.
  split_and!; try (vm_compute; reflexivity).
  intros hs Hvalid.
  assert (DuplicateSet.diff Example.accents Example.no_accents = Some 32) as ->
    by (vm_compute; reflexivity).
  assert (hs ≠ []) as Hne.
  { intros ->. vm_compute in Hvalid. discriminate. }
  destruct (valid_edits _ _ _ Hvalid) as [Hrem Hadd].
  pose proof (byte_size_bound hs Hne) as Hbound.
  specialize (Hrem _ ltac:(left)). specialize (Hadd _ ltac:(left)).
  pose proof (sum_list_with_two
                (λ e, UnifiedDiff.utf8_length (UnifiedDiff.render_edit e))
                (UnifiedDiff.all_edits hs) _ _
                (Hrem ltac:(by intros [?|?%elem_of_nil]%elem_of_cons))
                (Hadd ltac:(by intros [?|?%elem_of_nil]%elem_of_cons))
                ltac:(done)) as Htwo.
  cbv beta in Htwo.
  change (UnifiedDiff.utf8_length (UnifiedDiff.render_edit (UnifiedDiff.Remove _)))
    with 8%nat in Htwo.
  change (UnifiedDiff.utf8_length (UnifiedDiff.render_edit (UnifiedDiff.Add _)))
    with 3%nat in Htwo.
  intros [= Heq]. lia.
Qed.

End DiffFacts.

(** * Further properties *)

(** ** Pairs of a pool *)
Section PairFacts.

Context {A : Type}.

Lemma elem_of_combinations2 (l : list A) x y :
  (x, y) ∈ DuplicateSet.combinations2 l
  ↔ ∃ i j, (i < j)%nat ∧ l !! i = Some x ∧ l !! j = Some y.
Proof.
  induction l as [|z l IH]; simpl.
  - split; [by intros ?%elem_of_nil|]. by intros (i & j & _ & Hi & _).
  - rewrite elem_of_app, IH. split.
    + intros [Hin|(i & j & Hij & Hi & Hj)].
      * apply list_elem_of_fmap in Hin as (y' & [= -> ->] & Hy).
        apply list_elem_of_lookup in Hy as [j Hj].
        exists 0%nat, (S j). split_and!; [lia|done|done].
      * exists (S i), (S j). split_and!; [lia|done|done].
    + intros (i & j & Hij & Hi & Hj).
      destruct j as [|j]; [lia|]. destruct i as [|i]; simplify_eq/=.
      * left. apply list_elem_of_fmap. exists y. split; [done|].
        by apply list_elem_of_lookup_2 in Hj.
      * right. exists i, j. split_and!; [lia|done|done].
Qed.

Lemma combinations2_length (l : list A) :
  (2 * length (DuplicateSet.combinations2 l) = length l * (length l - 1))%nat.
Proof.
  induction l as [|z l IH]; [done|].
  cbn [DuplicateSet.combinations2 length]. rewrite length_app, length_map. nia.
Qed.

End PairFacts.

(** ** Extremes of a list of sizes *)
Section ExtremeFacts.

Lemma fold_max_spec (l : list Z) x :
  (fold_left Z.max l x = x ∨ fold_left Z.max l x ∈ l)
  ∧ x ≤ fold_left Z.max l x
  ∧ ∀ y, y ∈ l → y ≤ fold_left Z.max l x.
Proof.
  revert x. induction l as [|z l IH]; intros x; simpl.
  - split_and!; [by left|lia|by intros y ?%elem_of_nil].
  - destruct (IH (Z.max x z)) as (Hin & Hle & Hall). split_and!.
    + destruct Hin as [Heq|Hin]; [|right; by right].
      rewrite Heq. destruct (Z.max_spec x z) as [[_ ->]|[_ ->]]; [right; by left|by left].
    + lia.
    + intros y [->|Hy]%elem_of_cons; [lia|by apply Hall].
Qed.

Lemma fold_min_spec (l : list Z) x :
  (fold_left Z.min l x = x ∨ fold_left Z.min l x ∈ l)
  ∧ fold_left Z.min l x ≤ x
  ∧ ∀ y, y ∈ l → fold_left Z.min l x ≤ y.
Proof.
  revert x. induction l as [|z l IH]; intros x; simpl.
  - split_and!; [by left|lia|by intros y ?%elem_of_nil].
  - destruct (IH (Z.min x z)) as (Hin & Hle & Hall). split_and!.
    + destruct Hin as [Heq|Hin]; [|right; by right].
      rewrite Heq. destruct (Z.min_spec x z) as [[_ ->]|[_ ->]]; [by left|right; by left].
    + lia.
    + intros y [->|Hy]%elem_of_cons; [lia|by apply Hall].
Qed.

Lemma max_of_spec (l : list Z) big :
  DuplicateSet.max_of l = Some big ↔ big ∈ l ∧ ∀ y, y ∈ l → y ≤ big.
Proof.
  destruct l as [|x l]; simpl.
  - split; [done|]. by intros [?%elem_of_nil _].
  - destruct (fold_max_spec l x) as (Hin & Hle & Hall). split.
    + intros [= <-]. split.
      * destruct Hin as [->|Hin]; [by left|by right].
      * intros y [->|Hy]%elem_of_cons; [done|by apply Hall].
    + intros [Hbig Hmax]. f_equal. apply Z.le_antisymm.
      * apply Hmax. destruct Hin as [->|Hin]; [by left|by right].
      * apply elem_of_cons in Hbig as [->|Hbig]; [done|by apply Hall].
Qed.

Lemma min_of_spec (l : list Z) small :
  DuplicateSet.min_of l = Some small ↔ small ∈ l ∧ ∀ y, y ∈ l → small ≤ y.
Proof.
  destruct l as [|x l]; simpl.
  - split; [done|]. by intros [?%elem_of_nil _].
  - destruct (fold_min_spec l x) as (Hin & Hle & Hall). split.
    + intros [= <-]. split.
      * destruct Hin as [->|Hin]; [by left|by right].
      * intros y [->|Hy]%elem_of_cons; [done|by apply Hall].
    + intros [Hsmall Hmin]. f_equal. apply Z.le_antisymm.
      * apply elem_of_cons in Hsmall as [->|Hsmall]; [done|by apply Hall].
      * apply Hmin. destruct Hin as [->|Hin]; [by left|by right].
Qed.

(** X1. [biggest_size] and [smallest_size] raise for an empty pool only;
    otherwise each is the size of a mail of the pool, and the size of every
    mail of the pool lies between the two. *)
Theorem size_extremes (ds : DuplicateSet.t) :
  match DuplicateSet.biggest_size ds, DuplicateSet.smallest_size ds with
  | Some big, Some small =>
      (∃ m, m ∈ DuplicateSet.pool ds ∧ Mail.size m = big)
      ∧ (∃ m, m ∈ DuplicateSet.pool ds ∧ Mail.size m = small)
      ∧ ∀ m, m ∈ DuplicateSet.pool ds → small ≤ Mail.size m ≤ big
  | None, None => DuplicateSet.pool ds = []
  | _, _ => False
  end.
Proof.
  unfold DuplicateSet.biggest_size, DuplicateSet.smallest_size.
  destruct (DuplicateSet.pool ds) as [|m0 pool] eqn:Hpool; [done|].
  destruct (DuplicateSet.max_of _) as [big|] eqn:Hbig; [|done].
  destruct (DuplicateSet.min_of _) as [small|] eqn:Hsmall; [|done].
  apply max_of_spec in Hbig as [Hbig Hmax]. apply min_of_spec in Hsmall as [Hsmall Hmin].
  apply list_elem_of_fmap in Hbig as (mb & -> & Hmb).
  apply list_elem_of_fmap in Hsmall as (ms & -> & Hms).
  split_and!; [by exists mb|by exists ms|].
  intros m Hm. split; [apply Hmin|apply Hmax]; apply list_elem_of_fmap; by exists m.
Qed.

End ExtremeFacts.

(** ** What [check_differences] decides *)
Section CheckFacts.

Variable conf : Config.

(** The branches of the body of the loop, one goal for each. *)
Ltac check_pair_cases a b :=
  unfold DuplicateSet.check_pair, within_thresholds, rejected_for;
  destruct (Z.gtb_spec (size_threshold conf) (-1)) as [Hs|Hs];
  destruct (Z.gtb_spec (Z.abs (Mail.size a - Mail.size b)) (size_threshold conf))
    as [Hsd|Hsd];
  destruct (Z.gtb_spec (content_threshold conf) (-1)) as [Hc|Hc];
  simpl;
  try (destruct (DuplicateSet.diff a b) as [d0|] eqn:Hdiff;
       [destruct (Z.gtb_spec d0 (content_threshold conf)) as [Hcd|Hcd]|]);
  simpl.

Lemma check_pair_passes (a b : Mail.t) :
  snd (DuplicateSet.check_pair conf a b) = None ↔ within_thresholds conf a b.
Proof.
  check_pair_cases a b;
    (split;
     [ intros Hr; simplify_eq;
       (split; [intros; lia|intros; try lia; try (eexists; split; [reflexivity|lia])])
     | intros [Hsize Hcontent];
       try specialize (Hsize ltac:(lia));
       try (destruct Hcontent as (d & Hd & Hle); [lia|]);
       simplify_eq; try done; try lia ]).
Qed.

Lemma check_pair_raises (a b : Mail.t) r :
  snd (DuplicateSet.check_pair conf a b) = Some r → rejected_for conf r a b.
Proof.
  check_pair_cases a b; intros Hr; simplify_eq; split_and?; eauto; lia.
Qed.

Lemma check_pair_log_length (a b : Mail.t) :
  snd (DuplicateSet.check_pair conf a b) = None →
  length (fst (DuplicateSet.check_pair conf a b))
  = ((if (0 <=? size_threshold conf)%Z then 1 else 0)
     + (if (0 <=? content_threshold conf)%Z then 1 else 0))%nat.
Proof.
  destruct (Z.leb_spec 0 (size_threshold conf));
    destruct (Z.leb_spec 0 (content_threshold conf));
    check_pair_cases a b; intros Hr; simplify_eq; (done || lia).
Qed.

Lemma check_pairs_passes (pairs : list (Mail.t * Mail.t)) :
  snd (DuplicateSet.check_pairs conf pairs) = None
  ↔ Forall (λ p, within_thresholds conf (fst p) (snd p)) pairs.
Proof.
  induction pairs as [|[a b] rest IH]; simpl.
  - split; [constructor|done].
  - rewrite Forall_cons. rewrite <- IH, <- check_pair_passes. simpl.
    destruct (DuplicateSet.check_pair conf a b) as [log [r|]]; simpl.
    + split; [done|]. by intros [? _].
    + destruct (DuplicateSet.check_pairs conf rest) as [log' r']. simpl.
      split; [done|]. by intros [_ ?].
Qed.

Lemma check_pairs_raises (pairs : list (Mail.t * Mail.t)) r :
  snd (DuplicateSet.check_pairs conf pairs) = Some r →
  ∃ k a b, pairs !! k = Some (a, b)
           ∧ Forall (λ p, within_thresholds conf (fst p) (snd p)) (take k pairs)
           ∧ rejected_for conf r a b.
Proof.
  induction pairs as [|[a b] rest IH]; simpl; [done|].
  pose proof (check_pair_raises a b) as Hraise.
  pose proof (check_pair_passes a b) as Hpass.
  destruct (DuplicateSet.check_pair conf a b) as [log [r0|]]; simpl in *.
  - intros [= ->]. exists 0%nat, a, b. split_and!; [done|constructor|by apply Hraise].
  - destruct (DuplicateSet.check_pairs conf rest) as [log' r']. simpl in *.
    intros Hr. destruct (IH Hr) as (k & a' & b' & Hk & Hbefore & Hrej).
    exists (S k), a', b'. split_and!; [done| |done].
    simpl. constructor; [by apply Hpass|done].
Qed.

Lemma check_pairs_log_length (pairs : list (Mail.t * Mail.t)) :
  snd (DuplicateSet.check_pairs conf pairs) = None →
  length (fst (DuplicateSet.check_pairs conf pairs))
  = (((if (0 <=? size_threshold conf)%Z then 1 else 0)
      + (if (0 <=? content_threshold conf)%Z then 1 else 0)) * length pairs)%nat.
Proof.
  induction pairs as [|[a b] rest IH]; simpl; [lia|].
  pose proof (check_pair_log_length a b) as Hlen.
  destruct (DuplicateSet.check_pair conf a b) as [log [r0|]]; simpl in *; [done|].
  destruct (DuplicateSet.check_pairs conf rest) as [log' r']. simpl in *.
  intros Hr. rewrite length_app, Hlen, IH by done. lia.
Qed.

Lemma check_differences_pairs (ds : DuplicateSet.t) :
  snd (DuplicateSet.check_differences conf ds)
  = snd (DuplicateSet.check_pairs conf (DuplicateSet.combinations2 (DuplicateSet.pool ds))).
Proof.
  unfold DuplicateSet.check_differences.
  destruct (Z.ltb_spec (size_threshold conf) 0) as [Hs|Hs];
    destruct (Z.ltb_spec (content_threshold conf) 0) as [Hc|Hc]; simpl; try done.
  symmetry. apply check_pairs_passes, Forall_forall. intros [a b] _.
  split; intros; lia.
Qed.

Lemma check_differences_passes_pairs (ds : DuplicateSet.t) :
  snd (DuplicateSet.check_differences conf ds) = None
  ↔ ∀ i j a b, (i < j)%nat →
      DuplicateSet.pool ds !! i = Some a → DuplicateSet.pool ds !! j = Some b →
      within_thresholds conf a b.
Proof.
  rewrite check_differences_pairs, check_pairs_passes, Forall_forall. split.
  - intros Hall i j a b Hij Hi Hj.
    apply (Hall (a, b)), elem_of_combinations2. eauto.
  - intros Hall [a b] (i & j & Hij & Hi & Hj)%elem_of_combinations2. simpl. eauto.
Qed.

(** X2. [check_differences] returns without raising exactly when every two
    mails at different places of the pool are within the enabled thresholds:
    sizes at most [size_threshold] apart, bodies readable and at most
    [content_threshold] apart. *)
Theorem check_differences_passes (ds : DuplicateSet.t) :
  snd (DuplicateSet.check_differences conf ds) = None
  ↔ ∀ i j a b, (i < j)%nat →
      DuplicateSet.pool ds !! i = Some a → DuplicateSet.pool ds !! j = Some b →
      within_thresholds conf a b.
Proof. apply check_differences_passes_pairs. Qed.

(** X3. When [check_differences] raises, some pair of the pool is rejected
    for what is raised, and every pair that [combinations] yields before it is
    within the thresholds. *)
Theorem check_differences_first_failure (ds : DuplicateSet.t) r :
  snd (DuplicateSet.check_differences conf ds) = Some r →
  ∃ k a b,
    DuplicateSet.combinations2 (DuplicateSet.pool ds) !! k = Some (a, b)
    ∧ (∀ k' a' b', (k' < k)%nat →
         DuplicateSet.combinations2 (DuplicateSet.pool ds) !! k' = Some (a', b') →
         within_thresholds conf a' b')
    ∧ rejected_for conf r a b.
Proof.
  rewrite check_differences_pairs. intros Hr.
  destruct (check_pairs_raises _ _ Hr) as (k & a & b & Hk & Hbefore & Hrej).
  exists k, a, b. split_and!; [done| |done].
  intros k' a' b' Hlt Hk'. rewrite Forall_forall in Hbefore.
  apply (Hbefore (a', b')). apply list_elem_of_lookup. exists k'.
  by rewrite lookup_take_lt.
Qed.

Lemma size_spread_within (ds : DuplicateSet.t) big small :
  DuplicateSet.biggest_size ds = Some big →
  DuplicateSet.smallest_size ds = Some small →
  (∀ i j a b, (i < j)%nat →
     DuplicateSet.pool ds !! i = Some a → DuplicateSet.pool ds !! j = Some b →
     Z.abs (Mail.size a - Mail.size b) ≤ size_threshold conf)
  ↔ big - small ≤ size_threshold conf ∨ (length (DuplicateSet.pool ds) < 2)%nat.
Proof.
  unfold DuplicateSet.biggest_size, DuplicateSet.smallest_size.
  intros [Hbig Hmax]%max_of_spec [Hsmall Hmin]%min_of_spec.
  apply list_elem_of_fmap in Hbig as (mb & -> & Hmb).
  apply list_elem_of_fmap in Hsmall as (ms & -> & Hms).
  assert (∀ m, m ∈ DuplicateSet.pool ds →
               Mail.size ms ≤ Mail.size m ≤ Mail.size mb) as Hbounds.
  { intros m Hm. split; [apply Hmin|apply Hmax]; apply list_elem_of_fmap; by exists m. }
  split.
  - intros Hall.
    apply list_elem_of_lookup in Hmb as [p Hp]. apply list_elem_of_lookup in Hms as [q Hq].
    destruct (lt_eq_lt_dec p q) as [[Hlt| ->]|Hlt].
    + left. specialize (Hall p q _ _ Hlt Hp Hq). lia.
    + simplify_eq.
      destruct (decide (length (DuplicateSet.pool ds) < 2)%nat) as [|Hlen]; [by right|].
      left.
      destruct (DuplicateSet.pool ds) as [|m0 [|m1 pool]] eqn:Hpool; simpl in Hlen; try lia.
      specialize (Hall 0%nat 1%nat m0 m1). simpl in Hall.
      assert (m0 ∈ m0 :: m1 :: pool) as Hm0 by (by left).
      assert (m1 ∈ m0 :: m1 :: pool) as Hm1 by (right; by left).
      apply Hbounds in Hm0, Hm1.
      specialize (Hall ltac:(lia) eq_refl eq_refl). lia.
    + left. specialize (Hall q p _ _ Hlt Hq Hp). lia.
  - intros [Hspread|Hlen] i j a b Hij Hi Hj.
    + apply list_elem_of_lookup_2 in Hi, Hj.
      pose proof (Hbounds a Hi). pose proof (Hbounds b Hj). lia.
    + apply lookup_lt_Some in Hj. lia.
Qed.

(** X4. A set that passes [check_differences] under an enabled size
    threshold spreads over at most that threshold: [biggest_size] minus
    [smallest_size] does not exceed [size_threshold]. *)
Theorem passing_set_size_spread (ds : DuplicateSet.t) big small :
  0 ≤ size_threshold conf →
  snd (DuplicateSet.check_differences conf ds) = None →
  DuplicateSet.biggest_size ds = Some big →
  DuplicateSet.smallest_size ds = Some small →
  big - small ≤ size_threshold conf.
Proof.
  intros Hs Hpass Hbig Hsmall.
  pose proof (proj1 (check_differences_passes_pairs ds) Hpass) as Hall.
  destruct (proj1 (size_spread_within ds big small Hbig Hsmall)) as [Hspread|Hlen];
    [|done|].
  { intros i j a b Hij Hi Hj. by apply (Hall i j a b Hij Hi Hj). }
  unfold DuplicateSet.biggest_size, DuplicateSet.smallest_size in Hbig, Hsmall.
  destruct (DuplicateSet.pool ds) as [|m0 [|m1 pool]]; simpl in *; simplify_eq; lia.
Qed.

(** X5. With content comparison disabled and size comparison enabled,
    [check_differences] raises [SizeDiffAboveThreshold] when the sizes of the
    pool spread over more than [size_threshold], and raises nothing
    otherwise. *)
Theorem size_check_is_spread (ds : DuplicateSet.t) big small :
  0 ≤ size_threshold conf →
  content_threshold conf < 0 →
  DuplicateSet.biggest_size ds = Some big →
  DuplicateSet.smallest_size ds = Some small →
  snd (DuplicateSet.check_differences conf ds)
  = if big - small >? size_threshold conf
    then Some DuplicateSet.SizeDiffAboveThreshold else None.
Proof.
  intros Hs Hc Hbig Hsmall.
  pose proof (size_spread_within ds big small Hbig Hsmall) as Hspread.
  destruct (Z.gtb_spec (big - small) (size_threshold conf)) as [Hgt|Hle].
  - destruct (snd (DuplicateSet.check_differences conf ds)) as [r|] eqn:Hr.
    + rewrite check_differences_pairs in Hr.
      destruct (check_pairs_raises _ _ Hr) as (k & a & b & _ & _ & Hrej).
      destruct r; simpl in Hrej; [lia|done|lia].
    + pose proof (proj1 (check_differences_passes_pairs ds) Hr) as Hall.
      destruct (proj1 Hspread) as [?|Hlen]; [|lia|].
      { intros i j a b Hij Hi Hj. by apply (Hall i j a b Hij Hi Hj). }
      unfold DuplicateSet.biggest_size, DuplicateSet.smallest_size in Hbig, Hsmall.
      destruct (DuplicateSet.pool ds) as [|m0 [|m1 pool]]; simpl in *; simplify_eq; lia.
  - apply check_differences_passes_pairs. intros i j a b Hij Hi Hj. split; [|lia].
    intros _. apply (proj2 Hspread (or_introl Hle) i j a b Hij Hi Hj).
Qed.

(** X6. A pool of [n] mails that passes [check_differences] was compared
    pair by pair: the log holds one record per enabled threshold for each of
    the [n (n - 1) / 2] pairs, and none when both thresholds are negative. *)
Theorem passing_set_log_length (ds : DuplicateSet.t) :
  snd (DuplicateSet.check_differences conf ds) = None →
  (2 * length (fst (DuplicateSet.check_differences conf ds))
   = ((if (0 <=? size_threshold conf)%Z then 1 else 0)
      + (if (0 <=? content_threshold conf)%Z then 1 else 0))
     * (length (DuplicateSet.pool ds) * (length (DuplicateSet.pool ds) - 1)))%nat.
Proof.
  intros Hpass. pose proof Hpass as Hpairs. rewrite check_differences_pairs in Hpairs.
  unfold DuplicateSet.check_differences.
  destruct (Z.ltb_spec (size_threshold conf) 0) as [Hs|Hs];
    destruct (Z.ltb_spec (content_threshold conf) 0) as [Hc|Hc]; cbn [andb];
    try (rewrite (check_pairs_log_length _ Hpairs);
         rewrite <- combinations2_length; lia).
  destruct (Z.leb_spec 0 (size_threshold conf)); [lia|].
  destruct (Z.leb_spec 0 (content_threshold conf)); [lia|]. done.
Qed.

End CheckFacts.

(** ** The content difference *)
Section DiffZeroFacts.

Lemma size_zero_hunks (hunks : list UnifiedDiff.hunk) :
  UnifiedDiff.size hunks = 0%nat → hunks = [].
Proof. destruct hunks as [|h hunks]; [done|]. by destruct hunks. Qed.

Lemma diff_zero_bodies (mail_a mail_b : Mail.t) :
  DuplicateSet.diff mail_a mail_b = Some 0 →
  ∃ lines, Mail.body_lines mail_a = Some lines ∧ Mail.body_lines mail_b = Some lines.
Proof.
  unfold DuplicateSet.diff.
  destruct (Mail.body_lines mail_a) as [a|]; [|done].
  destruct (Mail.body_lines mail_b) as [b|]; [|done].
  cbn [mbind option_bind]. rewrite unified_diff_render. intros [= Hlen].
  fold (UnifiedDiff.size (UnifiedDiff.hunks a b)) in Hlen.
  assert (UnifiedDiff.size (UnifiedDiff.hunks a b) = 0%nat) as Hsize by lia.
  apply size_zero_hunks in Hsize.
  pose proof (hunks_valid a b) as Hvalid. rewrite Hsize in Hvalid.
  injection Hvalid as <-. by exists a.
Qed.

(** X7. A content difference of 0 means that the two normalized bodies are
    the same lines. *)
Theorem zero_diff_same_body (mail_a mail_b : Mail.t) :
  DuplicateSet.diff mail_a mail_b = Some 0 →
  ∃ lines, Mail.body_lines mail_a = Some lines ∧ Mail.body_lines mail_b = Some lines.
Proof. apply diff_zero_bodies. Qed.

Lemma diff_nonneg (mail_a mail_b : Mail.t) d :
  DuplicateSet.diff mail_a mail_b = Some d → 0 ≤ d.
Proof.
  unfold DuplicateSet.diff.
  destruct (Mail.body_lines mail_a) as [a|]; [|done].
  destruct (Mail.body_lines mail_b) as [b|]; [|done].
  cbn [mbind option_bind]. intros [= <-]. lia.
Qed.

(** X8. Under a content threshold of 0, a set passes [check_differences]
    only if all of its mails have the same normalized body. *)
Theorem exact_content_check (conf : Config) (ds : DuplicateSet.t) (a b : Mail.t) :
  content_threshold conf = 0 →
  snd (DuplicateSet.check_differences conf ds) = None →
  a ∈ DuplicateSet.pool ds → b ∈ DuplicateSet.pool ds →
  Mail.body_lines a = Mail.body_lines b.
Proof.
  intros Hc Hpass [i Hi]%list_elem_of_lookup [j Hj]%list_elem_of_lookup.
  pose proof (proj1 (check_differences_passes_pairs conf ds) Hpass) as Hall.
  assert (∀ i j a b, (i < j)%nat →
            DuplicateSet.pool ds !! i = Some a → DuplicateSet.pool ds !! j = Some b →
            Mail.body_lines a = Mail.body_lines b) as Hsame.
  { intros i' j' a' b' Hij Hi' Hj'.
    destruct (Hall i' j' a' b' Hij Hi' Hj') as [_ Hcontent].
    destruct Hcontent as (d & Hd & Hle); [lia|].
    pose proof (diff_nonneg _ _ _ Hd). assert (d = 0) as -> by lia.
    destruct (diff_zero_bodies _ _ Hd) as (lines & -> & ->). done. }
  destruct (lt_eq_lt_dec i j) as [[Hlt| ->]|Hlt].
  - by apply (Hsame i j).
  - by simplify_eq.
  - symmetry. by apply (Hsame j i).
Qed.

End DiffZeroFacts.

(** ** What [select_candidates] returns *)
Section CandidateFacts.

Variable conf : Config.
Variable apply_strategy : string → DuplicateSet.t → list (string * string).

Lemma strategy_name_Some name :
  strategy_name conf = Some name ↔ strategy conf = Some name ∧ name ≠ "".
Proof.
  unfold strategy_name. destruct (strategy conf) as [[|c s]|]; split;
    (intros [= <-] || intros [[= <-] ?] || intros [[=] ?] || intros [=]); done.
Qed.

Lemma strategy_name_None :
  strategy_name conf = None ↔ strategy conf = None ∨ strategy conf = Some "".
Proof.
  unfold strategy_name. destruct (strategy conf) as [[|c s]|]; split;
    try done; try (by left); try (by right); by intros [?|?].
Qed.

(** The branches of [select_candidates], one goal for each. *)
Ltac select_outcomes ds :=
  unfold DuplicateSet.select_candidates;
  destruct (Z.eqb_spec (DuplicateSet.size ds) 1) as [Hone|Hone];
  [|destruct (snd (DuplicateSet.check_differences conf ds)) as [[]|] eqn:Hcheck;
    [| | |destruct (strategy_name conf) as [name|] eqn:Hname;
          [destruct (Z.eqb_spec (Z.of_nat (length (apply_strategy name ds)))
                      (DuplicateSet.size ds)) as [Hall|Hsome]|]]];
  cbn [fst snd].

(** X9. A set of several mails that [check_differences] rejects gives no
    candidate; it counts its mails as duplicates and as discarded, and itself
    once, under the counter of what was raised. *)
Theorem rejected_set_delta (ds : DuplicateSet.t) (r : DuplicateSet.raised) :
  DuplicateSet.size ds ≠ 1 →
  snd (DuplicateSet.check_differences conf ds) = Some r →
  fst (DuplicateSet.select_candidates conf apply_strategy ds) = None
  ∧ ∀ k, Counter.get (snd (DuplicateSet.select_candidates conf apply_strategy ds)) k
         = if String.eqb k "mail_duplicates" then DuplicateSet.size ds
           else if String.eqb k "mail_discarded" then DuplicateSet.size ds
           else if String.eqb k
                     match r with
                     | DuplicateSet.UnicodeDecodeError => "set_rejected_encoding"
                     | DuplicateSet.SizeDiffAboveThreshold => "set_rejected_size"
                     | DuplicateSet.ContentDiffAboveThreshold => "set_rejected_content"
                     end
                then 1
           else 0.
Proof.
  intros Hsize Hr. select_outcomes ds; simplify_eq;
    (split; [done|]; intros k; read_counters; case_keys; lia).
Qed.

(** X10. The candidates [select_candidates] returns are what the configured
    strategy selected in the set, and they are returned only for a set of
    several mails that passed [check_differences] and was not selected as a
    whole; the set then counts them as selected, the others as discarded, and
    itself as deduplicated. *)
Theorem candidates_are_strategy_selection (ds : DuplicateSet.t) c stats :
  DuplicateSet.select_candidates conf apply_strategy ds = (Some c, stats) →
  ∃ name,
    strategy conf = Some name ∧ name ≠ ""
    ∧ c = apply_strategy name ds
    ∧ DuplicateSet.size ds ≠ 1
    ∧ snd (DuplicateSet.check_differences conf ds) = None
    ∧ Z.of_nat (length c) ≠ DuplicateSet.size ds
    ∧ Counter.get stats "mail_duplicates" = DuplicateSet.size ds
    ∧ Counter.get stats "mail_selected" = Z.of_nat (length c)
    ∧ Counter.get stats "mail_discarded" = DuplicateSet.size ds - Z.of_nat (length c)
    ∧ Counter.get stats "set_deduplicated" = 1
    ∧ Counter.get stats "set_skipped" = 0.
Proof.
  select_outcomes ds; intros Hsel; simplify_eq.
  apply strategy_name_Some in Hname as [Hname Hne].
  exists name. split_and!; try done; read_counters; case_keys; lia.
Qed.

Lemma set_selected_length (ds : DuplicateSet.t) :
  Counter.get (snd (DuplicateSet.select_candidates conf apply_strategy ds)) "mail_selected"
  = Z.of_nat (length (default [] (fst (DuplicateSet.select_candidates conf apply_strategy ds)))).
Proof. select_outcomes ds; read_counters; case_keys; simpl; lia. Qed.

Lemma set_ignored_unique (ds : DuplicateSet.t) :
  Counter.get (snd (DuplicateSet.select_candidates conf apply_strategy ds)) "set_ignored"
  = Counter.get (snd (DuplicateSet.select_candidates conf apply_strategy ds)) "mail_unique".
Proof. select_outcomes ds; read_counters; case_keys; simpl; lia. Qed.

(** X11. Whatever the outcome of a set, its counters account for each of
    its mails once as unique or duplicate and once as discarded or selected;
    the mails counted as selected are the candidates returned, and a set
    counts as ignored exactly when its mail counts as unique. *)
Theorem set_mail_accounting (ds : DuplicateSet.t) :
  let '(candidates, stats) := DuplicateSet.select_candidates conf apply_strategy ds in
  Counter.get stats "mail_unique" + Counter.get stats "mail_duplicates"
  = DuplicateSet.size ds
  ∧ Counter.get stats "mail_discarded" + Counter.get stats "mail_selected"
    = DuplicateSet.size ds
  ∧ Counter.get stats "mail_selected" = Z.of_nat (length (default [] candidates))
  ∧ Counter.get stats "set_ignored" = Counter.get stats "mail_unique".
Proof.
  pose proof (set_mails_unique_or_duplicates conf apply_strategy ds) as H1.
  pose proof (set_mails_once conf apply_strategy ds) as H2.
  pose proof (set_selected_length ds) as H3.
  pose proof (set_ignored_unique ds) as H4.
  cbv zeta in H1, H2.
  by destruct (DuplicateSet.select_candidates conf apply_strategy ds) as [c stats].
Qed.

Lemma no_strategy_no_candidate (ds : DuplicateSet.t) :
  strategy_name conf = None →
  fst (DuplicateSet.select_candidates conf apply_strategy ds) = None.
Proof. intros Hnone. select_outcomes ds; by simplify_eq. Qed.

End CandidateFacts.

(** ** What [select_all] does to the state *)
Section SelectAllFacts.

Context {Box : Type}.
Variable close : Box → Box.
Variable apply_strategy : string → DuplicateSet.t → list (string * string).
Variable conf : Config.

Lemma select_loop_frame buckets (d : Deduplicate.t Box) :
  Deduplicate.mails (fold_left (Deduplicate.select_one apply_strategy conf) buckets d)
  = Deduplicate.mails d
  ∧ Deduplicate.sources (fold_left (Deduplicate.select_one apply_strategy conf) buckets d)
    = Deduplicate.sources d.
Proof.
  revert d. induction buckets as [|b buckets IH]; intros d; [done|].
  cbn [fold_left]. destruct (IH (Deduplicate.select_one apply_strategy conf d b)) as [-> ->].
  by rewrite select_one_mails, select_one_sources.
Qed.

(** X12. With no strategy configured ([None] or the empty string),
    [select_all] selects nothing: no bucket gives a candidate and the
    selection is left as it was. *)
Theorem no_strategy_selects_nothing (d : Deduplicate.t Box) :
  strategy conf = None ∨ strategy conf = Some "" →
  Deduplicate.selection (Deduplicate.select_all close apply_strategy conf d)
  = Deduplicate.selection d
  ∧ ∀ ds, fst (DuplicateSet.select_candidates conf apply_strategy ds) = None.
Proof.
  intros Hnone%strategy_name_None. split; [|intros ds; by apply no_strategy_no_candidate].
  rewrite select_all_selection.
  rewrite <- (app_nil_r (Deduplicate.selection d)) at 2. f_equal.
  induction (Deduplicate.mails d) as [|b buckets IH]; [done|].
  cbn [flat_map]. by rewrite IH, no_strategy_no_candidate.
Qed.

(** X13. [select_all] keeps the hash buckets as they are, keeps the sources
    under their paths and closes every box, and only appends to the selection:
    the candidates of each bucket, in the order of the buckets. *)
Theorem select_all_frame (d : Deduplicate.t Box) :
  let d' := Deduplicate.select_all close apply_strategy conf d in
  Deduplicate.mails d' = Deduplicate.mails d
  ∧ map fst (Deduplicate.sources d') = map fst (Deduplicate.sources d)
  ∧ map snd (Deduplicate.sources d') = map close (map snd (Deduplicate.sources d))
  ∧ Deduplicate.selection d'
    = Deduplicate.selection d
      ++ flat_map (λ b, default [] (fst (DuplicateSet.select_candidates conf apply_strategy
                                           (Deduplicate.duplicate_set b))))
                  (Deduplicate.mails d).
Proof.
  cbv zeta. split_and!; [| | |apply select_all_selection];
    unfold Deduplicate.select_all; cbv zeta;
    set (d0 := Deduplicate.with_stats _ d);
    change (Deduplicate.mails d0) with (Deduplicate.mails d);
    destruct (select_loop_frame (Deduplicate.mails d) d0) as [Hm Hs];
    cbn [Deduplicate.mails Deduplicate.sources]; [done| |]; rewrite Hs;
    change (Deduplicate.sources d0) with (Deduplicate.sources d);
    rewrite ?List.map_map; apply List.map_ext; by intros [path box].
Qed.

Lemma select_loop_selected buckets (d : Deduplicate.t Box) :
  0 ≤ Counter.get (Deduplicate.stats d) "mail_selected" →
  let d' := fold_left (Deduplicate.select_one apply_strategy conf) buckets d in
  Counter.get (Deduplicate.stats d') "mail_selected"
  - Counter.get (Deduplicate.stats d) "mail_selected"
  = Z.of_nat (length (Deduplicate.selection d'))
    - Z.of_nat (length (Deduplicate.selection d)).
Proof.
  revert d. induction buckets as [|b buckets IH]; intros d Hpos; cbv zeta.
  { simpl. lia. }
  cbn [fold_left].
  pose proof (set_selected_length conf apply_strategy (Deduplicate.duplicate_set b)) as Hlen.
  assert (Counter.get (Deduplicate.stats (Deduplicate.select_one apply_strategy conf d b))
            "mail_selected"
          = Counter.get (Deduplicate.stats d) "mail_selected"
            + Z.of_nat (length (default [] (fst (DuplicateSet.select_candidates conf
                 apply_strategy (Deduplicate.duplicate_set b)))))) as Hstep.
  { rewrite select_one_counter; [lia|done|lia]. }
  specialize (IH (Deduplicate.select_one apply_strategy conf d b)). cbv zeta in IH.
  rewrite select_one_selection, length_app in IH. lia.
Qed.

(** X14. The counter [mail_selected] counts the identifiers in the
    selection: over [select_all], it grows by the number of identifiers
    appended to the selection. *)
Theorem mail_selected_counts_selection (d : Deduplicate.t Box) :
  0 ≤ Counter.get (Deduplicate.stats d) "mail_selected" →
  let d' := Deduplicate.select_all close apply_strategy conf d in
  Counter.get (Deduplicate.stats d') "mail_selected"
  - Counter.get (Deduplicate.stats d) "mail_selected"
  = Z.of_nat (length (Deduplicate.selection d'))
    - Z.of_nat (length (Deduplicate.selection d)).
Proof.
  intros Hpos. cbv zeta. unfold Deduplicate.select_all. cbv zeta.
  set (d0 := Deduplicate.with_stats _ d).
  change (Deduplicate.mails d0) with (Deduplicate.mails d).
  cbn [Deduplicate.stats Deduplicate.selection].
  pose proof (select_loop_selected (Deduplicate.mails d) d0) as Hloop.
  cbv zeta in Hloop.
  change (Deduplicate.selection d0) with (Deduplicate.selection d) in Hloop.
  assert (Counter.get (Deduplicate.stats d0) "mail_selected"
          = Counter.get (Deduplicate.stats d) "mail_selected") as Hsame.
  { unfold d0. cbn [Deduplicate.with_stats Deduplicate.stats]. by rewrite get_assign. }
  rewrite Hsame in Hloop. by apply Hloop.
Qed.

End SelectAllFacts.

(** ** Registering and hashing *)
Section GroupingFacts.

Context {Box : Type}.
Variable resolve : string → exception + string.
Variable open_box : string → option string → bool → exception + Box.
Variable items : Box → list (string * Mail.t).
Variable conf : Config.

Lemma stored_mails_app (s1 s2 : list (string * Box)) :
  stored_mails items (s1 ++ s2) = stored_mails items s1 + stored_mails items s2.
Proof. induction s1 as [|s s1 IH]; simpl; [done|]. rewrite IH. lia. Qed.

Lemma add_source_found source_path (d : Deduplicate.t Box) :
  Counter.get (Deduplicate.stats d) "mail_found"
  = stored_mails items (Deduplicate.sources d) →
  let d' := snd (Deduplicate.add_source resolve open_box items conf source_path d) in
  Counter.get (Deduplicate.stats d') "mail_found"
  = stored_mails items (Deduplicate.sources d').
Proof.
  intros Hd. cbv zeta. unfold Deduplicate.add_source.
  destruct (resolve source_path) as [e|path]; [done|].
  destruct (dict_get path (Deduplicate.sources d)) as [box|] eqn:Hget; [done|].
  destruct (open_box path _ _) as [e|box]; [done|].
  simpl. rewrite dict_set_fresh by done. rewrite stored_mails_app.
  read_counters. simpl. lia.
Qed.

Lemma add_sources_found paths (d : Deduplicate.t Box) :
  Counter.get (Deduplicate.stats d) "mail_found"
  = stored_mails items (Deduplicate.sources d) →
  let d' := snd (Deduplicate.add_sources resolve open_box items conf paths d) in
  Counter.get (Deduplicate.stats d') "mail_found"
  = stored_mails items (Deduplicate.sources d').
Proof.
  revert d. induction paths as [|path paths IH]; intros d Hd; simpl; [done|].
  pose proof (add_source_found path d Hd) as Hstep. cbv zeta in Hstep.
  destruct (Deduplicate.add_source _ _ _ _ path d) as [[e|] d']; [done|].
  by apply IH.
Qed.

Lemma init_found :
  Counter.get (Deduplicate.stats (Deduplicate.init (Box:=Box))) "mail_found"
  = stored_mails items (Deduplicate.sources (Deduplicate.init (Box:=Box))).
Proof.
  simpl. cbn [list_to_map foldr uncurry fst snd]. rewrite !get_insert. done.
Qed.

(** X15. However registering went, success or failure, [mail_found] is the
    number of mails in the boxes registered, each box is registered under a
    path of its own, and nothing is grouped or selected yet. *)
Theorem mail_found_counts_sources paths r (d : Deduplicate.t Box) :
  Deduplicate.add_sources resolve open_box items conf paths Deduplicate.init = (r, d) →
  Counter.get (Deduplicate.stats d) "mail_found"
  = stored_mails items (Deduplicate.sources d)
  ∧ NoDup (map fst (Deduplicate.sources d))
  ∧ Deduplicate.mails d = []
  ∧ Deduplicate.selection d = [].
Proof.
  intros Hrun.
  pose proof (add_sources_found paths _ init_found) as Hfound.
  pose proof (add_sources_registering resolve open_box items conf paths _
                init_registering) as (Hnd & Hm & Hs & _).
  rewrite Hrun in Hfound, Hnd, Hm, Hs. done.
Qed.

Lemma set_add_elem (x : Mail.t) s m : m ∈ set_add x s ↔ m = x ∨ m ∈ s.
Proof.
  unfold set_add. destruct (decide (x ∈ s)) as [Hin|Hnot].
  - split; [by right|]. by intros [->|?].
  - rewrite elem_of_app, list_elem_of_singleton. tauto.
Qed.

Lemma grouped_under_default mails h m :
  grouped_under mails h m ↔ m ∈ default [] (dict_get h mails).
Proof.
  unfold grouped_under. destruct (dict_get h mails) as [bucket|]; simpl.
  - split; [by intros (? & [= <-] & ?)|]. intros Hm. by exists bucket.
  - split; [by intros (? & [=] & _)|]. by intros ?%elem_of_nil.
Qed.

Lemma hash_one_grouped p (d : Deduplicate.t Box) id mail h m :
  grouped_under (Deduplicate.mails (Deduplicate.hash_one p d (id, mail))) h m
  ↔ grouped_under (Deduplicate.mails d) h m
    ∨ (Mail.hash_key mail = Some h ∧ m = with_origin p id mail).
Proof.
  unfold Deduplicate.hash_one. cbn [Mail.hash_key].
  destruct (Mail.hash_key mail) as [h0|] eqn:Hkey; cbn [Deduplicate.mails Deduplicate.with_stats].
  2:{ split; [by left|]. by intros [?|[[=] _]]. }
  rewrite !grouped_under_default.
  destruct (decide (h = h0)) as [->|Hne].
  - rewrite dict_get_set_eq. cbn [default from_option]. unfold Datatypes.id.
    rewrite set_add_elem. unfold with_origin. rewrite Hkey. split.
    + intros [->|?]; [by right|by left].
    + intros [?|[_ ->]]; [by right|by left].
  - rewrite dict_get_set_ne by done. split; [by left|].
    intros [?|[[= ->] _]]; done.
Qed.

Lemma hash_box_grouped p its (d : Deduplicate.t Box) h m :
  grouped_under (Deduplicate.mails (fold_left (Deduplicate.hash_one p) its d)) h m
  ↔ grouped_under (Deduplicate.mails d) h m
    ∨ ∃ id mail, (id, mail) ∈ its ∧ Mail.hash_key mail = Some h
                 ∧ m = with_origin p id mail.
Proof.
  revert d. induction its as [|[id mail] its IH]; intros d; cbn [fold_left].
  - split; [by left|]. intros [?|(? & ? & ?%elem_of_nil & _)]; done.
  - rewrite IH, hash_one_grouped. split.
    + intros [[?|[? ?]]|(id' & mail' & ? & ? & ?)].
      * by left.
      * right. exists id, mail. split_and!; [by left|done|done].
      * right. exists id', mail'. split_and!; [by right|done|done].
    + intros [?|(id' & mail' & [[= -> ->]|?]%elem_of_cons & ? & ?)].
      * left. by left.
      * left. by right.
      * right. by exists id', mail'.
Qed.

Lemma hash_sources_grouped (srcs : list (string * Box)) (d : Deduplicate.t Box) h m :
  grouped_under
    (Deduplicate.mails
       (fold_left (λ d '(source_path, box),
                     fold_left (Deduplicate.hash_one source_path) (items box) d)
                  srcs d)) h m
  ↔ grouped_under (Deduplicate.mails d) h m
    ∨ ∃ path box id mail,
        (path, box) ∈ srcs ∧ (id, mail) ∈ items box
        ∧ Mail.hash_key mail = Some h ∧ m = with_origin path id mail.
Proof.
  revert d. induction srcs as [|[p box] srcs IH]; intros d; cbn [fold_left].
  - split; [by left|]. intros [?|(? & ? & ? & ? & ?%elem_of_nil & _)]; done.
  - rewrite IH, hash_box_grouped. split.
    + intros [[?|(id & mail & ? & ? & ?)]|(p' & box' & id & mail & ? & ? & ? & ?)].
      * by left.
      * right. exists p, box, id, mail. split_and!; [by left|done..].
      * right. exists p', box', id, mail. split_and!; [by right|done..].
    + intros [?|(p' & box' & id & mail & [[= -> ->]|?]%elem_of_cons & ? & ? & ?)].
      * left. by left.
      * left. right. by exists id, mail.
      * right. by exists p', box', id, mail.
Qed.

(** X16. After [hash_all] on a state without mails, the bucket of a hash
    holds exactly the mails of the registered boxes that have this hash, each
    with the path of its box and its key in the box attached; the mails whose
    hash cannot be computed are in no bucket. *)
Theorem hash_all_groups_by_hash (d : Deduplicate.t Box) h m :
  Deduplicate.mails d = [] →
  grouped_under (Deduplicate.mails (Deduplicate.hash_all items d)) h m
  ↔ ∃ path box id mail,
      (path, box) ∈ Deduplicate.sources d ∧ (id, mail) ∈ items box
      ∧ Mail.hash_key mail = Some h ∧ m = with_origin path id mail.
Proof.
  intros Hmails. unfold Deduplicate.hash_all. rewrite hash_sources_grouped.
  split; [|by right]. intros [Hd|?]; [|done].
  rewrite Hmails in Hd. by destruct Hd as (? & [=] & _).
Qed.

Lemma grouped_uids_set mails h (m : Mail.t) :
  grouped_uids (dict_set h (default [] (dict_get h mails) ++ [m]) mails)
  ≡ₚ Mail.uid m :: grouped_uids mails.
Proof.
  unfold grouped_uids. induction mails as [|[h' b'] mails IH]; simpl.
  - done.
  - destruct (String.eqb_spec h h') as [->|Hne]; simpl.
    + rewrite map_app. simpl. rewrite <- app_assoc. simpl.
      by rewrite <- Permutation_middle.
    + rewrite IH. by rewrite <- Permutation_middle.
Qed.

Lemma grouped_uids_elem mails u :
  u ∈ grouped_uids mails
  ↔ ∃ bucket m, bucket ∈ mails ∧ m ∈ snd bucket ∧ u = Mail.uid m.
Proof.
  unfold grouped_uids. rewrite list_elem_of_In, in_flat_map. split.
  - intros (bucket & Hb%list_elem_of_In & Hu%list_elem_of_In).
    apply list_elem_of_fmap in Hu as (m & -> & Hm). by exists bucket, m.
  - intros (bucket & m & Hb & Hm & ->). exists bucket.
    split; [by apply list_elem_of_In|]. apply list_elem_of_In, list_elem_of_fmap.
    by exists m.
Qed.

Lemma hash_one_uids p (d : Deduplicate.t Box) id mail :
  all_mails (λ m, Mail.source_path m = p → Mail.mail_id m ≠ id) (Deduplicate.mails d) →
  NoDup (grouped_uids (Deduplicate.mails d)) →
  NoDup (grouped_uids (Deduplicate.mails (Deduplicate.hash_one p d (id, mail)))).
Proof.
  intros Hfresh Hnd. unfold Deduplicate.hash_one. cbn [Mail.hash_key].
  destruct (Mail.hash_key mail) as [h|]; cbn [Deduplicate.mails Deduplicate.with_stats];
    [|done].
  set (mail' := {| Mail.source_path := p; Mail.mail_id := id;
                   Mail.hash_key := Some h; Mail.size := Mail.size mail;
                   Mail.body_lines := Mail.body_lines mail |}).
  set (bucket := default [] (dict_get h (Deduplicate.mails d))).
  assert (mail' ∉ bucket) as Hnew.
  { intros Hin.
    pose proof (all_mails_bucket _ _ h Hfresh) as Hb.
    by apply (proj1 (Forall_forall _ _) Hb mail' Hin). }
  assert (set_add mail' bucket = bucket ++ [mail']) as ->.
  { unfold set_add. by destruct (decide (mail' ∈ bucket)). }
  unfold bucket. rewrite grouped_uids_set. apply NoDup_cons. split; [|done].
  intros (b & m & Hb & Hm & Hu)%grouped_uids_elem.
  pose proof (proj1 (Forall_forall _ _) Hfresh b Hb) as Hbm. simpl in Hbm.
  pose proof (proj1 (Forall_forall _ _) Hbm m Hm) as Hmm. simpl in Hmm.
  unfold Mail.uid in Hu. simpl in Hu. injection Hu as Hp Hid.
  by apply Hmm.
Qed.

Lemma hash_box_uids p its (d : Deduplicate.t Box) :
  NoDup (map fst its) →
  all_mails (λ m, Mail.source_path m = p → Mail.mail_id m ∉ map fst its)
            (Deduplicate.mails d) →
  NoDup (grouped_uids (Deduplicate.mails d)) →
  NoDup (grouped_uids (Deduplicate.mails (fold_left (Deduplicate.hash_one p) its d))).
Proof.
  revert d. induction its as [|[id mail] its IH]; intros d Hnd Hfresh Huids; [done|].
  simpl in Hnd. apply NoDup_cons in Hnd as [Hid Hnd]. cbn [fold_left].
  apply IH; [done| |].
  - apply hash_one_all_mails.
    + eapply all_mails_impl; [exact Hfresh|]. intros m Hm Hpm Hin.
      apply (Hm Hpm). simpl. by right.
    + by intros m _ -> _.
  - apply hash_one_uids; [|done].
    eapply all_mails_impl; [exact Hfresh|]. intros m Hm Hpm Hmid.
    apply (Hm Hpm). simpl. rewrite Hmid. left.
Qed.

Lemma hash_sources_uids (srcs : list (string * Box)) (d : Deduplicate.t Box) :
  NoDup (map fst srcs) →
  (∀ box, NoDup (map fst (items box))) →
  all_mails (λ m, Mail.source_path m ∉ map fst srcs) (Deduplicate.mails d) →
  NoDup (grouped_uids (Deduplicate.mails d)) →
  NoDup (grouped_uids
           (Deduplicate.mails
              (fold_left (λ d '(source_path, box),
                            fold_left (Deduplicate.hash_one source_path) (items box) d)
                         srcs d))).
Proof.
  intros Hnd Hitems. revert d.
  induction srcs as [|[p box] srcs IH]; intros d Hfresh Huids; [done|].
  simpl in Hnd. apply NoDup_cons in Hnd as [Hp Hnd]. cbn [fold_left].
  apply IH; [done| |].
  - destruct (hash_box_retained p (items box) d (λ m, Mail.source_path m ∉ map fst srcs))
      as (_ & _ & _ & _ & HQ & _); [done| | |by intros m ->|done].
    + eapply all_mails_impl; [exact Hfresh|]. intros m Hm Hpm.
      destruct Hm. simpl. rewrite Hpm. left.
    + eapply all_mails_impl; [exact Hfresh|]. intros m Hm Hin. apply Hm. simpl.
      by right.
  - apply hash_box_uids; [done| |done].
    eapply all_mails_impl; [exact Hfresh|]. intros m Hm Hpm.
    destruct Hm. simpl. rewrite Hpm. left.
Qed.

Lemma hash_all_uids (d : Deduplicate.t Box) :
  NoDup (map fst (Deduplicate.sources d)) →
  (∀ box, NoDup (map fst (items box))) →
  Deduplicate.mails d = [] →
  NoDup (grouped_uids (Deduplicate.mails (Deduplicate.hash_all items d))).
Proof.
  intros Hnd Hitems Hmails. unfold Deduplicate.hash_all.
  apply hash_sources_uids; [done|done| |]; rewrite Hmails; constructor.
Qed.

(** X17. After [hash_all] on a state without mails, over sources registered
    under distinct paths and boxes that list each key once, no identifier
    [(source_path, mail_id)] is grouped twice, in one bucket or in two. *)
Theorem hashed_uids_distinct (d : Deduplicate.t Box) :
  NoDup (map fst (Deduplicate.sources d)) →
  (∀ box, NoDup (map fst (items box))) →
  Deduplicate.mails d = [] →
  NoDup (grouped_uids (Deduplicate.mails (Deduplicate.hash_all items d))).
Proof. apply hash_all_uids. Qed.

End GroupingFacts.

(** ** Removing the selection *)
Section RemovalFacts.

Context {Box : Type}.
Variable remove : Box → string → exception + Box.
Variable conf : Config.

Lemma remove_loop_log_nil todo (d : Deduplicate.t Box) r d' :
  Deduplicate.remove_loop remove conf todo d = (r, d', []) → todo = [].
Proof.
  destruct todo as [|[p i] rest]; [done|]. simpl.
  destruct (dry_run conf).
  - by destruct (Deduplicate.remove_loop _ _ _ _) as [[? ?] ?].
  - destruct (dict_get p _) as [box|]; [|done].
    destruct (remove box i) as [e|box']; [done|].
    by destruct (Deduplicate.remove_loop _ _ _ _) as [[? ?] ?].
Qed.

(** X18. [remove_selection] fails its assertion, with an [AssertionError]
    and before anything is counted, logged or removed, exactly when an
    identifier is selected twice. *)
Theorem remove_selection_asserts_unique (d : Deduplicate.t Box) :
  Deduplicate.remove_selection remove conf d = (Some AssertionError, d, [])
  ↔ ¬ NoDup (Deduplicate.selection d).
Proof.
  unfold Deduplicate.remove_selection.
  destruct (decide (unique (Deduplicate.selection d) = Deduplicate.selection d))
    as [Heq|Hne].
  - apply unique_fixed_NoDup in Heq. split; [|done].
    intros Hloop. pose proof (remove_loop_log_nil _ _ _ _ Hloop) as Hnil.
    rewrite Hnil in Hloop. done.
  - split; [|done]. intros _ Hnd. by apply Hne, unique_fixed_NoDup.
Qed.

(** X19. Outside dry-run mode, a selection that starts with a mail of a
    box that is not registered raises [KeyError] at that mail: it is counted
    in [mail_deleted] and logged as being deleted, and no box is touched. *)
Theorem unknown_box_raises_key_error (d : Deduplicate.t Box) box_path mail_id rest :
  dry_run conf = false →
  Deduplicate.selection d = (box_path, mail_id) :: rest →
  NoDup (Deduplicate.selection d) →
  dict_get box_path (Deduplicate.sources d) = None →
  Deduplicate.remove_selection remove conf d
  = (Some KeyError,
     Deduplicate.with_stats (λ s, Counter.incr s "mail_deleted" 1) d,
     [Deduplicate.Deleting box_path mail_id]).
Proof.
  intros Hdry Hsel Hnd Hget. unfold Deduplicate.remove_selection.
  destruct (decide _) as [_|Hne]; [|by destruct Hne; apply unique_fixed_NoDup].
  rewrite Hsel. simpl. by rewrite Hdry, Hget.
Qed.

Lemma selected_in_cons p i rest path :
  selected_in ((p, i) :: rest) path
  = if decide (p = path) then i :: selected_in rest path else selected_in rest path.
Proof.
  unfold selected_in. rewrite filter_cons. simpl.
  by destruct (decide (p = path)).
Qed.

Lemma remove_loop_effect todo (d d' : Deduplicate.t Box) log :
  dry_run conf = false →
  Deduplicate.remove_loop remove conf todo d = (None, d', log) →
  map fst (Deduplicate.sources d') = map fst (Deduplicate.sources d)
  ∧ ∀ p box, dict_get p (Deduplicate.sources d) = Some box →
      ∃ box', dict_get p (Deduplicate.sources d') = Some box'
              ∧ remove_all remove box (selected_in todo p) = inr box'.
Proof.
  intros Hdry. revert d log.
  induction todo as [|[bp id] rest IH]; intros d log; simpl.
  { intros [= <- _]. split; [done|]. intros p box Hp. by exists box. }
  rewrite Hdry.
  destruct (dict_get bp (Deduplicate.sources d)) as [box0|] eqn:Hbox0; [|done].
  destruct (remove box0 id) as [e|box1] eqn:Hrm; [done|].
  destruct (Deduplicate.remove_loop _ _ rest _) as [[r d''] log'] eqn:Hloop.
  intros [= -> -> _].
  destruct (IH _ _ Hloop) as [Hkeys Hboxes]. simpl in Hkeys, Hboxes.
  split.
  - rewrite Hkeys. by apply dict_set_keys.
  - intros p box Hp. rewrite selected_in_cons.
    destruct (decide (bp = p)) as [->|Hne].
    + simplify_eq. destruct (Hboxes p box1) as (box' & Hget & Hall).
      { apply dict_get_set_eq. }
      exists box'. split; [done|]. simpl. by rewrite Hrm.
    + destruct (Hboxes p box) as (box' & Hget & Hall).
      { by rewrite dict_get_set_ne. }
      by exists box'.
Qed.

(** X20. Outside dry-run mode, when [remove_selection] ends without an
    exception, the sources are registered under the same paths and every box
    has lost the keys selected in it, removed in the order of the selection;
    a box in which nothing is selected is left as it was. *)
Theorem removal_applies_selection (d d' : Deduplicate.t Box) log :
  dry_run conf = false →
  Deduplicate.remove_selection remove conf d = (None, d', log) →
  map fst (Deduplicate.sources d') = map fst (Deduplicate.sources d)
  ∧ (∀ p box, dict_get p (Deduplicate.sources d) = Some box →
       ∃ box', dict_get p (Deduplicate.sources d') = Some box'
               ∧ remove_all remove box (selected_in (Deduplicate.selection d) p)
                 = inr box')
  ∧ ∀ p box, dict_get p (Deduplicate.sources d) = Some box →
       selected_in (Deduplicate.selection d) p = [] →
       dict_get p (Deduplicate.sources d') = Some box.
Proof.
  intros Hdry. unfold Deduplicate.remove_selection.
  destruct (decide _) as [_|_]; [|done]. intros Hloop.
  destruct (remove_loop_effect _ _ _ _ Hdry Hloop) as [Hkeys Hboxes].
  split_and!; [done|done|].
  intros p box Hp Hnone. destruct (Hboxes p box Hp) as (box' & Hget & Hall).
  rewrite Hnone in Hall. simpl in Hall. by simplify_eq.
Qed.

End RemovalFacts.

(** ** From registering to the selection *)
Section PipelineFacts.

Context {Box : Type}.
Variable resolve : string → exception + string.
Variable open_box : string → option string → bool → exception + Box.
Variable items : Box → list (string * Mail.t).
Variable remove : Box → string → exception + Box.
Variable close : Box → Box.
Variable apply_strategy : string → DuplicateSet.t → list (string * string).
Variable conf : Config.

Lemma NoDup_grouped_uids_pairs mails :
  NoDup (grouped_uids mails) →
  ForallOrdPairs (λ b1 b2, ∀ u, u ∈ map Mail.uid (snd b1) → u ∉ map Mail.uid (snd b2))
                 mails.
Proof.
  induction mails as [|b mails IH]; [constructor|].
  unfold grouped_uids. cbn [flat_map]. fold (grouped_uids mails).
  intros (Hb & Hdisj & Hrest)%NoDup_app. constructor; [|by apply IH].
  apply Forall_forall. intros b' Hb' u Hu Hu'. apply (Hdisj u Hu).
  apply grouped_uids_elem. apply list_elem_of_fmap in Hu' as (m & -> & Hm).
  by exists b', m.
Qed.

Lemma NoDup_grouped_uids_bucket mails b :
  NoDup (grouped_uids mails) → b ∈ mails → NoDup (map Mail.uid (snd b)).
Proof.
  induction mails as [|b' mails IH]; [by intros _ ?%elem_of_nil|].
  unfold grouped_uids. cbn [flat_map]. fold (grouped_uids mails).
  intros (Hb & _ & Hrest)%NoDup_app [->|Hin]%elem_of_cons; [done|by apply IH].
Qed.

Lemma hash_one_all_mails_origin p (d : Deduplicate.t Box) id mail (Q : Mail.t → Prop) :
  all_mails Q (Deduplicate.mails d) →
  (is_Some (Mail.hash_key mail) → Q (with_origin p id mail)) →
  all_mails Q (Deduplicate.mails (Deduplicate.hash_one p d (id, mail))).
Proof.
  intros HQ Hp. unfold Deduplicate.hash_one. cbn [Mail.hash_key].
  destruct (Mail.hash_key mail) as [h|] eqn:Hkey;
    cbn [Deduplicate.mails Deduplicate.with_stats]; [|done].
  apply all_mails_set; [done|]. unfold set_add.
  destruct (decide _); [by apply all_mails_bucket|].
  apply Forall_app. split; [by apply all_mails_bucket|].
  apply Forall_singleton. unfold with_origin in Hp. rewrite Hkey in Hp. by apply Hp.
Qed.

Lemma hash_box_all_mails_origin p its (d : Deduplicate.t Box) (Q : Mail.t → Prop) :
  all_mails Q (Deduplicate.mails d) →
  (∀ id mail, (id, mail) ∈ its → is_Some (Mail.hash_key mail) →
     Q (with_origin p id mail)) →
  all_mails Q (Deduplicate.mails (fold_left (Deduplicate.hash_one p) its d)).
Proof.
  revert d. induction its as [|[id mail] its IH]; intros d HQ Hp; [done|].
  cbn [fold_left]. apply IH.
  - apply hash_one_all_mails_origin; [done|]. apply Hp. by left.
  - intros id' mail' Hin. apply Hp. by right.
Qed.

Lemma hash_sources_all_mails_origin (srcs : list (string * Box)) (d : Deduplicate.t Box)
    (Q : Mail.t → Prop) :
  all_mails Q (Deduplicate.mails d) →
  (∀ p box id mail, (p, box) ∈ srcs → (id, mail) ∈ items box →
     is_Some (Mail.hash_key mail) → Q (with_origin p id mail)) →
  all_mails Q
    (Deduplicate.mails
       (fold_left (λ d '(source_path, box),
                     fold_left (Deduplicate.hash_one source_path) (items box) d)
                  srcs d)).
Proof.
  revert d. induction srcs as [|[p box] srcs IH]; intros d HQ Hp; [done|].
  cbn [fold_left]. apply IH.
  - apply hash_box_all_mails_origin; [done|]. intros id mail Hin. apply (Hp p box).
    + by left.
    + done.
  - intros p' box' id mail Hin. apply Hp. by right.
Qed.

(** X21. After registering, hashing and selecting, over boxes that list
    each key once and with strategies that select mails of the set they are
    given, each at most once, the assertion of [remove_selection] holds, and
    every identifier selected is the path of a registered box with the key of
    a mail of that box whose hash could be computed. *)
Theorem run_selection_is_unique paths r (d0 : Deduplicate.t Box) :
  (∀ box, NoDup (map fst (items box))) →
  (∀ name ds, NoDup (map Mail.uid (DuplicateSet.pool ds)) →
              NoDup (apply_strategy name ds)
              ∧ apply_strategy name ds ⊆ map Mail.uid (DuplicateSet.pool ds)) →
  Deduplicate.add_sources resolve open_box items conf paths Deduplicate.init = (r, d0) →
  let d := Deduplicate.select_all close apply_strategy conf
             (Deduplicate.hash_all items d0) in
  unique (Deduplicate.selection d) = Deduplicate.selection d
  ∧ ∀ path id, (path, id) ∈ Deduplicate.selection d →
      ∃ box mail, (path, box) ∈ Deduplicate.sources d0 ∧ (id, mail) ∈ items box
                  ∧ is_Some (Mail.hash_key mail).
Proof.
  intros Hitems Hstrat Hrun. cbv zeta.
  pose proof (add_sources_registering resolve open_box items conf paths _
                init_registering) as (Hnd & Hm & Hs & _).
  rewrite Hrun in Hnd, Hm, Hs. cbn [snd] in Hnd, Hm, Hs.
  pose proof (hash_all_uids items d0 Hnd Hitems Hm) as Huids.
  destruct (hash_all_retained items d0 Hnd Hitems Hm) as (_ & _ & _ & _ & _ & Hsel & _).
  cbv zeta in Hsel.
  rewrite select_all_selection, Hsel, Hs. cbn [app].
  destruct (candidates_NoDup apply_strategy conf
              (Deduplicate.mails (Deduplicate.hash_all items d0))) as [Hnodup Hfrom].
  { by apply NoDup_grouped_uids_pairs. }
  { intros b name Hb. apply Hstrat. by apply (NoDup_grouped_uids_bucket _ b Huids). }
  split; [by apply unique_fixed_NoDup|].
  intros path id Hin. destruct (Hfrom _ Hin) as (b & Hb & Hu).
  apply list_elem_of_fmap in Hu as (m & Hm' & Hmb).
  assert (all_mails
            (λ m, ∃ box mail, (Mail.source_path m, box) ∈ Deduplicate.sources d0
                              ∧ (Mail.mail_id m, mail) ∈ items box
                              ∧ is_Some (Mail.hash_key mail))
            (Deduplicate.mails (Deduplicate.hash_all items d0))) as Horigin.
  { unfold Deduplicate.hash_all. apply hash_sources_all_mails_origin.
    - rewrite Hm. constructor.
    - intros p box id' mail Hp Hid Hkey. by exists box, mail. }
  pose proof (proj1 (Forall_forall _ _) Horigin b Hb) as Hbucket. simpl in Hbucket.
  pose proof (proj1 (Forall_forall _ _) Hbucket m Hmb) as Hmail. simpl in Hmail.
  unfold Mail.uid in Hm'. injection Hm' as -> ->. done.
Qed.

(** X26. After registering and hashing, over boxes that list each key
    once, every mail found was either rejected or retained, the retained
    mails are the ones grouped in the buckets, and the sources and the empty
    selection are as registering left them. *)
Theorem hash_all_accounts_for_found paths r (d0 : Deduplicate.t Box) :
  (∀ box, NoDup (map fst (items box))) →
  Deduplicate.add_sources resolve open_box items conf paths Deduplicate.init = (r, d0) →
  let d := Deduplicate.hash_all items d0 in
  Counter.get (Deduplicate.stats d) "mail_found"
  = Counter.get (Deduplicate.stats d) "mail_rejected"
    + Counter.get (Deduplicate.stats d) "mail_retained"
  ∧ Counter.get (Deduplicate.stats d) "mail_retained"
    = grouped_mails (Deduplicate.mails d)
  ∧ 0 ≤ Counter.get (Deduplicate.stats d) "mail_rejected"
  ∧ Deduplicate.sources d = Deduplicate.sources d0
  ∧ Deduplicate.selection d = [].
Proof.
  intros Hitems Hrun. cbv zeta.
  pose proof (add_sources_registering resolve open_box items conf paths _
                init_registering) as (Hnd & Hm & Hs & Hzero & _).
  pose proof (add_sources_found resolve open_box items conf paths _
                (init_found items)) as Hfound.
  cbv zeta in Hfound. rewrite Hrun in Hnd, Hm, Hs, Hzero, Hfound.
  cbn [snd] in Hnd, Hm, Hs, Hzero, Hfound.
  destruct (hash_all_retained items d0 Hnd Hitems Hm)
    as (Hret & Hsum & _ & Hrej & Hsrc & Hsel & Hother).
  cbv zeta in Hret, Hsum, Hrej, Hsrc, Hsel, Hother.
  rewrite (Hzero "mail_retained") in Hret, Hsum by done.
  rewrite (Hzero "mail_rejected") in Hsum, Hrej by done.
  rewrite (Hother "mail_found") by done.
  split_and!; [lia|lia|done|done|by rewrite Hsel].
Qed.

Lemma set_selected_below (ds : DuplicateSet.t) :
  (∀ name, Z.of_nat (length (apply_strategy name ds)) ≤ DuplicateSet.size ds) →
  let stats := snd (DuplicateSet.select_candidates conf apply_strategy ds) in
  Counter.get stats "mail_selected" = 0
  ∨ Counter.get stats "mail_selected" < Counter.get stats "mail_duplicates".
Proof.
  intros Hbound. cbv zeta. unfold DuplicateSet.select_candidates.
  destruct (Z.eqb_spec (DuplicateSet.size ds) 1) as [Hone|Hone];
    [|destruct (snd (DuplicateSet.check_differences conf ds)) as [[]|];
      [| | |destruct (strategy_name conf) as [name|];
            [destruct (Z.eqb_spec (Z.of_nat (length (apply_strategy name ds)))
                        (DuplicateSet.size ds)) as [Hall|Hsome]|]]];
    cbn [fst snd]; read_counters; case_keys; simpl; try (left; lia).
  right. specialize (Hbound name). lia.
Qed.

Lemma select_loop_relations buckets (d : Deduplicate.t Box) :
  (∀ name ds, Z.of_nat (length (apply_strategy name ds)) ≤ DuplicateSet.size ds) →
  (∀ k, 0 ≤ Counter.get (Deduplicate.stats d) k) →
  let s := Counter.get (Deduplicate.stats d) in
  let s' := Counter.get (Deduplicate.stats
                           (fold_left (Deduplicate.select_one apply_strategy conf)
                                      buckets d)) in
  s' "set_ignored" - s "set_ignored" = s' "mail_unique" - s "mail_unique"
  ∧ 0 ≤ s' "mail_selected" - s "mail_selected"
  ∧ s' "mail_selected" - s "mail_selected" ≤ s' "mail_duplicates" - s "mail_duplicates"
  ∧ (s' "mail_selected" - s "mail_selected" = 0
     ∨ s' "mail_selected" - s "mail_selected"
       < s' "mail_duplicates" - s "mail_duplicates").
Proof.
  intros Hstrat. revert d. induction buckets as [|b buckets IH]; intros d Hpos; cbv zeta.
  { simpl. lia. }
  assert (∀ k, 0 ≤ Counter.get
                     (snd (DuplicateSet.select_candidates conf apply_strategy
                             (Deduplicate.duplicate_set b))) k) as Hset.
  { intros k. apply set_stats_nonneg. intros _ name. apply Hstrat. }
  assert (∀ k, Counter.get (Deduplicate.stats
                              (Deduplicate.select_one apply_strategy conf d b)) k
               = Counter.get (Deduplicate.stats d) k
                 + Counter.get (snd (DuplicateSet.select_candidates conf apply_strategy
                                       (Deduplicate.duplicate_set b))) k) as Hstep.
  { intros k. by apply select_one_counter. }
  cbn [fold_left].
  destruct (IH (Deduplicate.select_one apply_strategy conf d b))
    as (IH1 & IH2 & IH3 & IH4).
  { intros k. rewrite Hstep. specialize (Hpos k). specialize (Hset k). lia. }
  pose proof (set_ignored_unique conf apply_strategy (Deduplicate.duplicate_set b))
    as Hign.
  pose proof (set_selected_below (Deduplicate.duplicate_set b)
                (λ name, Hstrat name _)) as Hbelow.
  cbv zeta in Hbelow.
  pose proof (Hset "mail_selected"). pose proof (Hset "mail_duplicates").
  rewrite (Hstep "set_ignored"), (Hstep "mail_unique") in IH1.
  rewrite (Hstep "mail_selected") in IH2, IH3, IH4.
  rewrite (Hstep "mail_duplicates") in IH3, IH4.
  split_and!; lia.
Qed.

Lemma remove_loop_success todo (d d' : Deduplicate.t Box) log :
  Deduplicate.remove_loop remove conf todo d = (None, d', log) →
  Counter.get (Deduplicate.stats d') "mail_deleted"
  = Counter.get (Deduplicate.stats d) "mail_deleted" + Z.of_nat (length todo)
  ∧ ∀ k, k ≠ "mail_deleted" →
         Counter.get (Deduplicate.stats d') k = Counter.get (Deduplicate.stats d) k.
Proof.
  intros Hloop.
  pose proof (remove_loop_accounting remove conf todo d) as Hacc.
  rewrite Hloop in Hacc. cbv zeta in Hacc.
  destruct Hacc as (Hdry & Hwet & _ & _ & Hother). split; [|done].
  destruct (dry_run conf).
  - destruct (Hdry eq_refl) as (_ & Hdel & _). lia.
  - destruct (Hwet eq_refl) as [(_ & Hdel & _)|(e & ? & ? & ? & ? & [=] & _)]. lia.
Qed.

Lemma check_stats_None (d : Deduplicate.t Box) :
  Deduplicate.check_stats d = None
  ↔ let s := Counter.get (Deduplicate.stats d) in
    s "mail_rejected" ≤ s "mail_found"
    ∧ s "mail_retained" ≤ s "mail_found"
    ∧ s "mail_found" = s "mail_rejected" + s "mail_retained"
    ∧ s "mail_unique" ≤ s "mail_retained"
    ∧ s "mail_duplicates" ≤ s "mail_retained"
    ∧ s "mail_retained" = s "mail_unique" + s "mail_duplicates"
    ∧ s "mail_retained" = s "mail_discarded" + s "mail_selected"
    ∧ s "mail_selected" = s "mail_copied" + s "mail_moved" + s "mail_deleted"
    ∧ s "mail_deleted" ≤ s "mail_retained"
    ∧ (s "mail_duplicates" = 0 ∨ s "mail_deleted" < s "mail_duplicates")
    ∧ s "set_ignored" = s "mail_unique"
    ∧ s "set_total"
      = s "set_ignored" + s "set_rejected_encoding" + s "set_rejected_size"
        + s "set_rejected_content" + s "set_skipped" + s "set_deduplicated".
Proof.
  unfold Deduplicate.check_stats. cbv zeta.
  match goal with |- context [if ?c then _ else _] => destruct c eqn:E end.
  - split; [intros _|done].
    repeat (apply andb_prop in E as [E ?]).
    repeat match goal with
           | H : (_ || _) = true |- _ => apply orb_prop in H
           | H : (_ >=? _) = true |- _ => rewrite Z.geb_leb in H; apply Z.leb_le in H
           | H : (_ >? _) = true |- _ => rewrite Z.gtb_ltb in H; apply Z.ltb_lt in H
           | H : (_ =? _) = true |- _ => apply Z.eqb_eq in H
           | H : _ ∨ (_ >? _) = true |- _ =>
               rewrite Z.gtb_ltb, Z.ltb_lt, Z.eqb_eq in H
           end.
    split_and!; lia.
  - split; [done|]. intros (H1 & H2 & H3 & H4 & H5 & H6 & H7 & H8 & H9 & H10 & H11 & H12).
    apply not_true_iff_false in E. destruct E.
    repeat (apply andb_true_intro; split);
      try (rewrite Z.geb_leb; apply Z.leb_le; lia);
      try (apply Z.eqb_eq; lia).
    apply orb_true_iff. rewrite Z.gtb_ltb, Z.ltb_lt, Z.eqb_eq. lia.
Qed.

Lemma selected_relations (d0 : Deduplicate.t Box) :
  registering d0 →
  (∀ box, NoDup (map fst (items box))) →
  (∀ name ds, Z.of_nat (length (apply_strategy name ds)) ≤ DuplicateSet.size ds) →
  let d2 := Deduplicate.select_all close apply_strategy conf
              (Deduplicate.hash_all items d0) in
  let s := Counter.get (Deduplicate.stats d2) in
  s "set_total"
  = s "set_ignored" + s "set_rejected_encoding" + s "set_rejected_size"
    + s "set_rejected_content" + s "set_skipped" + s "set_deduplicated"
  ∧ s "set_ignored" = s "mail_unique"
  ∧ (s "mail_duplicates" = 0 ∨ s "mail_selected" < s "mail_duplicates")
  ∧ s "mail_selected" = Z.of_nat (length (Deduplicate.selection d2)).
Proof.
  intros (Hnd & Hmails & Hsel & Hzero & Hfound) Hitems Hstrat. cbv zeta.
  destruct (hash_all_retained items d0 Hnd Hitems Hmails)
    as (_ & _ & Hr & Hj & _ & Hsel1 & Hk).
  cbv zeta in *.
  set (d1 := Deduplicate.hash_all items d0) in *.
  assert (∀ k, 0 ≤ Counter.get (Deduplicate.stats d1) k) as Hpos1.
  { intros k.
    destruct (decide (k = "mail_retained")) as [->|?];
      [rewrite Hzero in Hr by done; lia|].
    destruct (decide (k = "mail_rejected")) as [->|?];
      [rewrite Hzero in Hj by done; lia|].
    rewrite Hk by done.
    destruct (decide (k = "mail_found")) as [->|?]; [done|].
    rewrite Hzero by done. lia. }
  assert (∀ k, k ≠ "mail_retained" → k ≠ "mail_rejected" → k ≠ "mail_found" →
               Counter.get (Deduplicate.stats d1) k = 0) as Hzero1.
  { intros k ? ? ?. rewrite Hk by done. by apply Hzero. }
  unfold Deduplicate.select_all. cbv zeta.
  set (d1' := Deduplicate.with_stats _ d1).
  change (Deduplicate.mails d1') with (Deduplicate.mails d1).
  cbn [Deduplicate.stats Deduplicate.selection].
  assert (∀ k, Counter.get (Deduplicate.stats d1') k
               = if String.eqb "set_total" k
                 then Z.of_nat (length (Deduplicate.mails d1))
                 else Counter.get (Deduplicate.stats d1) k) as Hstats1.
  { intros k. unfold d1'. cbn [Deduplicate.with_stats Deduplicate.stats].
    by rewrite get_assign. }
  assert (∀ k, 0 ≤ Counter.get (Deduplicate.stats d1') k) as Hpos1'.
  { intros k. rewrite Hstats1. destruct (String.eqb _ _); [lia|apply Hpos1]. }
  pose proof (select_loop_outcomes apply_strategy conf (Deduplicate.mails d1) d1'
                (λ k _, Hpos1' k)) as [Hsum Htotal].
  pose proof (select_loop_relations (Deduplicate.mails d1) d1' Hstrat Hpos1')
    as (Hign & Hsel0 & Hle & Hlt).
  pose proof (select_loop_selected apply_strategy conf (Deduplicate.mails d1) d1'
                (Hpos1' _)) as Hcount.
  cbv zeta in Hsum, Htotal, Hign, Hsel0, Hle, Hlt, Hcount.
  change (Deduplicate.selection d1') with (Deduplicate.selection d1) in Hcount.
  rewrite Hsel1, Hsel in Hcount. cbn [length] in Hcount.
  assert (∀ k, k ≠ "mail_retained" → k ≠ "mail_rejected" → k ≠ "mail_found" →
               k ≠ "set_total" → Counter.get (Deduplicate.stats d1') k = 0) as Hz.
  { intros k ? ? ? ?. rewrite Hstats1.
    destruct (String.eqb_spec "set_total" k); [done|]. by apply Hzero1. }
  assert (Counter.get (Deduplicate.stats d1') "set_total"
          = Z.of_nat (length (Deduplicate.mails d1))) as Ht by by rewrite Hstats1.
  rewrite (Hz "set_ignored"), (Hz "set_rejected_encoding"), (Hz "set_rejected_size"),
    (Hz "set_rejected_content"), (Hz "set_skipped"), (Hz "set_deduplicated")
    in Hsum by done.
  rewrite Ht in Htotal.
  rewrite (Hz "set_ignored"), (Hz "mail_unique") in Hign by done.
  rewrite (Hz "mail_selected") in Hsel0, Hle, Hlt, Hcount by done.
  rewrite (Hz "mail_duplicates") in Hle, Hlt by done.
  split_and!; lia.
Qed.

(** X22. After a run that registers, hashes, selects and removes without
    raising, dry run or not, over boxes that list each key once and with
    strategies that select no more mails than the set has, every assertion of
    [check_stats] holds. *)
Theorem check_stats_passes_after_removal paths (d : Deduplicate.t Box) :
  (∀ box, NoDup (map fst (items box))) →
  (∀ name ds, Z.of_nat (length (apply_strategy name ds)) ≤ DuplicateSet.size ds) →
  Deduplicate.run resolve open_box items remove close apply_strategy conf paths true
  = (None, d) →
  Deduplicate.check_stats d = None.
Proof.
  intros Hitems Hstrat. unfold Deduplicate.run.
  pose proof (add_sources_registering resolve open_box items conf paths _
                init_registering) as Hreg.
  pose proof (add_sources_found resolve open_box items conf paths _
                (init_found items)) as Hfound.
  cbv zeta in Hfound.
  destruct (Deduplicate.add_sources _ _ _ _ paths _) as [[e|] d0];
    cbn [snd] in Hreg, Hfound; [done|].
  destruct (selected_counters items close apply_strategy conf d0 Hreg Hitems Hstrat)
    as (C1 & C2 & C3 & C4 & C5 & C6 & C7 & C8).
  destruct (selected_relations d0 Hreg Hitems Hstrat) as (R1 & R2 & R3 & R4).
  cbv zeta in *.
  set (d2 := Deduplicate.select_all close apply_strategy conf
               (Deduplicate.hash_all items d0)) in *.
  unfold Deduplicate.remove_selection. destruct (decide _) as [_|_]; [|done].
  destruct (Deduplicate.remove_loop remove conf (Deduplicate.selection d2) d2)
    as [[r' d'] log] eqn:Hloop.
  cbn [fst]. intros [= -> ->].
  destruct (remove_loop_success _ _ _ _ Hloop) as [Hdel Hother].
  apply check_stats_None. cbv zeta.
  rewrite Hdel. rewrite !Hother by done.
  pose proof (C8 "mail_rejected"). pose proof (C8 "mail_retained").
  pose proof (C8 "mail_unique"). pose proof (C8 "mail_duplicates").
  pose proof (C8 "mail_discarded"). pose proof (C8 "mail_selected").
  split_and!; lia.
Qed.

(** X23. After a run that registers, hashes and selects but performs no
    action, [check_stats] passes exactly when nothing was selected: a
    selection that is left alone fails the assertion that the selected mails
    were copied, moved or deleted. *)
Theorem check_stats_without_action paths (d : Deduplicate.t Box) :
  (∀ box, NoDup (map fst (items box))) →
  (∀ name ds, Z.of_nat (length (apply_strategy name ds)) ≤ DuplicateSet.size ds) →
  Deduplicate.run resolve open_box items remove close apply_strategy conf paths false
  = (None, d) →
  Deduplicate.check_stats d = None ↔ Deduplicate.selection d = [].
Proof.
  intros Hitems Hstrat. unfold Deduplicate.run.
  pose proof (add_sources_registering resolve open_box items conf paths _
                init_registering) as Hreg.
  pose proof (add_sources_found resolve open_box items conf paths _
                (init_found items)) as Hfound.
  cbv zeta in Hfound.
  destruct (Deduplicate.add_sources _ _ _ _ paths _) as [[e|] d0];
    cbn [snd] in Hreg, Hfound; [done|].
  destruct (selected_counters items close apply_strategy conf d0 Hreg Hitems Hstrat)
    as (C1 & C2 & C3 & C4 & C5 & C6 & C7 & C8).
  destruct (selected_relations d0 Hreg Hitems Hstrat) as (R1 & R2 & R3 & R4).
  cbv zeta in *. intros [= <-].
  set (d2 := Deduplicate.select_all close apply_strategy conf
               (Deduplicate.hash_all items d0)) in *.
  rewrite check_stats_None. cbv zeta.
  pose proof (C8 "mail_rejected"). pose proof (C8 "mail_retained").
  pose proof (C8 "mail_unique"). pose proof (C8 "mail_duplicates").
  pose proof (C8 "mail_discarded"). pose proof (C8 "mail_selected").
  split.
  - intros (_ & _ & _ & _ & _ & _ & _ & Hsel & _).
    apply nil_length_inv. lia.
  - intros Hnil. rewrite Hnil in R4. cbn [length] in R4.
    split_and!; lia.
Qed.

End PipelineFacts.

(** ** The matcher on a sequence and itself *)
Section IdenticalFacts.

Local Open Scope nat_scope.

Lemma index_b_snoc (b : list string) x :
  Difflib.index_b (b ++ [x])
  = <[x := default [] (Difflib.index_b b !! x) ++ [length b]]> (Difflib.index_b b).
Proof.
  unfold Difflib.index_b. rewrite imap_app, fold_left_app. simpl.
  by rewrite Nat.add_0_r.
Qed.

Lemma increasing_snoc js n :
  Difflib.increasing js → (∀ j, j ∈ js → j < n) → Difflib.increasing (js ++ [n]).
Proof.
  intros Hinc Hlt p q x y Hpq Hp Hq.
  apply lookup_app_Some in Hq as [Hq|[Hlen Hq]].
  - rewrite lookup_app_l in Hp by (apply lookup_lt_Some in Hq; lia).
    by apply (Hinc p q).
  - apply list_lookup_singleton_Some in Hq as [Hq0 <-].
    rewrite lookup_app_l in Hp by lia.
    apply Hlt. by eapply list_elem_of_lookup_2.
Qed.

Lemma increasing_cons j js :
  Difflib.increasing (j :: js) → Difflib.increasing js ∧ ∀ j', j' ∈ js → j < j'.
Proof.
  intros Hinc. split.
  - intros p q x y Hpq Hp Hq. by apply (Hinc (S p) (S q)); [lia|..].
  - intros j' [q Hq]%list_elem_of_lookup. by apply (Hinc 0 (S q)); [lia|..].
Qed.

Lemma index_b_spec (b : list string) elt :
  (∀ j, j ∈ default [] (Difflib.index_b b !! elt) ↔ b !! j = Some elt)
  ∧ Difflib.increasing (default [] (Difflib.index_b b !! elt)).
Proof.
  induction b as [|x b IH] using rev_ind.
  - unfold Difflib.index_b. simpl. rewrite lookup_empty. simpl. split.
    + intros j. split; [by intros ?%elem_of_nil|done].
    + by intros p q ? ? ? ?.
  - destruct IH as [IHin IHinc]. rewrite index_b_snoc.
    destruct (decide (x = elt)) as [->|Hne].
    + rewrite lookup_insert_eq. cbn [default from_option]. unfold Datatypes.id. split.
      * intros j. rewrite elem_of_app, list_elem_of_singleton, IHin.
        rewrite lookup_snoc_Some. split.
        -- intros [Hj| ->]; [left; split; [by eapply lookup_lt_Some|done]|by right].
        -- intros [[_ Hj]|[-> _]]; [by left|by right].
      * apply increasing_snoc; [done|]. intros j Hj%IHin. by eapply lookup_lt_Some.
    + rewrite lookup_insert_ne by done. split; [|done].
      intros j. rewrite IHin, lookup_snoc_Some. split; [intros Hj|intros [[_ ?]|[_ ?]]; done].
      left. split; [by eapply lookup_lt_Some|done].
Qed.

Lemma chain_b_index (b : list string) elt js :
  Difflib.chain_b b !! elt = Some js → Difflib.index_b b !! elt = Some js.
Proof.
  unfold Difflib.chain_b. destruct (200 <=? length b); [|done].
  by intros [Hjs _]%map_lookup_filter_Some.
Qed.

Lemma chain_b_spec (b : list string) elt js :
  Difflib.chain_b b !! elt = Some js →
  (∀ j, j ∈ js ↔ b !! j = Some elt) ∧ Difflib.increasing js.
Proof.
  intros Hjs%chain_b_index. pose proof (index_b_spec b elt) as Hspec.
  by rewrite Hjs in Hspec.
Qed.

Variable a : list string.

Lemma key_run_key i elt js :
  a !! i = Some elt → Difflib.chain_b a !! elt = Some js →
  Difflib.key_run a (Difflib.chain_b a) i = S (Difflib.run_before a (Difflib.chain_b a) i).
Proof.
  intros Hi Hjs. destruct i as [|i]; simpl; unfold Difflib.is_key; by rewrite Hi, Hjs.
Qed.

Lemma key_run_no_key i :
  Difflib.is_key a (Difflib.chain_b a) i = false → Difflib.key_run a (Difflib.chain_b a) i = 0.
Proof. intros Hkey. destruct i as [|i]; simpl; by rewrite Hkey. Qed.

(** One row of the search, on the diagonal. *)
Lemma scan_row_diag j2len i elt js newj2len bst :
  a !! i = Some elt →
  is_Some (Difflib.chain_b a !! elt) →
  (∀ j, j ∈ js → a !! j = Some elt) →
  Difflib.increasing js →
  (∀ j k, j2len !! j = Some k →
     k ≤ Difflib.run_before a (Difflib.chain_b a) i ∧ k ≤ Difflib.key_run a (Difflib.chain_b a) j) →
  (∀ i', i = S i' → default 0 (j2len !! i') = Difflib.key_run a (Difflib.chain_b a) i') →
  (∀ j k, newj2len !! j = Some k →
     k ≤ Difflib.key_run a (Difflib.chain_b a) i ∧ k ≤ Difflib.key_run a (Difflib.chain_b a) j) →
  Difflib.besti bst = Difflib.bestj bst →
  (∀ m, m < i → Difflib.key_run a (Difflib.chain_b a) m ≤ Difflib.bestsize bst) →
  (i ∉ js →
   default 0 (newj2len !! i) = Difflib.key_run a (Difflib.chain_b a) i
   ∧ Difflib.key_run a (Difflib.chain_b a) i ≤ Difflib.bestsize bst) →
  let '(row, bst') := Difflib.scan_row j2len i 0 (length a) js newj2len bst in
  (∀ j k, row !! j = Some k →
     k ≤ Difflib.key_run a (Difflib.chain_b a) i ∧ k ≤ Difflib.key_run a (Difflib.chain_b a) j)
  ∧ default 0 (row !! i) = Difflib.key_run a (Difflib.chain_b a) i
  ∧ Difflib.besti bst' = Difflib.bestj bst'
  ∧ ∀ m, m ≤ i → Difflib.key_run a (Difflib.chain_b a) m ≤ Difflib.bestsize bst'.
Proof.
  intros Hi [js0 Hkey] Hjs Hinc Hprev Hexact. revert newj2len bst Hjs Hinc.
  induction js as [|j js IH]; intros newj2len bst Hjs Hinc Hnew Hdiag Hbest Hdone; simpl.
  { destruct Hdone as [Hrow Hle]; [by intros ?%elem_of_nil|].
    split_and!; try done. intros m Hm.
    destruct (decide (m = i)) as [->|]; [done|]. apply Hbest. lia. }
  apply increasing_cons in Hinc as [Hinc Hafter].
  assert (a !! j = Some elt) as Hj by (apply Hjs; by left).
  destruct (Nat.leb_spec (length a) j) as [Hout|_].
  { apply lookup_lt_Some in Hj. lia. }
  set (v := match j with O => 0 | S j' => default 0 (j2len !! j') end).
  assert (v ≤ Difflib.run_before a (Difflib.chain_b a) i
          ∧ v ≤ Difflib.run_before a (Difflib.chain_b a) j) as [Hvi Hvj].
  { unfold v. destruct j as [|j']; simpl; [lia|].
    destruct (j2len !! j') as [k|] eqn:Hk; simpl; [|lia].
    by destruct (Hprev _ _ Hk). }
  assert (j = i → v = Difflib.run_before a (Difflib.chain_b a) i) as Hvexact.
  { intros ->. unfold v. destruct i as [|i']; simpl; [done|]. by apply Hexact. }
  pose proof (key_run_key j elt js0 Hj Hkey) as Hrunj.
  pose proof (key_run_key i elt js0 Hi Hkey) as Hruni.
  assert (Difflib.bestsize bst < v + 1 → j = i) as Hon.
  { intros Hlt. destruct (lt_eq_lt_dec j i) as [[Hji|Heq]|Hij]; [|done|].
    - specialize (Hbest j Hji). lia.
    - destruct Hdone as [_ Hle]; [|lia].
      intros [->|Hin]%elem_of_cons; [lia|]. specialize (Hafter i Hin). lia. }
  apply IH; clear IH.
  - intros j' Hj'. apply Hjs. by right.
  - done.
  - intros j' k'. destruct (decide (j = j')) as [<-|Hne].
    + rewrite lookup_insert_eq. intros [= <-]. rewrite Hrunj. lia.
    + rewrite lookup_insert_ne by done. apply Hnew.
  - destruct (Nat.ltb_spec (Difflib.bestsize bst) (v + 1)) as [Hlt|]; simpl; [|done].
    rewrite (Hon Hlt). lia.
  - intros m Hm. specialize (Hbest m Hm).
    destruct (Nat.ltb_spec (Difflib.bestsize bst) (v + 1)); simpl; lia.
  - intros Hnot. destruct (decide (j = i)) as [->|Hne].
    + rewrite lookup_insert_eq. simpl. rewrite (Hvexact eq_refl).
      destruct (Nat.ltb_spec (Difflib.bestsize bst) (Difflib.run_before a (Difflib.chain_b a) i + 1));
        simpl; lia.
    + rewrite lookup_insert_ne by done.
      destruct Hdone as [Hrow Hle].
      { intros [->|Hin]%elem_of_cons; done. }
      split; [done|].
      destruct (Nat.ltb_spec (Difflib.bestsize bst) (v + 1)); simpl; lia.
Qed.

(** The search over all the rows ends with a best block on the diagonal. *)
Lemma scan_rows_diag :
  let bst := Difflib.scan_rows a (Difflib.chain_b a) 0 (length a) 0 (length a) in
  Difflib.besti bst = Difflib.bestj bst.
Proof.
  cbv zeta. unfold Difflib.scan_rows. rewrite Nat.sub_0_r.
  assert (∀ cnt s st,
            s + cnt = length a →
            (∀ j k, fst st !! j = Some k →
               k ≤ Difflib.run_before a (Difflib.chain_b a) s
               ∧ k ≤ Difflib.key_run a (Difflib.chain_b a) j) →
            (∀ s', s = S s' →
               default 0 (fst st !! s') = Difflib.key_run a (Difflib.chain_b a) s') →
            Difflib.besti (snd st) = Difflib.bestj (snd st) →
            (∀ m, m < s → Difflib.key_run a (Difflib.chain_b a) m ≤ Difflib.bestsize (snd st)) →
            let bst := snd (fold_left
                        (λ '(j2len, bst) i,
                           let js := match a !! i with
                                     | Some elt => default [] (Difflib.chain_b a !! elt)
                                     | None => []
                                     end in
                           Difflib.scan_row j2len i 0 (length a) js ∅ bst)
                        (seq s cnt) st) in
            Difflib.besti bst = Difflib.bestj bst) as Hrows.
  { induction cnt as [|cnt IH]; intros s [j2len bst] Hlen Hprev Hexact Hdiag Hbest;
      cbv zeta; [done|].
    cbn [seq fold_left]. cbn [fst snd] in *.
    assert (s < length a) as Hs by lia.
    destruct (lookup_lt_is_Some_2 a s Hs) as [elt Helt]. rewrite Helt.
    destruct (Difflib.chain_b a !! elt) as [js|] eqn:Hjs; cbn [default from_option].
    - unfold Datatypes.id. destruct (chain_b_spec a elt js Hjs) as [Hin Hinc].
      pose proof (scan_row_diag j2len s elt js ∅ bst Helt (mk_is_Some _ _ Hjs)
                    (λ j Hj, proj1 (Hin j) Hj) Hinc Hprev Hexact) as Hrow.
      destruct (Difflib.scan_row j2len s 0 (length a) js ∅ bst) as [row bst'].
      destruct Hrow as (Hrow & Hrowx & Hdiag' & Hbest'); [| | | |].
      + intros j k. by rewrite lookup_empty.
      + done.
      + done.
      + intros Hnot. destruct Hnot. by apply Hin.
      + apply (IH (S s) (row, bst')); cbn [fst snd]; [lia|done| |done|].
        * by intros s' [= <-].
        * intros m Hm. apply Hbest'. lia.
    - cbn [Difflib.scan_row].
      assert (Difflib.key_run a (Difflib.chain_b a) s = 0) as Hzero.
      { apply key_run_no_key. unfold Difflib.is_key. by rewrite Helt, Hjs. }
      apply (IH (S s) (∅, bst)); cbn [fst snd]; [lia| | |done|].
      + intros j k. by rewrite lookup_empty.
      + intros s' [= <-]. by rewrite Hzero.
      + intros m Hm. destruct (decide (m = s)) as [->|]; [lia|]. apply Hbest. lia. }
  apply (Hrows (length a) 0 (∅, {| Difflib.besti := 0; Difflib.bestj := 0;
                                  Difflib.bestsize := 0 |})); cbn [fst snd]; try done.
  intros m Hm. lia.
Qed.

Lemma same_at_refl i : i < length a → Difflib.same_at a a i i = true.
Proof.
  intros Hi. unfold Difflib.same_at.
  destruct (lookup_lt_is_Some_2 a i Hi) as [x ->]. apply String.eqb_refl.
Qed.

Lemma extend_left_diag i size :
  i ≤ length a →
  Difflib.extend_left a a 0 0 i i size
  = {| Difflib.besti := 0; Difflib.bestj := 0; Difflib.bestsize := size + i |}.
Proof.
  revert size. induction i as [|i IH]; intros size Hi; cbn [Difflib.extend_left].
  - by rewrite Nat.add_0_r.
  - rewrite same_at_refl by lia. cbn [Nat.ltb Nat.leb andb].
    rewrite IH by lia. f_equal. lia.
Qed.

Lemma extend_right_diag room size :
  size ≤ length a → length a ≤ size + room →
  Difflib.extend_right a a (length a) (length a) 0 0 room size = length a.
Proof.
  revert size. induction room as [|room IH]; intros size Hle Hroom;
    cbn [Difflib.extend_right]; [lia|].
  cbn [Nat.add]. destruct (Nat.ltb_spec size (length a)) as [Hlt|Hge]; cbn [andb].
  - rewrite same_at_refl by done. apply IH; lia.
  - lia.
Qed.

(** The longest match of a sequence with itself is the whole sequence. *)
Lemma find_longest_match_diag :
  Difflib.find_longest_match a a (Difflib.chain_b a) 0 (length a) 0 (length a)
  = (0, 0, length a).
Proof.
  unfold Difflib.find_longest_match.
  pose proof scan_rows_diag as Hdiag. cbv zeta in Hdiag.
  pose proof (scan_rows_ok a a 0 (length a) 0 (length a) (Nat.le_0_l _) (Nat.le_0_l _)
                (Difflib.chain_b a) (chain_b_sound a)) as Hok.
  cbv zeta in Hok.
  destruct (Difflib.scan_rows a (Difflib.chain_b a) 0 (length a) 0 (length a))
    as [bi bj bs].
  cbn [Difflib.besti Difflib.bestj Difflib.bestsize] in *. subst bj.
  destruct Hok as (_ & Hend & _).
  rewrite extend_left_diag by lia.
  cbn [Difflib.besti Difflib.bestj Difflib.bestsize].
  rewrite extend_right_diag by lia. done.
Qed.

Lemma get_opcodes_same :
  Difflib.get_opcodes a a
  = if length a =? 0 then [] else [(Difflib.Equal, 0, length a, 0, length a)].
Proof.
  unfold Difflib.get_opcodes, Difflib.get_matching_blocks. cbv zeta.
  replace (2 * length a + 1) with (S (2 * length a)) by lia.
  cbn [Difflib.matching_loop]. rewrite find_longest_match_diag.
  destruct (Nat.eqb_spec (length a) 0) as [Hnil|Hne].
  - rewrite Hnil. by destruct (2 * 0).
  - change (0 <? 0) with false. cbn [andb Nat.add app].
    rewrite Nat.ltb_irrefl. cbn [andb].
    assert (Difflib.matching_loop a a (Difflib.chain_b a) (2 * length a) []
              [(0, 0, length a)] = Some [(0, 0, length a)]) as ->
      by by destruct (2 * length a).
    cbn [default from_option]. unfold Datatypes.id.
    cbn [Difflib.sort_blocks fold_right Difflib.insert_block Difflib.collapse
         Nat.add Nat.eqb andb].
    rewrite (proj2 (Nat.eqb_neq _ _) Hne).
    cbn [app Difflib.opcodes_from Nat.add].
    change (0 <? 0) with false. cbn [andb].
    rewrite (proj2 (Nat.eqb_neq _ _) Hne), Nat.ltb_irrefl.
    cbn [andb Nat.eqb app]. done.
Qed.

Lemma unified_diff_same fromfile tofile fromfiledate tofiledate lineterm :
  Difflib.unified_diff a a fromfile tofile fromfiledate tofiledate 0 lineterm = [].
Proof.
  unfold Difflib.unified_diff, Difflib.get_grouped_opcodes, Difflib.grouped.
  rewrite get_opcodes_same. destruct (Nat.eqb_spec (length a) 0) as [Hnil|Hne].
  - done.
  - cbv zeta. cbn [Difflib.trim_first Difflib.trim_last].
    rewrite Nat.sub_0_r, Nat.add_0_r, Nat.max_0_l, Nat.min_id.
    cbn [Difflib.group_loop Difflib.is_equal andb Nat.add].
    rewrite Nat.sub_diag. cbn [Nat.ltb Nat.leb app]. done.
Qed.

End IdenticalFacts.

(** X24. Two mails with the same normalized body lines have a content
    difference of 0. *)
Theorem same_body_zero_diff (mail_a mail_b : Mail.t) (lines : list string) :
  Mail.body_lines mail_a = Some lines →
  Mail.body_lines mail_b = Some lines →
  DuplicateSet.diff mail_a mail_b = Some 0.
Proof.
  intros Ha Hb. unfold DuplicateSet.diff. rewrite Ha, Hb. cbn [mbind option_bind].
  by rewrite unified_diff_same.
Qed.

(** X25. A set of copies, mails of one size with one readable body, passes
    [check_differences] whatever the thresholds, unless a threshold is set to
    -1 or below, which disables its check. *)
Theorem copies_pass_check (conf : Config) (ds : DuplicateSet.t) (size : Z)
    (lines : list string) :
  (∀ m, m ∈ DuplicateSet.pool ds →
     Mail.size m = size ∧ Mail.body_lines m = Some lines) →
  snd (DuplicateSet.check_differences conf ds) = None.
Proof.
  intros Hcopies. apply check_differences_passes_pairs.
  intros i j x y _ Hi%list_elem_of_lookup_2 Hj%list_elem_of_lookup_2.
  destruct (Hcopies x Hi) as [Hsx Hbx]. destruct (Hcopies y Hj) as [Hsy Hby].
  split.
  - intros Hs. rewrite Hsx, Hsy. lia.
  - intros Hc. exists 0%Z. split; [|done].
    unfold DuplicateSet.diff. rewrite Hbx, Hby. cbn [mbind option_bind].
    by rewrite unified_diff_same.
Qed.

(** ** Counting while hashing *)
Section HashCountFacts.

Context {Box : Type}.
Variable items : Box → list (string * Mail.t).

Lemma hash_one_counts p (d : Deduplicate.t Box) id mail :
  let d' := Deduplicate.hash_one p d (id, mail) in
  Counter.get (Deduplicate.stats d') "mail_retained"
  = Counter.get (Deduplicate.stats d) "mail_retained"
    + Z.of_nat (length (filter (λ item, is_Some (Mail.hash_key (snd item)))
                               [(id, mail)]))
  ∧ Counter.get (Deduplicate.stats d') "mail_rejected"
    = Counter.get (Deduplicate.stats d) "mail_rejected"
      + Z.of_nat (length (filter (λ item, Mail.hash_key (snd item) = None)
                                 [(id, mail)])).
Proof.
  cbv zeta. unfold Deduplicate.hash_one. cbn [Mail.hash_key].
  rewrite !filter_cons, !filter_nil. cbn [snd].
  destruct (Mail.hash_key mail) as [h|] eqn:Hkey;
    cbn [Deduplicate.stats Deduplicate.with_stats].
  - destruct (decide (is_Some (Some h))) as [_|Hno]; [|by destruct Hno].
    destruct (decide (Some h = None)) as [|_]; [done|].
    read_counters. simpl. lia.
  - destruct (decide (is_Some None)) as [[? [=]]|_].
    destruct (decide (None = None)) as [_|]; [|done].
    read_counters. simpl. lia.
Qed.

Lemma hash_box_counts p its (d : Deduplicate.t Box) :
  let d' := fold_left (Deduplicate.hash_one p) its d in
  Counter.get (Deduplicate.stats d') "mail_retained"
  = Counter.get (Deduplicate.stats d) "mail_retained"
    + Z.of_nat (length (filter (λ item, is_Some (Mail.hash_key (snd item))) its))
  ∧ Counter.get (Deduplicate.stats d') "mail_rejected"
    = Counter.get (Deduplicate.stats d) "mail_rejected"
      + Z.of_nat (length (filter (λ item, Mail.hash_key (snd item) = None) its)).
Proof.
  revert d. induction its as [|[id mail] its IH]; intros d; cbv zeta.
  { simpl. lia. }
  cbn [fold_left].
  destruct (IH (Deduplicate.hash_one p d (id, mail))) as [-> ->].
  destruct (hash_one_counts p d id mail) as [-> ->].
  change ((id, mail) :: its) with ([(id, mail)] ++ its).
  rewrite !filter_app, !length_app. lia.
Qed.

Lemma hash_sources_counts (srcs : list (string * Box)) (d : Deduplicate.t Box) :
  let d' := fold_left (λ d '(source_path, box),
                         fold_left (Deduplicate.hash_one source_path) (items box) d)
                      srcs d in
  Counter.get (Deduplicate.stats d') "mail_retained"
  = Counter.get (Deduplicate.stats d) "mail_retained" + hashable_mails items srcs
  ∧ Counter.get (Deduplicate.stats d') "mail_rejected"
    = Counter.get (Deduplicate.stats d) "mail_rejected" + unhashable_mails items srcs.
Proof.
  revert d. induction srcs as [|[p box] srcs IH]; intros d; cbv zeta.
  { simpl. lia. }
  cbn [fold_left].
  destruct (IH (fold_left (Deduplicate.hash_one p) (items box) d)) as [-> ->].
  destruct (hash_box_counts p (items box) d) as [-> ->].
  simpl. lia.
Qed.

(** X27. [hash_all] counts every mail of every registered box once: over
    hashing, [mail_retained] grows by the number of mails whose hash can be
    computed and [mail_rejected] by the number of those for which it raises
    [TooFewHeaders], whether or not a mail was already grouped. *)
Theorem hash_all_counts (d : Deduplicate.t Box) :
  let d' := Deduplicate.hash_all items d in
  Counter.get (Deduplicate.stats d') "mail_retained"
  = Counter.get (Deduplicate.stats d) "mail_retained"
    + hashable_mails items (Deduplicate.sources d)
  ∧ Counter.get (Deduplicate.stats d') "mail_rejected"
    = Counter.get (Deduplicate.stats d) "mail_rejected"
      + unhashable_mails items (Deduplicate.sources d).
Proof. apply hash_sources_counts. Qed.

End HashCountFacts.

(** ** More examples *)

Lemma check_differences_first_failure_example :
  ∃ k a b,
    DuplicateSet.combinations2 (DuplicateSet.pool Example.uneven_pair) !! k = Some (a, b)
    ∧ rejected_for Example.conf DuplicateSet.SizeDiffAboveThreshold a b.
Proof.
  destruct (check_differences_first_failure Example.conf Example.uneven_pair
              DuplicateSet.SizeDiffAboveThreshold) as (k & a & b & Hk & _ & Hr).
  - vm_compute. reflexivity.
  - by exists k, a, b.
Defined.

Lemma passing_set_size_spread_example : 13 - 12 ≤ size_threshold Example.conf.
Proof.
  apply (passing_set_size_spread Example.conf Example.pair 13 12).
  - vm_compute. discriminate.
  - vm_compute. reflexivity.
  - reflexivity.
  - reflexivity.
Defined.

Lemma size_check_is_spread_example :
  snd (DuplicateSet.check_differences Example.size_only_conf Example.uneven_pair)
  = if 40 - 12 >? size_threshold Example.size_only_conf
    then Some DuplicateSet.SizeDiffAboveThreshold else None.
Proof.
  apply (size_check_is_spread Example.size_only_conf Example.uneven_pair 40 12).
  - vm_compute. discriminate.
  - reflexivity.
  - reflexivity.
  - reflexivity.
Defined.

Lemma passing_set_log_length_example :
  (2 * length (fst (DuplicateSet.check_differences Example.conf Example.pair))
   = ((if (0 <=? size_threshold Example.conf)%Z then 1 else 0)
      + (if (0 <=? content_threshold Example.conf)%Z then 1 else 0))
     * (length (DuplicateSet.pool Example.pair)
        * (length (DuplicateSet.pool Example.pair) - 1)))%nat.
Proof.
  apply (passing_set_log_length Example.conf Example.pair). vm_compute. reflexivity.
Defined.

Lemma zero_diff_same_body_example :
  ∃ lines, Mail.body_lines Example.hello = Some lines
           ∧ Mail.body_lines Example.hello_twin = Some lines.
Proof.
  apply (zero_diff_same_body Example.hello Example.hello_twin). vm_compute. reflexivity.
Defined.

Lemma exact_content_check_example :
  Mail.body_lines Example.hello = Mail.body_lines Example.hello_twin.
Proof.
  apply (exact_content_check Example.exact_conf Example.twins).
  - reflexivity.
  - vm_compute. reflexivity.
  - left.
  - right. left.
Defined.

Lemma rejected_set_delta_example :
  fst (DuplicateSet.select_candidates Example.conf Example.keep_first Example.uneven_pair)
  = None
  ∧ Counter.get (snd (DuplicateSet.select_candidates Example.conf Example.keep_first
                        Example.uneven_pair)) "set_rejected_size" = 1.
Proof.
  destruct (rejected_set_delta Example.conf Example.keep_first Example.uneven_pair
              DuplicateSet.SizeDiffAboveThreshold) as [Hnone Hstats].
  - vm_compute. discriminate.
  - vm_compute. reflexivity.
  - split; [exact Hnone|]. rewrite Hstats. reflexivity.
Defined.

Lemma candidates_are_strategy_selection_example :
  ∃ name, [("/mail/archive", "7")] = Example.keep_first name Example.pair.
Proof.
  destruct (candidates_are_strategy_selection Example.conf Example.keep_first
              Example.pair [("/mail/archive", "7")]
              (snd (DuplicateSet.select_candidates Example.conf Example.keep_first
                      Example.pair)))
    as (name & _ & _ & Hc & _).
  - vm_compute. reflexivity.
  - by exists name.
Defined.

Lemma no_strategy_selects_nothing_example :
  Deduplicate.selection
    (Deduplicate.select_all Example.close Example.keep_first Example.no_strategy_conf
       Example.hashed)
  = Deduplicate.selection Example.hashed.
Proof.
  apply (no_strategy_selects_nothing Example.close Example.keep_first
           Example.no_strategy_conf Example.hashed).
  left. reflexivity.
Defined.

Lemma mail_selected_counts_selection_example :
  Counter.get (Deduplicate.stats Example.selected) "mail_selected"
  - Counter.get (Deduplicate.stats Example.hashed) "mail_selected"
  = Z.of_nat (length (Deduplicate.selection Example.selected))
    - Z.of_nat (length (Deduplicate.selection Example.hashed)).
Proof.
  apply (mail_selected_counts_selection Example.close Example.keep_first Example.conf
           Example.hashed).
  vm_compute. discriminate.
Defined.

Lemma mail_found_counts_sources_example :
  Counter.get (Deduplicate.stats Example.registered) "mail_found"
  = stored_mails Example.items (Deduplicate.sources Example.registered).
Proof.
  eapply (mail_found_counts_sources Example.resolve Example.open_box Example.items
            Example.conf ["/mail/inbox"; "/mail/archive"]).
  apply surjective_pairing.
Defined.

Lemma hash_all_groups_by_hash_example :
  grouped_under (Deduplicate.mails Example.hashed) "h-bye"
    (with_origin "/mail/archive" "8" Example.bye)
  ↔ ∃ path box id mail,
      (path, box) ∈ Deduplicate.sources Example.registered
      ∧ (id, mail) ∈ Example.items box
      ∧ Mail.hash_key mail = Some "h-bye"
      ∧ with_origin "/mail/archive" "8" Example.bye = with_origin path id mail.
Proof.
  apply (hash_all_groups_by_hash Example.items Example.registered). reflexivity.
Defined.

Lemma hashed_uids_distinct_example :
  NoDup (grouped_uids (Deduplicate.mails Example.hashed)).
Proof.
  apply (hashed_uids_distinct Example.items Example.registered).
  - vm_compute. apply NoDup_cons. split; [|apply NoDup_singleton].
    intros Hin. apply list_elem_of_singleton in Hin. discriminate.
  - intros box. apply NoDup_fst_map_to_list.
  - reflexivity.
Defined.

Lemma unknown_box_raises_key_error_example :
  Deduplicate.remove_selection Example.remove Example.conf Example.stray
  = (Some KeyError,
     Deduplicate.with_stats (λ s, Counter.incr s "mail_deleted" 1) Example.stray,
     [Deduplicate.Deleting "/mail/gone" "1"]).
Proof.
  apply (unknown_box_raises_key_error Example.remove Example.conf Example.stray
           "/mail/gone" "1" []).
  - reflexivity.
  - reflexivity.
  - apply NoDup_singleton.
  - reflexivity.
Defined.

Lemma removal_applies_selection_example :
  map fst (Deduplicate.sources
             (snd (fst (Deduplicate.remove_selection Example.remove Example.conf
                          Example.selected))))
  = map fst (Deduplicate.sources Example.selected).
Proof.
  destruct (removal_applies_selection Example.remove Example.conf Example.selected
              (snd (fst (Deduplicate.remove_selection Example.remove Example.conf
                           Example.selected)))
              (snd (Deduplicate.remove_selection Example.remove Example.conf
                      Example.selected))) as [Hkeys _].
  - reflexivity.
  - vm_compute. reflexivity.
  - exact Hkeys.
Defined.

Lemma keep_first_distinct name ds :
  NoDup (map Mail.uid (DuplicateSet.pool ds)) →
  NoDup (Example.keep_first name ds)
  ∧ Example.keep_first name ds ⊆ map Mail.uid (DuplicateSet.pool ds).
Proof.
  unfold Example.keep_first. destruct (DuplicateSet.pool ds) as [|m pool]; simpl.
  - intros _. split; [constructor|done].
  - intros [_ Hnd]%NoDup_cons. split; [done|]. intros u Hu. by right.
Defined.

Lemma run_selection_is_unique_example :
  unique (Deduplicate.selection Example.selected)
  = Deduplicate.selection Example.selected.
Proof.
  eapply (run_selection_is_unique Example.resolve Example.open_box Example.items
            Example.close Example.keep_first Example.conf
            ["/mail/inbox"; "/mail/archive"]).
  - intros box. apply NoDup_fst_map_to_list.
  - apply keep_first_distinct.
  - apply surjective_pairing.
Defined.

Lemma check_stats_passes_after_removal_example :
  Deduplicate.check_stats
    (snd (Deduplicate.run Example.resolve Example.open_box Example.items
            Example.remove Example.close Example.keep_first Example.conf
            ["/mail/inbox"; "/mail/archive"] true))
  = None.
Proof.
  apply (check_stats_passes_after_removal Example.resolve Example.open_box
           Example.items Example.remove Example.close Example.keep_first Example.conf
           ["/mail/inbox"; "/mail/archive"]).
  - intros box. apply NoDup_fst_map_to_list.
  - apply keep_first_bound.
  - vm_compute. reflexivity.
Defined.

Lemma check_stats_without_action_example :
  Deduplicate.check_stats
    (snd (Deduplicate.run Example.resolve Example.open_box Example.items
            Example.remove Example.close Example.keep_first Example.conf
            ["/mail/inbox"; "/mail/archive"] false))
  = None
  ↔ Deduplicate.selection
      (snd (Deduplicate.run Example.resolve Example.open_box Example.items
              Example.remove Example.close Example.keep_first Example.conf
              ["/mail/inbox"; "/mail/archive"] false))
    = [].
Proof.
  apply (check_stats_without_action Example.resolve Example.open_box
           Example.items Example.remove Example.close Example.keep_first Example.conf
           ["/mail/inbox"; "/mail/archive"]).
  - intros box. apply NoDup_fst_map_to_list.
  - apply keep_first_bound.
  - vm_compute. reflexivity.
Defined.

Lemma same_body_zero_diff_example :
  DuplicateSet.diff Example.hello Example.hello_twin = Some 0.
Proof.
  apply (same_body_zero_diff Example.hello Example.hello_twin
           [Example.line "Hello,"; Example.line "world"]); reflexivity.
Defined.

Lemma copies_pass_check_example :
  snd (DuplicateSet.check_differences Example.conf Example.twins) = None.
Proof.
  apply (copies_pass_check Example.conf Example.twins 12
           [Example.line "Hello,"; Example.line "world"]).
  intros m Hm.
  apply elem_of_cons in Hm as [->|Hm]; [split; reflexivity|].
  apply elem_of_cons in Hm as [->|Hm]; [split; reflexivity|].
  by apply elem_of_nil in Hm.
Defined.

Lemma hash_all_accounts_for_found_example :
  Counter.get (Deduplicate.stats Example.hashed) "mail_found"
  = Counter.get (Deduplicate.stats Example.hashed) "mail_rejected"
    + Counter.get (Deduplicate.stats Example.hashed) "mail_retained".
Proof.
  eapply (hash_all_accounts_for_found Example.resolve Example.open_box Example.items
            Example.conf ["/mail/inbox"; "/mail/archive"]).
  - intros box. apply NoDup_fst_map_to_list.
  - apply surjective_pairing.
Defined.
